(** * Batch BPM Converter: a shallow embedding of [src/app.py]

    The first part of the file holds the program, module by module:
    - [PyStr]    the [str] operations the program relies on;
    - [Re]       the eight regular expressions of the program, each as the
                 scan the [re] module runs for it;
    - [PathLib]  [Path.name], [Path.stem], [Path.suffix] and friends;
    - [Bpm]      [guess_bpm_from_name];
    - [Tempo]    [atempo_chain];
    - [Naming]   [_sanitize_base] and [safe_out_path];
    - [Worker]   [convert_with_ffmpeg] and [ConvertTask.run];
    - [Discovery] [list_audio_files] and [which_ffmpeg].
    The second part holds the facts: [TempoFacts], [BpmFacts],
    [WorkerFacts] and [NamingFacts], then [TempoRange], [BpmSound],
    [NamingShape], [WorkerMore] and [DiscoveryFacts].

    Modelling conventions.
    - A Python [float] is an exact rational ([Q]), the value of the
      float; infinities and NaN are outside the model.  Every operation
      of lines 133-146 of [atempo_chain] (division by [2.0] and by [0.5],
      subtraction of [1.0] from a value between [0.5] and [2.0],
      comparison with a literal) is exact in binary floating point, and no
      float lies between the float [1e-6] and the rational 10^-6, so the
      factor list of a finite float is the same in both readings.  Two
      steps of the program are not exact: the division of line 278 rounds
      its quotient and raises [OverflowError] for a quotient too large for
      a float, where [Tempo.ratio_of] is the quotient itself; line 147
      prints each factor with six decimals, where [Tempo.atempo_chain] is
      the list of factors before printing.
    - A Python [str] is a list of code points in the range 0..255
      (Latin-1), each a Rocq [ascii]; the character classes ([\d], [\s],
      [\w], [lower()]) are Python's on that range, where the only decimal
      digits are [0] to [9].  Names with characters beyond that range are
      outside the model.
    - [pathlib] is taken in its POSIX flavour, with the suffix rules of
      Python 3.13 and earlier (a name that ends in a dot has no suffix).
    - A function that may raise returns a [res].
    - The file system and the converter are collaborators: operations
      over an abstract world, collected in a class. *)

From Stdlib Require Import ZArith QArith Qabs Lia Bool Ascii String List.
From Stdlib Require Import DecimalString Sorted.
Import ListNotations.
Close Scope Q_scope.

(** ** Results of calls that may raise *)

Inductive exn : Type :=
| ValueError (msg : string)
| OSError (msg : string).

Inductive res (A : Type) : Type :=
| Ret (a : A)
| Raise (e : exn).

Arguments Ret {A} a.
Arguments Raise {A} e.

(** ** [atempo_chain] (lines 128-147) *)

Module Tempo.

Local Open Scope Q_scope.

Definition Qltb (x y : Q) : bool := negb (Qle_bool y x).

(** [1e-6] *)
Definition tol : Q := 1 # 1000000.

(** Line 278: [ratio = self.target_bpm / bpm], as the exact quotient.
    Python rounds the quotient to the nearest float, and raises
    [OverflowError] when it is too large for one (2^1024 or more). *)
Definition ratio_of (target_bpm bpm : Z) : Q := inject_Z target_bpm / inject_Z bpm.

(** Lines 137-139: [while r > 2.0: factors.append(2.0); r /= 2.0].
    The loop is unrolled [fuel] times; [TempoFacts.while_gt_exit] shows
    that the fuel [atempo_chain] passes is never exhausted. *)
Fixpoint while_gt (fuel : nat) (factors : list Q) (r : Q) : list Q * Q :=
  match fuel with
  | O => (factors, r)
  | S k => if Qltb 2 r then while_gt k (factors ++ [2]) (r / 2) else (factors, r)
  end.

(** Lines 140-142: [while r < 0.5: factors.append(0.5); r /= 0.5];
    see [TempoFacts.while_lt_exit] for the fuel. *)
Fixpoint while_lt (fuel : nat) (factors : list Q) (r : Q) : list Q * Q :=
  match fuel with
  | O => (factors, r)
  | S k => if Qltb r (1#2) then while_lt k (factors ++ [1#2]) (r / (1#2)) else (factors, r)
  end.

(** Halving brings a ratio to [2.0] or below in no more turns than its
    numerator has bits; doubling brings it to [0.5] or above in no more
    turns than its denominator has bits. *)
Definition fuel_gt (r : Q) : nat := Pos.size_nat (Z.to_pos (Qnum r)).
Definition fuel_lt (r : Q) : nat := Pos.size_nat (Qden r).

(** Lines 143-146: the remainder is a stage unless it is within [1e-6] of
    [1.0]; an empty chain becomes [[1.0]]. *)
Definition finish (factors : list Q) (r : Q) : list Q :=
  let factors := if Qltb tol (Qabs (r - 1)) then factors ++ [r] else factors in
  match factors with [] => [1] | _ => factors end.

(** The factor list built by lines 133-146, before line 147 prints it:
    one [atempo=%.6f] per factor, joined by commas, so that the printed
    chain has as many stages as the list, each rounded to six decimals. *)
Definition atempo_chain (ratio : Q) : res (list Q) :=
  if Qle_bool ratio 0 then Raise (ValueError "ratio debe ser > 0")
  else
    let '(factors, r) := while_gt (fuel_gt ratio) [] ratio in
    let '(factors, r) := while_lt (fuel_lt r) factors r in
    Ret (finish factors r).

(** Product of a stage chain. *)
Definition chain_product (fs : list Q) : Q := fold_right Qmult 1 fs.

Definition in_stage_range (f : Q) : Prop := (1#2) <= f /\ f <= 2.

End Tempo.

(** ** The [str] operations the program uses *)

Module PyStr.

Definition str : Type := list ascii.

(** A literal. *)
Definition py (s : string) : str := list_ascii_of_string s.

Definition code (c : ascii) : N := N_of_ascii c.

Definition between (lo hi : N) (c : ascii) : bool :=
  ((lo <=? code c) && (code c <=? hi))%N.

Definition is_char (x c : ascii) : bool := Ascii.eqb x c.

(** [[0-9]]; on the code points 0..255 this is also [\d]. *)
Definition is_digit (c : ascii) : bool := between 48 57 c.

(** [[A-Za-z]] *)
Definition is_alpha (c : ascii) : bool := between 65 90 c || between 97 122 c.

(** [\s] and [str.isspace()]: tab to carriage return, the four
    separators 0x1c-0x1f, space, NEL and the no-break space. *)
Definition is_space (c : ascii) : bool :=
  between 9 13 c || between 28 32 c || (code c =? 133)%N || (code c =? 160)%N.

(** [\w]: alphanumeric or underscore.  Above 127 the alphanumeric code
    points are the ordinal indicators, the superscript digits, micro,
    the vulgar fractions and the accented letters. *)
Definition is_word (c : ascii) : bool :=
  is_digit c || is_alpha c || is_char "_" c ||
  (code c =? 170)%N || between 178 179 c || (code c =? 181)%N ||
  between 185 186 c || between 188 190 c ||
  between 192 214 c || between 216 246 c || between 248 255 c.

(** [c.lower()] *)
Definition lower_char (c : ascii) : ascii :=
  if between 65 90 c || between 192 214 c || between 216 222 c
  then ascii_of_N (code c + 32)
  else c.

(** [s.lower()] *)
Definition lower (s : str) : str := map lower_char s.

(** [len(s)] *)
Definition len (s : str) : Z := Z.of_nat (length s).

Definition str_eqb (a b : str) : bool :=
  if list_eq_dec ascii_dec a b then true else false.

(** [s.replace(a, b)] for one-character [a] and [b]. *)
Definition replace_char (a b : ascii) (s : str) : str :=
  map (fun c => if is_char a c then b else c) s.

(** [s.lstrip()] with the stripped characters given by [p]. *)
Fixpoint lstrip_by (p : ascii -> bool) (s : str) : str :=
  match s with
  | [] => []
  | c :: s' => if p c then lstrip_by p s' else s
  end.

(** [s.rstrip()] with the stripped characters given by [p]. *)
Fixpoint rstrip_by (p : ascii -> bool) (s : str) : str :=
  match s with
  | [] => []
  | c :: s' =>
      match rstrip_by p s' with
      | [] => if p c then [] else [c]
      | t => c :: t
      end
  end.

(** [s.strip()] *)
Definition strip (s : str) : str := rstrip_by is_space (lstrip_by is_space s).

(** [s.startswith(sub)] *)
Fixpoint starts_with (sub s : str) : bool :=
  match sub, s with
  | [], _ => true
  | _ :: _, [] => false
  | a :: sub', c :: s' => Ascii.eqb a c && starts_with sub' s'
  end.

(** [sub in s] *)
Fixpoint contains (sub s : str) : bool :=
  starts_with sub s ||
  match s with
  | [] => false
  | _ :: s' => contains sub s'
  end.

(** [s.rfind(sub)]: the highest index at which [sub] occurs, or [-1].
    [i] is the index of the head of [s], [last] the best index so far. *)
Fixpoint rfind_from (sub s : str) (i last : Z) : Z :=
  let last := if starts_with sub s then i else last in
  match s with
  | [] => last
  | _ :: s' => rfind_from sub s' (i + 1)%Z last
  end.

Definition rfind (s sub : str) : Z := rfind_from sub s 0%Z (-1)%Z.

(** [int(s)] for a string of decimal digits. *)
Definition int_of_digits (s : str) : Z :=
  fold_left (fun acc c => 10 * acc + Z.of_N (code c - 48))%Z s 0%Z.

(** [str(n)] *)
Definition str_of_int (n : Z) : str := py (NilZero.string_of_int (Z.to_int n)).

(** [sep.join(parts)] *)
Fixpoint join (sep : str) (parts : list str) : str :=
  match parts with
  | [] => []
  | [p] => p
  | p :: ps => p ++ sep ++ join sep ps
  end.

(** [s.split(sep)] for a one-character separator: [cur] is the piece
    being read, reversed. *)
Fixpoint split_from (sep : ascii) (cur : str) (s : str) : list str :=
  match s with
  | [] => [rev cur]
  | c :: s' =>
      if is_char sep c then rev cur :: split_from sep [] s'
      else split_from sep (c :: cur) s'
  end.

Definition split (sep : ascii) (s : str) : list str := split_from sep [] s.

End PyStr.

(** ** The regular expressions of the program *)

Module Re.
Import PyStr.

(** [re.sub(r"X+", repl, s)] for a character class [X]: every maximal run
    of [X] becomes [repl].  [in_run] tells that the previous character
    belonged to a run that was already replaced. *)
Fixpoint sub_plus_from (cls : ascii -> bool) (repl : str) (in_run : bool) (s : str) : str :=
  match s with
  | [] => []
  | c :: s' =>
      if cls c then
        if in_run then sub_plus_from cls repl true s'
        else repl ++ sub_plus_from cls repl true s'
      else c :: sub_plus_from cls repl false s'
  end.

Definition sub_plus (cls : ascii -> bool) (repl : str) (s : str) : str :=
  sub_plus_from cls repl false s.

(** [re.sub(r"X+$", "", s)]: the run of [X] that ends the string goes.
    ([$] also matches before a final newline; a run that reaches that
    newline contains it, so the result is the same.) *)
Definition sub_plus_end (cls : ascii -> bool) (s : str) : str := rstrip_by cls s.

(** *** [RE_BPM_TAGGED = (?i)bpm[\s_\-]*([0-9]{2,3})(?!\d)] *)

(** [[\s_\-]] *)
Definition is_tag_sep (c : ascii) : bool := is_space c || is_char "_" c || is_char "-" c.

(** [([0-9]{2,3})(?!\d)] at the head of [s]: three digits are tried
    first, then two; the group is returned. *)
Definition digits_2_3 (s : str) : option str :=
  match s with
  | d1 :: d2 :: rest =>
      if is_digit d1 && is_digit d2 then
        match rest with
        | d3 :: rest' =>
            if is_digit d3 then
              match rest' with
              | d4 :: _ => if is_digit d4 then None else Some [d1; d2; d3]
              | [] => Some [d1; d2; d3]
              end
            else Some [d1; d2]
        | [] => Some [d1; d2]
        end
      else None
  | _ => None
  end.

(** The whole pattern at the head of [s].  After [bpm] the star takes the
    whole run of separators: giving one back leaves a separator where a
    digit is required. *)
Definition bpm_tagged_at (s : str) : option str :=
  match s with
  | b :: p :: m :: rest =>
      if is_char "b" (lower_char b) && is_char "p" (lower_char p) && is_char "m" (lower_char m)
      then digits_2_3 (lstrip_by is_tag_sep rest)
      else None
  | _ => None
  end.

(** [RE_BPM_TAGGED.search(s)]: group 1 of the leftmost match. *)
Fixpoint bpm_tagged_search (s : str) : option str :=
  match bpm_tagged_at s with
  | Some g => Some g
  | None =>
      match s with
      | [] => None
      | _ :: s' => bpm_tagged_search s'
      end
  end.

(** *** [RE_ANY_NUMBER_2_3 = (?<!\d)(\d{2,3})(?!\d)] *)

(** [RE_ANY_NUMBER_2_3.findall(s)].  [prev_digit] is the look-behind;
    [skip] counts the characters of the current match still to pass.
    On the code points 0..255 [\d] is [0] to [9]. *)
Fixpoint findall_2_3_from (prev_digit : bool) (skip : nat) (s : str) : list str :=
  match s with
  | [] => []
  | c :: s' =>
      match skip with
      | S k => findall_2_3_from true k s'
      | O =>
          if prev_digit then findall_2_3_from (is_digit c) 0 s'
          else
            match digits_2_3 s with
            | Some g => g :: findall_2_3_from true (length g - 1) s'
            | None => findall_2_3_from (is_digit c) 0 s'
            end
      end
  end.

Definition findall_2_3 (s : str) : list str := findall_2_3_from false 0 s.

(** *** [_SANITIZE_STOPWORDS = (?i)\b(drum|loop|full)\b] *)

Definition stopwords : list str := [py "drum"; py "loop"; py "full"].

Definition is_stopword (w : str) : bool :=
  existsb (str_eqb (lower w)) stopwords.

(** [\b] after a word character: the end of the string or a non-word
    character. *)
Definition boundary_after (s : str) : bool :=
  match s with
  | [] => true
  | c :: _ => negb (is_word c)
  end.

(** [(drum|loop|full)\b] at the head of [s]. *)
Definition stopword_at (s : str) : bool :=
  match s with
  | c1 :: c2 :: c3 :: c4 :: rest => is_stopword [c1; c2; c3; c4] && boundary_after rest
  | _ => false
  end.

(** [_SANITIZE_STOPWORDS.sub("", s)].  [prev_word] tells whether the
    previous character is a word character (the leading [\b]); [skip]
    counts the characters of the current match still to delete. *)
Fixpoint sub_stopwords_from (prev_word : bool) (skip : nat) (s : str) : str :=
  match s with
  | [] => []
  | c :: s' =>
      match skip with
      | S k => sub_stopwords_from true k s'
      | O =>
          if negb prev_word && stopword_at s
          then sub_stopwords_from true 3 s'
          else c :: sub_stopwords_from (is_word c) 0 s'
      end
  end.

Definition sub_stopwords (s : str) : str := sub_stopwords_from false 0 s.

End Re.

(** ** [pathlib], POSIX flavour *)

Module PathLib.
Import PyStr.

(** A pure path: its root (empty, [/] or [//]) and its components. *)
Record Path : Type := mkPath { root : str; parts : list str }.

(** The root of a path string: exactly two leading slashes are kept,
    any other number of them is one. *)
Definition root_of (s : str) : str :=
  if starts_with (py "//") s && negb (starts_with (py "///") s) then py "//"
  else if starts_with (py "/") s then py "/"
  else [].

(** [Path(s)]: empty components and [.] components are dropped. *)
Definition of_str (s : str) : Path :=
  {| root := root_of s;
     parts := filter (fun x => negb (str_eqb x []) && negb (str_eqb x (py ".")))
                     (split "/" s) |}.

(** [p.name] *)
Definition name (p : Path) : str := last (parts p) [].

(** The index of the dot that starts the suffix of a name, if the name
    has a suffix: [i = name.rfind('.')] with [0 < i < len(name) - 1]. *)
Definition suffix_index (n : str) : option nat :=
  let i := rfind n (py ".") in
  if ((0 <? i) && (i <? len n - 1))%Z then Some (Z.to_nat i) else None.

(** [p.suffix] *)
Definition suffix (p : Path) : str :=
  match suffix_index (name p) with
  | Some i => skipn i (name p)
  | None => []
  end.

(** [p.stem] *)
Definition stem (p : Path) : str :=
  match suffix_index (name p) with
  | Some i => firstn i (name p)
  | None => name p
  end.

(** [p.as_posix()] *)
Definition as_posix (p : Path) : str :=
  match root p, parts p with
  | [], [] => py "."
  | r, ps => r ++ join (py "/") ps
  end.

(** [p.parent] *)
Definition parent (p : Path) : Path :=
  {| root := root p; parts := removelast (parts p) |}.

(** [p / q] *)
Definition joinpath (p q : Path) : Path :=
  match root q with
  | [] => {| root := root p; parts := parts p ++ parts q |}
  | _ => q
  end.

End PathLib.

(** ** [guess_bpm_from_name] (lines 19-47) *)

Module Bpm.
Import PyStr PathLib.
Local Open Scope Z_scope.

Definition BPM_RANGE : Z * Z := (40, 220).

(** [BPM_RANGE[0] <= n <= BPM_RANGE[1]] *)
Definition in_bpm_range (n : Z) : bool :=
  (fst BPM_RANGE <=? n) && (n <=? snd BPM_RANGE).

Definition keywords : list str :=
  map py ["loop"; "drum"; "beat"; "kick"; "snare"; "hats"; "perc"; "groove"]%string.

(** Lines 27-31: the value of the leftmost tagged match, when it is in
    range. *)
Definition tagged_bpm (base : str) : option Z :=
  match Re.bpm_tagged_search base with
  | Some g =>
      let bpm := int_of_digits g in
      if in_bpm_range bpm then Some bpm else None
  | None => None
  end.

(** Lines 32-33. *)
Definition candidates (base : str) : list Z :=
  let nums := map int_of_digits (Re.findall_2_3 base) in
  filter in_bpm_range nums.

(** Lines 39-44: the score of candidate [c]. *)
Definition score (base : str) (c : Z) : Z :=
  let score := 0 in
  let idx := rfind (lower base) (str_of_int c) in
  let score := if 0 <=? idx then score + 2 * (len base - idx) else score in
  let score :=
    if existsb (fun k => contains k (lower base)) keywords then score + 50 else score in
  score.

(** Line 46: the sort key of a scored candidate. *)
Definition sort_key (base : str) (t : Z * Z) : Z * Z :=
  (fst t, rfind base (str_of_int (snd t))).

(** Comparison of two keys, as Python compares tuples. *)
Definition key_leb (a b : Z * Z) : bool :=
  (fst a <? fst b) || ((fst a =? fst b) && (snd a <=? snd b)).

(** [list.sort(key=...)] is a stable ascending sort: an element goes in
    front of the first element whose key is not smaller. *)
Fixpoint insert_by {A} (key : A -> Z * Z) (x : A) (l : list A) : list A :=
  match l with
  | [] => [x]
  | y :: l' => if key_leb (key x) (key y) then x :: l else y :: insert_by key x l'
  end.

Definition sort_by {A} (key : A -> Z * Z) (l : list A) : list A :=
  fold_right (insert_by key) [] l.

Definition guess_bpm_from_name (name : str) : option Z :=
  let base := stem (of_str name) in
  match tagged_bpm base with
  | Some bpm => Some bpm
  | None =>
      match candidates base with
      | [] => None
      | c0 :: _ =>
          let scored := map (fun c => (score base c, c)) (candidates base) in
          let scored := sort_by (sort_key base) scored in
          Some (snd (last scored (0, c0)))
      end
  end.

(** *** Vocabulary of the statements about [guess_bpm_from_name] *)

(** Index of the last occurrence of the decimal text of [c] (line 40). *)
Definition last_index (base : str) (c : Z) : Z := rfind (lower base) (str_of_int c).

(** Position term of the score (lines 41-42): twice the distance from the
    last occurrence to the END of the base name. *)
Definition position_score (base : str) (c : Z) : Z :=
  if 0 <=? last_index base c then 2 * (len base - last_index base c) else 0.

(** Keyword term of the score (lines 43-44). *)
Definition keyword_bonus (base : str) : Z :=
  if existsb (fun k => contains k (lower base)) keywords then 50 else 0.

(** The position term as the spec words it: twice the distance from the
    START of the string to the last occurrence, so that later occurrences
    score higher. *)
Definition spec_position_score (base : str) (c : Z) : Z := 2 * last_index base c.

Definition spec_score (base : str) (c : Z) : Z :=
  spec_position_score base c + keyword_bonus base.

(** [a] sorts no later than [b] under [key]. *)
Definition key_le {A} (key : A -> Z * Z) (a b : A) : Prop :=
  key_leb (key a) (key b) = true.

(** [s] is empty or starts with a character that is no digit. *)
Definition no_digit_head (s : str) : Prop :=
  match s with
  | [] => True
  | c :: _ => is_digit c = false
  end.


End Bpm.

(** ** [_sanitize_base] and [safe_out_path] (lines 179-246) *)

Module Naming.
Import PyStr PathLib.

(** [[^A-Za-z]] *)
Definition not_alpha (c : ascii) : bool := negb (is_alpha c).

(** [[^A-Za-z0-9_\-]] *)
Definition not_label_char (c : ascii) : bool :=
  negb (is_alpha c || is_digit c || is_char "_" c || is_char "-" c).

(** Steps 1 to 6 of [_sanitize_base] (lines 190-207). *)
Definition sanitize_steps (base : str) : str :=
  (* 1) quitar numeros *)
  let s := Re.sub_plus is_digit [] base in
  (* 2) normalizar separadores a espacios *)
  let s_spaces := replace_char "-" " " (replace_char "_" " " s) in
  (* 3) quitar stopwords *)
  let s_spaces := Re.sub_stopwords s_spaces in
  (* 4) colapsar espacios y volver a underscores *)
  let s_spaces := strip (Re.sub_plus is_space (py " ") s_spaces) in
  let s := replace_char " " "_" s_spaces in
  (* 5) colapsar underscores repetidos *)
  let s := Re.sub_plus (is_char "_") (py "_") s in
  (* 6) eliminar cualquier sufijo no alfabetico *)
  Re.sub_plus_end not_alpha s.

(** [_sanitize_base]: step 7 puts the placeholder in for an empty name. *)
Definition _sanitize_base (base : str) : str :=
  match sanitize_steps base with
  | [] => py "converted"
  | s => s
  end.

(** Lines 230-233: the label, normalised. *)
Definition normalize_suffix (suffix : str) : str :=
  let suf := strip suffix in
  let suf := replace_char " " "_" suf in
  let suf := Re.sub_plus (is_char "_") (py "_") suf in
  Re.sub_plus not_label_char [] suf.

(** Lines 221-222: [base]. *)
Definition out_base (src : Path) (flat_names : bool) : str :=
  let rel :=
    if flat_names then name src
    else replace_char "/" "_" (filter (fun c => negb (is_char ":" c)) (as_posix src)) in
  stem (of_str rel).

(** Lines 228-238: [clean] with the label appended, when there is one. *)
Definition labelled (clean suffix : str) : str :=
  match suffix with
  | [] => clean
  | _ =>
      match normalize_suffix suffix with
      | [] => clean
      | suf =>
          let candidate := clean ++ py "_" ++ suf in
          let candidate := Re.sub_plus (is_char "_") (py "_") candidate in
          let candidate := Re.sub_plus_end not_alpha candidate in
          match candidate with [] => clean | _ => candidate end
      end
  end.

(** Lines 225-243: the name without its extension ([clean]). *)
Definition safe_out_stem (src : Path) (flat_names : bool) (suffix : str) : str :=
  let base := out_base src flat_names in
  let clean := _sanitize_base base in
  let clean := labelled clean suffix in
  let clean := rstrip_by (fun c => is_char "_" c || is_char "-" c) clean in
  match clean with
  | [] => py "converted"
  | _ => clean
  end.

(** Line 245: [newname = f"{clean}{ext}"] with [ext = src.suffix.lower()]. *)
Definition safe_out_name (src : Path) (flat_names : bool) (suffix : str) : str :=
  safe_out_stem src flat_names suffix ++ lower (PathLib.suffix src).

(** Line 246, before [resolve()]: [out_dir / newname]. *)
Definition safe_out_join (src out_dir : Path) (target_bpm : Z)
           (flat_names : bool) (suffix : str) : Path :=
  joinpath out_dir (of_str (safe_out_name src flat_names suffix)).

(** Code points below 128. *)
Definition is_ascii7 (c : ascii) : bool := (code c <? 128)%N.

(** *** Vocabulary of the statements about the output name *)

(** The last character of [s] is one of [A-Za-z]. *)
Definition ends_in_letter (s : str) : Prop :=
  exists body c, s = body ++ [c] /\ is_alpha c = true.

(** The character [x] does not occur in [s]. *)
Definition no_char (x : ascii) (s : str) : Prop :=
  Forall (fun c => is_char x c = false) s.

(** An ASCII character that is no digit, underscore or hyphen: what is
    left of an ASCII name after steps 1 and 2. *)
Definition plain (c : ascii) : bool :=
  is_ascii7 c && negb (is_digit c) && negb (is_char "_" c) && negb (is_char "-" c).

(** The word, if any, that is being read. *)
Definition pending (cur : str) : list str :=
  match cur with
  | [] => []
  | _ => [cur]
  end.

(** The maximal runs of word characters of [s], in order; [cur] is the
    run being read. *)
Fixpoint words_from (cur : str) (s : str) : list str :=
  match s with
  | [] => pending cur
  | c :: s' =>
      if is_word c then words_from (cur ++ [c]) s'
      else pending cur ++ words_from [] s'
  end.

Definition words (s : str) : list str := words_from [] s.

(** A word as the substitution of step 3 leaves it. *)
Definition keep_word (w : str) : str := if Re.is_stopword w then [] else w.

(** Step 3 read word by word: every maximal run of word characters that
    is a stopword goes, everything else stays. *)
Fixpoint sub_words (cur : str) (s : str) : str :=
  match s with
  | [] => keep_word cur
  | c :: s' =>
      if is_word c then sub_words (cur ++ [c]) s'
      else keep_word cur ++ c :: sub_words [] s'
  end.

(** The longest prefix of word characters, and the rest. *)
Fixpoint span_word (s : str) : str * str :=
  match s with
  | [] => ([], [])
  | c :: s' =>
      if is_word c then let '(w, r) := span_word s' in (c :: w, r)
      else ([], s)
  end.

(** No two neighbours of [s] are both in the class [p]. *)
Fixpoint no_double (p : ascii -> bool) (s : str) : Prop :=
  match s with
  | [] => True
  | c :: s' =>
      match s' with
      | [] => True
      | c' :: _ => (p c = true -> p c' = false) /\ no_double p s'
      end
  end.

(** [s] does not start with a character of the class [p]. *)
Definition head_not (p : ascii -> bool) (s : str) : Prop :=
  match s with
  | [] => True
  | c :: _ => p c = false
  end.

(** What steps 1 to 4 make of an ASCII name, cut after its last letter:
    plain characters, single spaces as the only white space, none in
    front, a letter at the end, and no stopword among the words. *)
Definition normal (y : str) : Prop :=
  Forall (fun c => plain c = true) y /\
  Forall (fun c => is_space c = true -> c = " "%char) y /\
  no_double is_space y /\
  head_not is_space y /\
  (y = [] \/ ends_in_letter y) /\
  Forall (fun w => Re.is_stopword w = false) (words y).

End Naming.

(** ** [convert_with_ffmpeg] and [ConvertTask.run] (lines 149-177, 250-298) *)

Module Worker.
Import PyStr PathLib.

(** The command line of lines 162-169. *)
Record ffmpeg_cmd : Type := {
  cmd_ffmpeg : Path;
  cmd_input : str;
  cmd_filter : list Q;
  cmd_out_args : list str;
  cmd_output : str
}.

(** What [subprocess.check_output] does with the command. *)
Inductive proc_result : Type :=
| Completed
| CalledProcessError (output : str)
| OtherError (e : exn).

(** The file system and the process table, as the program meets them.
    Each operation takes the world and says what it answers there. *)
Class Collaborators (World : Type) : Type := {
  (** [p.mkdir(parents=True, exist_ok=True)] *)
  mkdir_parents : Path -> World -> res unit * World;
  (** [p.resolve()] *)
  resolve : Path -> World -> res Path;
  (** [p.exists()] *)
  path_exists : Path -> World -> res bool;
  (** [which_ffmpeg()] (lines 74-126) *)
  which_ffmpeg : World -> res (option Path);
  (** [subprocess.check_output(cmd, stderr=subprocess.STDOUT)] *)
  check_output : ffmpeg_cmd -> World -> proc_result * World
}.

(** The second component of the result of [convert_with_ffmpeg]. *)
Inductive convert_msg : Type :=
| MsgOk                                (* "ok" *)
| MsgNotFound                          (* "FFmpeg no encontrado. (...)" *)
| MsgFfmpegError (output : str)        (* "FFmpeg error:\n{msg}" *)
| MsgException (e : exn).              (* "{type(e).__name__}: {e}" *)

(** What follows the colon of an error line. *)
Inductive error_detail : Type :=
| ConverterSaid (m : convert_msg)      (* line 291 *)
| Exception (e : exn).                 (* line 294 *)

(** The lines [run] sends to [message]. *)
Inductive log_line : Type :=
| NoBpmDetected (name : str)                        (* line 276 *)
| OutputExists (name : str)                         (* line 282 *)
| Converting (name : str) (bpm target : Z) (ratio : Q)  (* line 284 *)
| Saved (outname : str)                             (* line 288 *)
| ErrorIn (name : str) (detail : error_detail)      (* lines 291, 294 *)
| Traceback (e : exn).                              (* line 295 *)

(** The three signals of [ConvertTask]. *)
Inductive event : Type :=
| Message (l : log_line)
| Progress (percent : Z)
| FinishedOk (processed skipped : Z).

(** The fields of a [ConvertTask]. *)
Record ConvertTask : Type := {
  files : list Path;
  target_bpm : Z;
  out_dir : Path;
  overwrite : bool;
  flat_names : bool;
  suffix_label : str
}.

(** [ConvertTask.__init__] (lines 255-263). *)
Definition ConvertTask_init (files : list Path) (target_bpm : Z) (out_dir : Path)
           (overwrite flat_names : bool) (suffix_label : str) : ConvertTask :=
  {| files := files; target_bpm := target_bpm; out_dir := out_dir;
     overwrite := overwrite; flat_names := flat_names;
     suffix_label := match suffix_label with [] => [] | _ => py "_" ++ suffix_label end |}.

Section Run.
Context {World : Type} `{Collaborators World}.

(** What [run] changes: the world, the signals sent so far, and its two
    counters. *)
Record state : Type := {
  world : World;
  events : list event;
  processed : Z;
  skipped : Z
}.

(** A computation over [state] that returns or raises. *)
Definition M (A : Type) : Type := state -> res A * state.

Definition ret {A} (a : A) : M A := fun s => (Ret a, s).

Definition bind {A B} (c : M A) (k : A -> M B) : M B :=
  fun s =>
    match c s with
    | (Ret a, s') => k a s'
    | (Raise e, s') => (Raise e, s')
    end.

(** [try: body except Exception as e: handler(e)] *)
Definition try_except {A} (body : M A) (handler : exn -> M A) : M A :=
  fun s =>
    match body s with
    | (Ret a, s') => (Ret a, s')
    | (Raise e, s') => handler e s'
    end.

Notation "x <- c ;; k" := (bind c (fun x => k))
  (at level 61, c at next level, right associativity).
Notation "c ;; k" := (bind c (fun _ => k))
  (at level 61, right associativity).

Definition of_res {A} (r : res A) : M A := fun s => (r, s).

Definition emit (e : event) : M unit :=
  fun s => (Ret tt, {| world := world s; events := events s ++ [e];
                       processed := processed s; skipped := skipped s |}).

(** [processed += 1] *)
Definition incr_processed : M unit :=
  fun s => (Ret tt, {| world := world s; events := events s;
                       processed := processed s + 1; skipped := skipped s |}).

(** [skipped += 1] *)
Definition incr_skipped : M unit :=
  fun s => (Ret tt, {| world := world s; events := events s;
                       processed := processed s; skipped := skipped s + 1 |}).

(** An operation that reads the world. *)
Definition ask {A} (q : World -> res A) : M A := fun s => (q (world s), s).

(** An operation that changes the world. *)
Definition act {A} (f : World -> A * World) : M A :=
  fun s =>
    let '(a, w) := f (world s) in
    (Ret a, {| world := w; events := events s;
               processed := processed s; skipped := skipped s |}).

Definition act_res {A} (f : World -> res A * World) : M A :=
  fun s =>
    let '(r, w) := f (world s) in
    (r, {| world := w; events := events s;
           processed := processed s; skipped := skipped s |}).

(** Lines 158-160. *)
Definition out_args_for (dst : Path) : list str :=
  if existsb (str_eqb (lower (PathLib.suffix dst))) [py ".wav"; py ".aiff"; py ".aif"]
  then [py "-c:a"; py "pcm_s24le"]
  else [].

(** [convert_with_ffmpeg] *)
Definition convert_with_ffmpeg (src dst : Path) (ratio : Q) : M (bool * convert_msg) :=
  ffmpeg_path <- ask which_ffmpeg ;;
  match ffmpeg_path with
  | None => ret (false, MsgNotFound)
  | Some ffmpeg =>
      act_res (mkdir_parents (parent dst)) ;;
      filter_str <- of_res (Tempo.atempo_chain ratio) ;;
      r <- act (check_output {| cmd_ffmpeg := ffmpeg;
                                cmd_input := as_posix src;
                                cmd_filter := filter_str;
                                cmd_out_args := out_args_for dst;
                                cmd_output := as_posix dst |}) ;;
      match r with
      | Completed => ret (true, MsgOk)
      | CalledProcessError output => ret (false, MsgFfmpegError output)
      | OtherError e => ret (false, MsgException e)
      end
  end.

(** [safe_out_path] (line 246): the joined path, resolved. *)
Definition safe_out_path (src out_dir : Path) (target_bpm : Z)
           (flat_names : bool) (suffix : str) : M Path :=
  ask (resolve (Naming.safe_out_join src out_dir target_bpm flat_names suffix)).

Variable task : ConvertTask.

(** Lines 273-291: the body of the [try]. *)
Definition try_body (f : Path) : M unit :=
  match Bpm.guess_bpm_from_name (name f) with
  | None =>
      incr_skipped ;;
      emit (Message (NoBpmDetected (name f)))
  | Some bpm =>
      if (bpm =? 0)%Z then
        incr_skipped ;;
        emit (Message (NoBpmDetected (name f)))
      else
        let ratio := Tempo.ratio_of (target_bpm task) bpm in
        outpath <- safe_out_path f (out_dir task) (target_bpm task)
                                 (flat_names task) (suffix_label task) ;;
        there <- ask (path_exists outpath) ;;
        if there && negb (overwrite task) then
          incr_skipped ;;
          emit (Message (OutputExists (name f)))
        else
          emit (Message (Converting (name f) bpm (target_bpm task) ratio)) ;;
          r <- convert_with_ffmpeg f outpath ratio ;;
          if fst r then
            incr_processed ;;
            emit (Message (Saved (name outpath)))
          else
            incr_skipped ;;
            emit (Message (ErrorIn (name f) (ConverterSaid (snd r))))
  end.

(** Lines 292-295: the handler. *)
Definition except_handler (f : Path) (e : exn) : M unit :=
  incr_skipped ;;
  emit (Message (ErrorIn (name f) (Exception e))) ;;
  emit (Message (Traceback e)).

(** [int(i * 100 / max(total, 1))].  The quotient is a float; its
    integer part is the integer quotient for any list a machine can
    hold (below 2^53 / 100 files). *)
Definition percent (i total : Z) : Z := (i * 100 / Z.max total 1)%Z.

(** Lines 272-296: one turn of the loop. *)
Definition run_file (total i : Z) (f : Path) : M unit :=
  try_except (try_body f) (except_handler f) ;;
  emit (Progress (percent i total)).

(** Lines 271-296: [for i, f in enumerate(self.files, start=1)]. *)
Fixpoint run_loop (total i : Z) (fs : list Path) : M unit :=
  match fs with
  | [] => ret tt
  | f :: rest => run_file total i f ;; run_loop total (i + 1)%Z rest
  end.

(** Line 298. *)
Definition emit_finished : M unit :=
  fun s => emit (FinishedOk (processed s) (skipped s)) s.

(** [ConvertTask.run] *)
Definition run_from : M unit :=
  let total := Z.of_nat (length (files task)) in
  act_res (mkdir_parents (out_dir task)) ;;
  run_loop total 1%Z (files task) ;;
  emit_finished.

Definition initial (w : World) : state :=
  {| world := w; events := []; processed := 0%Z; skipped := 0%Z |}.

Definition run (w : World) : res unit * state := run_from (initial w).

End Run.

Arguments state World : clear implicits.
Arguments M World A : clear implicits.

(** *** Vocabulary of the statements about [run] *)

(** The percentages sent to [progress], in order. *)
Definition progress_values (evs : list event) : list Z :=
  flat_map (fun e => match e with Progress n => [n] | _ => [] end) evs.

(** The file names of the error lines that report a missing converter. *)
Definition not_found_errors (evs : list event) : list str :=
  flat_map (fun e => match e with
                     | Message (ErrorIn n (ConverterSaid MsgNotFound)) => [n]
                     | _ => []
                     end) evs.

(** [run] reaches line 285 for file [f] in world [w]: a tempo is read
    from the name, and the output is absent or may be overwritten. *)
Definition reaches_conversion {World} `{Collaborators World}
           (task : ConvertTask) (w : World) (f : Path) : bool :=
  match Bpm.guess_bpm_from_name (name f) with
  | None => false
  | Some bpm =>
      if (bpm =? 0)%Z then false
      else
        match resolve (Naming.safe_out_join f (out_dir task) (target_bpm task)
                                            (flat_names task) (suffix_label task)) w with
        | Raise _ => false
        | Ret outpath =>
            match path_exists outpath w with
            | Raise _ => false
            | Ret there => negb (there && negb (overwrite task))
            end
        end
  end.

(** One turn of the loop moved exactly one of the two counters, by one. *)
Definition one_count {World} (s s' : state World) : Prop :=
  (processed s' = processed s + 1 /\ skipped s' = skipped s)%Z \/
  (processed s' = processed s /\ skipped s' = skipped s + 1)%Z.

(** The indices [i, i+1, ...] that [enumerate(fs, start=i)] gives to [n]
    files. *)
Fixpoint indices (i : Z) (n : nat) : list Z :=
  match n with
  | O => []
  | S k => i :: indices (i + 1)%Z k
  end.

(** A computation that leaves the signals and the counters alone. *)
Definition quiet {World A} (c : M World A) : Prop :=
  forall s, events (snd (c s)) = events s /\
            processed (snd (c s)) = processed s /\
            skipped (snd (c s)) = skipped s.

(** What a turn of the [try] body leaves behind: when it returns, one
    counter moved by one and at least one line was logged; when it raises,
    no counter moved. *)
Definition body_post {World} (s : state World) (r : res unit * state World) : Prop :=
  match r with
  | (Ret _, s') =>
      one_count s s' /\
      exists msgs, msgs <> [] /\ events s' = events s ++ map Message msgs
  | (Raise _, s') =>
      processed s' = processed s /\ skipped s' = skipped s /\
      exists msgs, events s' = events s ++ map Message msgs
  end.

(** *** A world for examples: directories may be impossible to create,
    the converter may be missing, and conversion always succeeds. *)
Record fake_world : Type := {
  can_mkdir : bool;
  ffmpeg : option Path;
  existing : list str
}.

#[export] Instance fake_collaborators : Collaborators fake_world := {
  mkdir_parents := fun p w =>
    if can_mkdir w then (Ret tt, w)
    else (Raise (OSError "cannot create directory"), w);
  resolve := fun p w => Ret p;
  path_exists := fun p w => Ret (existsb (str_eqb (as_posix p)) (existing w));
  which_ffmpeg := fun w => Ret (ffmpeg w);
  check_output := fun c w =>
    (Completed, {| can_mkdir := can_mkdir w; ffmpeg := ffmpeg w;
                   existing := cmd_output c :: existing w |})
}.

(** Three files, the second without a tempo in its name. *)
Definition example_task : ConvertTask :=
  ConvertTask_init
    [of_str (py "/in/a_120.wav"); of_str (py "/in/silence.wav"); of_str (py "/in/b_90.wav")]
    100 (of_str (py "/out")) false true [].

(** Two files, each with a tempo in its name. *)
Definition two_file_task : ConvertTask :=
  ConvertTask_init
    [of_str (py "/in/a_120.wav"); of_str (py "/in/b_90.wav")]
    100 (of_str (py "/out")) false true [].

Definition world_ready : fake_world :=
  {| can_mkdir := true; ffmpeg := Some (of_str (py "/usr/bin/ffmpeg")); existing := [] |}.

Definition world_without_ffmpeg : fake_world :=
  {| can_mkdir := true; ffmpeg := None; existing := [] |}.

Definition world_readonly : fake_world :=
  {| can_mkdir := false; ffmpeg := Some (of_str (py "/usr/bin/ffmpeg")); existing := [] |}.

End Worker.

(** ** [list_audio_files] and [which_ffmpeg] (lines 18, 49-65, 74-126) *)

Module Discovery.
Import PyStr PathLib.

Definition rbind {A B} (r : res A) (k : A -> res B) : res B :=
  match r with
  | Ret a => k a
  | Raise e => Raise e
  end.

Definition VALID_EXTS : list str :=
  map py [".wav"; ".flac"; ".aiff"; ".aif"; ".ogg"; ".mp3"; ".m4a"]%string.

(** [p.suffix.lower() in VALID_EXTS] *)
Definition valid_ext (p : Path) : bool :=
  existsb (str_eqb (lower (suffix p))) VALID_EXTS.

(** Two paths are equal when their roots and their components are. *)
Definition Path_eq_dec (p q : Path) : {p = q} + {p <> q}.
Proof.
  decide equality; apply (list_eq_dec (list_eq_dec ascii_dec)) || apply (list_eq_dec ascii_dec).
Defined.

(** What [list_audio_files] asks of the file system.  [rglob] is a
    generator: it yields the entries of the first component and then, if
    the second component says so, raises. *)
Class FileSystem (World : Type) : Type := {
  (** [p.is_file()] *)
  is_file : Path -> World -> res bool;
  (** [p.is_dir()] *)
  is_dir : Path -> World -> res bool;
  (** [p.rglob("*")] *)
  rglob : Path -> World -> list Path * option exn;
  (** [p.resolve()] *)
  resolve : Path -> World -> res Path
}.

Section Listing.
Context {World : Type} `{FileSystem World}.
Variable w : World.

(** Lines 53-54 and 56-57: [if f.is_file() and f.suffix.lower() in
    VALID_EXTS: out.append(f.resolve())], with what to do otherwise. *)
Definition keep_audio (f : Path) (out : list Path)
           (otherwise : res (list Path)) : res (list Path) :=
  rbind (is_file f w) (fun file =>
    if file && valid_ext f
    then rbind (resolve f w) (fun r => Ret (out ++ [r]))
    else otherwise).

(** Lines 55-57: the loop over what [rglob] yields; [pending] is the
    exception the generator raises after its last entry. *)
Fixpoint walk (fs : list Path) (pending : option exn) (out : list Path) : res (list Path) :=
  match fs with
  | [] => match pending with Some e => Raise e | None => Ret out end
  | f :: rest => rbind (keep_audio f out (Ret out)) (walk rest pending)
  end.

(** Lines 51-57: one turn of the outer loop. *)
Definition visit (p : str) (out : list Path) : res (list Path) :=
  let pth := of_str p in
  keep_audio pth out
    (rbind (is_dir pth w) (fun dir =>
       if dir then let '(fs, pending) := rglob pth w in walk fs pending out
       else Ret out)).

(** Lines 50-57. *)
Fixpoint collect (paths : list str) (out : list Path) : res (list Path) :=
  match paths with
  | [] => Ret out
  | p :: rest => rbind (visit p out) (collect rest)
  end.

(** Lines 58-63: the loop that drops repetitions.  The set [seen] is
    only asked for membership; a list stands for it. *)
Fixpoint uniq_from (seen uniq out : list Path) : list Path :=
  match out with
  | [] => uniq
  | f :: rest =>
      if in_dec Path_eq_dec f seen then uniq_from seen uniq rest
      else uniq_from (f :: seen) (uniq ++ [f]) rest
  end.

Definition list_audio_files (paths : list str) : res (list Path) :=
  rbind (collect paths []) (fun out => Ret (uniq_from [] [] out)).

End Listing.

(** What [which_ffmpeg] asks of the interpreter and of the system.  With
    POSIX paths [os.name] is not [nt]: the file looked for is [ffmpeg]
    and the command that searches the PATH is [which]. *)
Class Install (World : Type) : Type := {
  (** [getattr(sys, "frozen", False)] *)
  frozen : World -> bool;
  (** [sys.executable] *)
  sys_executable : World -> str;
  (** [__file__] *)
  module_file : World -> str;
  (** [sys._MEIPASS], when PyInstaller has set it *)
  meipass : World -> option str;
  (** [p.exists()] *)
  path_exists : Path -> World -> res bool;
  (** [subprocess.check_output(["which", "ffmpeg"], stderr=subprocess.STDOUT, text=True)] *)
  which : World -> res str
}.

(** The characters at which [str.splitlines()] cuts. *)
Definition is_linebreak (c : ascii) : bool :=
  between 10 13 c || between 28 30 c || (code c =? 133)%N.

(** [s.splitlines()[0]] for a non-empty [s]. *)
Fixpoint first_line (s : str) : str :=
  match s with
  | [] => []
  | c :: s' => if is_linebreak c then [] else c :: first_line s'
  end.

Section Which.
Context {World : Type} `{Install World}.
Variable w : World.

(** [for cand in cands: if cand.exists(): return cand], with what comes
    after the loop. *)
Fixpoint first_existing (cands : list Path) (otherwise : res (option Path))
  : res (option Path) :=
  match cands with
  | [] => otherwise
  | cand :: rest =>
      rbind (path_exists cand w) (fun there =>
        if there then Ret (Some cand) else first_existing rest otherwise)
  end.

(** Line 84. *)
Definition exe_dir : Path :=
  if frozen w then parent (of_str (sys_executable w)) else parent (of_str (module_file w)).

(** Line 85. *)
Definition names : list str := [py "ffmpeg"].

(** Line 106. *)
Definition meipass_base : Path :=
  match meipass w with
  | Some m => of_str m
  | None => exe_dir
  end.

Definition sub (dir : Path) (n : str) : Path := joinpath dir (of_str n).

(** Lines 118-125. *)
Definition from_path : res (option Path) :=
  match which w with
  | Ret out =>
      match strip out with
      | [] => Ret None
      | out => Ret (Some (of_str (first_line out)))
      end
  | Raise _ => Ret None
  end.

(** [which_ffmpeg] *)
Definition which_ffmpeg : res (option Path) :=
  (* 1) junto al exe/script *)
  first_existing (map (fun n => sub exe_dir n) names)
  (* 2) ./ffmpeg/ *)
  (first_existing (map (fun n => sub (sub exe_dir (py "ffmpeg")) n) names)
  (* 3) ./assets/ *)
  (first_existing (map (fun n => sub (sub exe_dir (py "assets")) n) names)
  (* 4) _MEIPASS *)
  (first_existing
     (flat_map (fun n => [sub meipass_base n;
                          sub (sub meipass_base (py "ffmpeg")) n;
                          sub (sub meipass_base (py "assets")) n]) names)
  (* 5) PATH *)
  from_path))).

End Which.

(** *** A file tree and an installation for examples *)

(** The regular files by path, and the directories, each with all that
    lies below it. *)
Record fake_tree : Type := {
  tree_files : list str;
  tree_dirs : list (str * list str)
}.

#[export] Instance fake_file_system : FileSystem fake_tree := {
  is_file := fun p t => Ret (existsb (str_eqb (as_posix p)) (tree_files t));
  is_dir := fun p t => Ret (existsb (fun d => str_eqb (as_posix p) (fst d)) (tree_dirs t));
  rglob := fun p t =>
    (flat_map (fun d => if str_eqb (as_posix p) (fst d) then map of_str (snd d) else [])
              (tree_dirs t),
     None);
  resolve := fun p t => Ret p
}.

Definition example_tree : fake_tree :=
  {| tree_files := map py ["/m/a_120.wav"; "/m/sub/b_90.MP3"; "/m/notes.txt"]%string;
     tree_dirs :=
       [(py "/m",
         map py ["/m/a_120.wav"; "/m/sub"; "/m/sub/b_90.MP3"; "/m/notes.txt"]%string);
        (py "/m/sub", [py "/m/sub/b_90.MP3"])] |}.

Record fake_install : Type := {
  is_frozen : bool;
  executable : str;
  script : str;
  bundle : option str;
  present : list str;
  which_answer : res str
}.

#[export] Instance fake_install_env : Install fake_install := {
  frozen := is_frozen;
  sys_executable := executable;
  module_file := script;
  meipass := bundle;
  path_exists := fun p e => Ret (existsb (str_eqb (as_posix p)) (present e));
  which := which_answer
}.

(** A script run from [/app] with the converter in [/app/assets]. *)
Definition install_with_assets : fake_install :=
  {| is_frozen := false; executable := py "/usr/bin/python3"; script := py "/app/app.py";
     bundle := None; present := [py "/app/assets/ffmpeg"];
     which_answer := Ret (py "/usr/bin/ffmpeg" ++ ["010"%char]) |}.

(** The same with the converter on the PATH only. *)
Definition install_on_path : fake_install :=
  {| is_frozen := false; executable := py "/usr/bin/python3"; script := py "/app/app.py";
     bundle := None; present := [];
     which_answer := Ret (py "/usr/bin/ffmpeg" ++ ["010"%char]) |}.

(** No converter anywhere: [which] exits with status 1. *)
Definition install_without : fake_install :=
  {| is_frozen := false; executable := py "/usr/bin/python3"; script := py "/app/app.py";
     bundle := None; present := [];
     which_answer := Raise (OSError "Command returned non-zero exit status 1") |}.

End Discovery.

(** ** Further vocabulary of the statements *)

Module Vocabulary.
Import PyStr PathLib.

(** [g] is a piece of [s] made of two or three digits. *)
Definition digit_piece (s g : str) : Prop :=
  exists pre post,
    s = pre ++ g ++ post /\
    Forall (fun c => is_digit c = true) g /\
    (length g = 2 \/ length g = 3)%nat.

(** The lines that tell the outcome of a file: saved, no tempo, output
    already there, or an error. *)
Definition outcomes (evs : list Worker.event) : list Worker.log_line :=
  flat_map (fun e => match e with
                     | Worker.Message (Worker.Saved n) => [Worker.Saved n]
                     | Worker.Message (Worker.NoBpmDetected n) => [Worker.NoBpmDetected n]
                     | Worker.Message (Worker.OutputExists n) => [Worker.OutputExists n]
                     | Worker.Message (Worker.ErrorIn n d) => [Worker.ErrorIn n d]
                     | _ => []
                     end) evs.

Definition is_saved (l : Worker.log_line) : bool :=
  match l with
  | Worker.Saved _ => true
  | _ => false
  end.

(** The file names of the lines that report a name without a tempo. *)
Definition no_bpm_names (evs : list Worker.event) : list str :=
  flat_map (fun e => match e with
                     | Worker.Message (Worker.NoBpmDetected n) => [n]
                     | _ => []
                     end) evs.

(** A file in whose name no tempo is found. *)
Definition no_tempo (f : Path) : bool :=
  match Bpm.guess_bpm_from_name (name f) with
  | None => true
  | Some _ => false
  end.

(** What the process answered, as [convert_with_ffmpeg] returns it
    (lines 170-177). *)
Definition report (r : Worker.proc_result) : bool * Worker.convert_msg :=
  match r with
  | Worker.Completed => (true, Worker.MsgOk)
  | Worker.CalledProcessError output => (false, Worker.MsgFfmpegError output)
  | Worker.OtherError e => (false, Worker.MsgException e)
  end.

(** [f] is a regular file with an accepted extension, and [q] is what it
    resolves to. *)
Definition accepted {World} `{Discovery.FileSystem World} (w : World) (f q : Path) : Prop :=
  Discovery.is_file f w = Ret true /\
  Discovery.valid_ext f = true /\
  Discovery.resolve f w = Ret q.

(** [f] is what the argument [p] of [list_audio_files] makes the
    function look at: the path [p] itself, or, when that is no accepted
    file but a directory, something below it. *)
Definition found_under {World} `{Discovery.FileSystem World}
           (w : World) (p : str) (f : Path) : Prop :=
  f = of_str p \/
  (~ (Discovery.is_file (of_str p) w = Ret true /\ Discovery.valid_ext (of_str p) = true) /\
   Discovery.is_dir (of_str p) w = Ret true /\
   In f (fst (Discovery.rglob (of_str p) w))).

(** The six places [which_ffmpeg] looks at before the PATH, in order. *)
Definition ffmpeg_places {World} `{Discovery.Install World} (w : World) : list Path :=
  let d := Discovery.exe_dir w in
  let b := Discovery.meipass_base w in
  [Discovery.sub d (py "ffmpeg");
   Discovery.sub (Discovery.sub d (py "ffmpeg")) (py "ffmpeg");
   Discovery.sub (Discovery.sub d (py "assets")) (py "ffmpeg");
   Discovery.sub b (py "ffmpeg");
   Discovery.sub (Discovery.sub b (py "ffmpeg")) (py "ffmpeg");
   Discovery.sub (Discovery.sub b (py "assets")) (py "ffmpeg")].

End Vocabulary.

(** * Facts about [atempo_chain] *)

Module TempoFacts.
Import Tempo.
Local Open Scope Q_scope.

Lemma Qltb_lt x y : Qltb x y = true <-> x < y.
Proof.
  unfold Qltb. rewrite negb_true_iff.
  destruct (Qle_bool y x) eqn:E.
  - apply Qle_bool_iff in E. split; [discriminate|].
    intro H. exfalso. apply (Qlt_not_le _ _ H E).
  - split; [|reflexivity]. intros _.
    apply Qnot_le_lt. intro H. apply Qle_bool_iff in H. congruence.
Qed.

Lemma Qltb_ge x y : Qltb x y = false <-> y <= x.
Proof.
  unfold Qltb. rewrite negb_false_iff. apply Qle_bool_iff.
Qed.

Lemma chain_product_app fs gs :
  chain_product (fs ++ gs) == chain_product fs * chain_product gs.
Proof.
  unfold chain_product. induction fs as [|f fs IH]; simpl.
  - ring.
  - rewrite IH. ring.
Qed.

Lemma chain_product_repeat_pos c k : 0 < c -> 0 < chain_product (repeat c k).
Proof.
  intros Hc. induction k as [|k IH]; simpl.
  - reflexivity.
  - unfold chain_product in *. simpl. apply Qmult_lt_0_compat; assumption.
Qed.

Lemma chain_product_repeat_le1 c k : 0 < c -> c <= 1 -> chain_product (repeat c k) <= 1.
Proof.
  intros Hc Hc1. induction k as [|k IH].
  - simpl. unfold chain_product. simpl. apply Qle_refl.
  - unfold chain_product in *. simpl.
    apply Qle_trans with (1 * fold_right Qmult 1 (repeat c k)).
    + apply Qmult_le_compat_r; [assumption|].
      apply Qlt_le_weak. apply (chain_product_repeat_pos c k Hc).
    + rewrite Qmult_1_l. exact IH.
Qed.

Lemma repeat_snoc {A} (c : A) k : repeat c k ++ [c] = repeat c (S k).
Proof.
  induction k as [|k IH]; simpl; [reflexivity|]. now rewrite IH.
Qed.

Lemma pow2_succ fuel :
  (2 ^ (Z.of_nat (S fuel) + 1) = 2 * 2 ^ (Z.of_nat fuel + 1))%Z.
Proof.
  replace (Z.of_nat (S fuel) + 1)%Z with (Z.succ (Z.of_nat fuel + 1)) by lia.
  apply Z.pow_succ_r. lia.
Qed.

Lemma Qnum_Qden_half r :
  Qnum (r / 2) = (Qnum r * 1)%Z /\ Qden (r / 2) = (Qden r * 2)%positive.
Proof. destruct r; split; reflexivity. Qed.

Lemma Qnum_Qden_double r :
  Qnum (r / (1#2)) = (Qnum r * 2)%Z /\ Qden (r / (1#2)) = (Qden r * 1)%positive.
Proof. destruct r; split; reflexivity. Qed.

(** *** The first loop leaves by its test *)

Lemma while_gt_exit fuel : forall fs r,
  0 < r ->
  (Qnum r <= 2 ^ (Z.of_nat fuel + 1) * Zpos (Qden r))%Z ->
  exists k r',
    while_gt fuel fs r = (fs ++ repeat 2 k, r') /\
    r' <= 2 /\ 0 < r' /\
    r == chain_product (repeat 2 k) * r' /\
    (k <> O -> 2 < r /\ 1 < r') /\
    (k = O -> r' = r).
Proof.
  induction fuel as [|fuel IH]; intros fs r Hr Hb.
  - exists O, r. simpl. rewrite app_nil_r.
    repeat split; try assumption; try congruence.
    + unfold Qle. simpl. simpl in Hb. lia.
    + unfold chain_product. simpl. ring.
  - simpl. destruct (Qltb 2 r) eqn:E.
    + apply Qltb_lt in E.
      assert (Hr2 : 0 < r / 2).
      { apply Qlt_shift_div_l; [reflexivity|]. ring_simplify. exact Hr. }
      destruct (IH (fs ++ [2]) (r / 2) Hr2) as (k & r' & Hw & Hle & Hpos & Heq & Hk & Hk0).
      { rewrite pow2_succ in Hb. destruct (Qnum_Qden_half r) as [-> ->].
        rewrite Pos2Z.inj_mul. lia. }
      exists (S k), r'. rewrite Hw, <- app_assoc. simpl.
      assert (H1 : 1 < r').
      { destruct k as [|k].
        - rewrite (Hk0 eq_refl).
          apply Qlt_shift_div_l; [reflexivity|]. ring_simplify. exact E.
        - apply Hk. discriminate. }
      repeat split; try assumption; try congruence.
      unfold chain_product in *. simpl.
      rewrite <- Qmult_assoc, <- Heq. field.
    + apply Qltb_ge in E. exists O, r. simpl. rewrite app_nil_r.
      repeat split; try assumption; try congruence.
      unfold chain_product. simpl. ring.
Qed.

Lemma size_nat_gt p : (Zpos p < 2 ^ Z.of_nat (Pos.size_nat p))%Z.
Proof.
  induction p as [p IH|p IH|]; cbn [Pos.size_nat].
  - rewrite Nat2Z.inj_succ, Z.pow_succ_r by lia. lia.
  - rewrite Nat2Z.inj_succ, Z.pow_succ_r by lia. lia.
  - reflexivity.
Qed.

Lemma fuel_gt_enough r : 0 < r ->
  (Qnum r <= 2 ^ (Z.of_nat (fuel_gt r) + 1) * Zpos (Qden r))%Z.
Proof.
  intros Hr. destruct r as [n d]. unfold fuel_gt. simpl.
  assert (Hn : (0 < n)%Z).
  { unfold Qlt in Hr. simpl in Hr. lia. }
  destruct n as [|p|p]; try lia. simpl.
  pose proof (size_nat_gt p) as Hp.
  rewrite Z.pow_add_r by lia. nia.
Qed.

Lemma fuel_lt_enough r : 0 < r ->
  (Zpos (Qden r) <= 2 ^ (Z.of_nat (fuel_lt r) + 1) * Qnum r)%Z.
Proof.
  intros Hr. destruct r as [n d]. unfold fuel_lt. simpl.
  assert (Hn : (0 < n)%Z).
  { unfold Qlt in Hr. simpl in Hr. lia. }
  pose proof (size_nat_gt d) as Hp.
  rewrite Z.pow_add_r by lia. nia.
Qed.

(** *** The second loop leaves by its test *)

Lemma while_lt_exit fuel : forall fs r,
  0 < r ->
  (Zpos (Qden r) <= 2 ^ (Z.of_nat fuel + 1) * Qnum r)%Z ->
  exists k r',
    while_lt fuel fs r = (fs ++ repeat (1#2) k, r') /\
    (1#2) <= r' /\ 0 < r' /\
    r == chain_product (repeat (1#2) k) * r' /\
    (k <> O -> r < (1#2) /\ r' < 1) /\
    (k = O -> r' = r).
Proof.
  induction fuel as [|fuel IH]; intros fs r Hr Hb.
  - exists O, r. simpl. rewrite app_nil_r.
    repeat split; try assumption; try congruence.
    + unfold Qle. change (2 ^ (Z.of_nat 0 + 1))%Z with 2%Z in Hb. simpl. lia.
    + unfold chain_product. simpl. ring.
  - simpl. destruct (Qltb r (1#2)) eqn:E.
    + apply Qltb_lt in E.
      assert (Hr2 : 0 < r / (1#2)).
      { destruct r as [n d]. unfold Qlt in *. simpl in *. lia. }
      destruct (IH (fs ++ [1#2]) (r / (1#2)) Hr2) as (k & r' & Hw & Hle & Hpos & Heq & Hk & Hk0).
      { rewrite pow2_succ in Hb. destruct (Qnum_Qden_double r) as [-> ->].
        rewrite Pos2Z.inj_mul. lia. }
      exists (S k), r'. rewrite Hw, <- app_assoc. simpl.
      assert (H1 : r' < 1).
      { destruct k as [|k].
        - rewrite (Hk0 eq_refl).
          destruct r as [n d]. unfold Qlt in *. simpl in *. lia.
        - apply Hk. discriminate. }
      repeat split; try assumption; try congruence.
      unfold chain_product in *. simpl.
      rewrite <- Qmult_assoc, <- Heq. field.
    + apply Qltb_ge in E. exists O, r. simpl. rewrite app_nil_r.
      repeat split; try assumption; try congruence.
      unfold chain_product. simpl. ring.
Qed.

(** *** Shape of the chain *)

Lemma atempo_chain_shape ratio :
  0 < ratio ->
  exists k1 k2 r,
    atempo_chain ratio = Ret (finish (repeat 2 k1 ++ repeat (1#2) k2) r) /\
    (k1 = O \/ k2 = O) /\
    (1#2) <= r /\ r <= 2 /\
    ratio == chain_product (repeat 2 k1 ++ repeat (1#2) k2) * r /\
    (k1 <> O -> 2 < ratio /\ 1 < r) /\
    (k2 <> O -> ratio < (1#2) /\ r < 1) /\
    (k1 = O -> k2 = O -> r = ratio).
Proof.
  intros Hr. unfold atempo_chain.
  replace (Qle_bool ratio 0) with false.
  2:{ symmetry. apply not_true_is_false. intro H. apply Qle_bool_iff in H.
      apply (Qlt_not_le _ _ Hr H). }
  destruct (while_gt_exit (fuel_gt ratio) [] ratio Hr (fuel_gt_enough ratio Hr))
    as (k1 & r1 & Hw1 & Hle1 & Hpos1 & Heq1 & Hk1 & Hk10).
  rewrite Hw1. cbv beta iota zeta. change ([] ++ repeat 2 k1) with (repeat 2 k1).
  destruct (while_lt_exit (fuel_lt r1) (repeat 2 k1) r1 Hpos1 (fuel_lt_enough r1 Hpos1))
    as (k2 & r2 & Hw2 & Hle2 & Hpos2 & Heq2 & Hk2 & Hk20).
  rewrite Hw2. cbv beta iota zeta.
  exists k1, k2, r2. split; [reflexivity|].
  assert (Hone : k1 = O \/ k2 = O).
  { destruct k1 as [|k1]; [now left|right].
    destruct k2 as [|k2]; [reflexivity|exfalso].
    destruct Hk1 as [_ H1]; [discriminate|].
    destruct Hk2 as [H2 _]; [discriminate|].
    apply (Qlt_irrefl r1). apply Qlt_trans with (1#2); [exact H2|].
    apply Qlt_trans with 1; [reflexivity|exact H1]. }
  split; [exact Hone|]. split; [exact Hle2|].
  assert (Hr2 : r2 <= 2).
  { destruct k2 as [|k2].
    - rewrite (Hk20 eq_refl). exact Hle1.
    - destruct Hk2 as [_ H]; [discriminate|].
      apply Qlt_le_weak. apply Qlt_trans with 1; [exact H|reflexivity]. }
  split; [exact Hr2|]. split.
  { rewrite chain_product_app, <- Qmult_assoc, <- Heq2. exact Heq1. }
  split; [|split].
  - intro Hk. destruct (Hk1 Hk) as [H2 H1]. split; [exact H2|].
    destruct Hone as [ -> | -> ]; [congruence|]. now rewrite (Hk20 eq_refl).
  - intro Hk. destruct (Hk2 Hk) as [H2 H1]. split; [|exact H1].
    destruct Hone as [ -> | -> ]; [|congruence]. now rewrite <- (Hk10 eq_refl).
  - intros -> ->. now rewrite (Hk20 eq_refl), (Hk10 eq_refl).
Qed.

Lemma body_pos k1 k2 : 0 < chain_product (repeat 2 k1 ++ repeat (1#2) k2).
Proof.
  rewrite chain_product_app.
  apply Qmult_lt_0_compat; apply chain_product_repeat_pos; reflexivity.
Qed.

Lemma finish_cases body r :
  (Qltb tol (Qabs (r - 1)) = true /\ finish body r = body ++ [r]) \/
  (Qltb tol (Qabs (r - 1)) = false /\
   ((body = [] /\ finish body r = [1]) \/ (body <> [] /\ finish body r = body))).
Proof.
  unfold finish. destruct (Qltb tol (Qabs (r - 1))).
  - left. split; [reflexivity|]. destruct body; reflexivity.
  - right. split; [reflexivity|]. destruct body; [left|right]; split; congruence.
Qed.

Lemma finish_product body r :
  (Qltb tol (Qabs (r - 1)) = true /\
   chain_product (finish body r) == chain_product body * r) \/
  (Qabs (r - 1) <= tol /\
   chain_product (finish body r) == chain_product body).
Proof.
  destruct (finish_cases body r) as [[E ->]|[E [[-> ->]|[_ ->]]]].
  - left. split; [exact E|]. rewrite chain_product_app.
    unfold chain_product. simpl. ring.
  - right. apply Qltb_ge in E. split; [exact E|]. reflexivity.
  - right. apply Qltb_ge in E. split; [exact E|]. reflexivity.
Qed.

Lemma Forall_repeat {A} (P : A -> Prop) c k : P c -> Forall P (repeat c k).
Proof. intros H. induction k; simpl; constructor; assumption. Qed.

Lemma finish_in_range k1 k2 r :
  (1#2) <= r -> r <= 2 ->
  Forall in_stage_range (finish (repeat 2 k1 ++ repeat (1#2) k2) r).
Proof.
  intros Hlo Hhi.
  assert (Hb : Forall in_stage_range (repeat 2 k1 ++ repeat (1#2) k2)).
  { apply Forall_app. split; apply Forall_repeat; split; discriminate. }
  destruct (finish_cases (repeat 2 k1 ++ repeat (1#2) k2) r)
    as [[_ ->]|[_ [[_ ->]|[_ ->]]]].
  - apply Forall_app. split; [exact Hb|]. constructor; [split; assumption|constructor].
  - constructor; [split; discriminate|constructor].
  - exact Hb.
Qed.

Lemma finish_nonempty body r : finish body r <> [].
Proof.
  destruct (finish_cases body r) as [[_ ->]|[_ [[_ ->]|[H ->]]]].
  - destruct body; discriminate.
  - discriminate.
  - exact H.
Qed.

(** *** Error of a chain whose remainder stage was dropped *)

Lemma dropped_error P r :
  0 < P -> Qabs (r - 1) <= tol -> Qabs (P - P * r) <= tol * P.
Proof.
  intros HP Hr.
  setoid_replace (P - P * r) with (P * - (r - 1)) by ring.
  rewrite Qabs_Qmult, Qabs_opp, (Qabs_pos P) by (apply Qlt_le_weak, HP).
  rewrite (Qmult_comm tol P).
  apply Qmult_le_l; assumption.
Qed.

Lemma exact_error P r ratio x :
  0 <= x -> ratio == P * r -> Qabs (P * r - ratio) <= x.
Proof.
  intros Hx ->. setoid_replace (P * r - P * r) with 0 by ring. exact Hx.
Qed.

Lemma chain_product_pow2 k : chain_product (repeat 2 k) == inject_Z (2 ^ Z.of_nat k).
Proof.
  induction k as [|k IH].
  - reflexivity.
  - rewrite Nat2Z.inj_succ, Z.pow_succ_r by lia.
    rewrite inject_Z_mult, <- IH. reflexivity.
Qed.

Lemma ratio_of_pos t s : (0 < s)%Z -> (0 < t)%Z -> 0 < ratio_of t s.
Proof.
  intros Hs Ht. unfold ratio_of. apply Qlt_shift_div_l.
  - unfold Qlt. simpl. lia.
  - unfold Qlt. simpl. lia.
Qed.

(** A ratio within [1e-6] of [1.0] goes through neither loop. *)
Lemma near_one_no_stage ratio k1 k2 :
  Qabs (ratio - 1) <= tol ->
  (k1 <> O -> 2 < ratio) -> (k2 <> O -> ratio < (1#2)) ->
  k1 = O /\ k2 = O.
Proof.
  intros Hnear Hk1 Hk2.
  apply Qabs_Qle_condition in Hnear. destruct Hnear as [Hn1 Hn2].
  split.
  - destruct k1; [reflexivity|exfalso].
    apply (Qlt_irrefl 2). apply Qlt_le_trans with ratio; [apply Hk1; discriminate|].
    apply Qle_trans with (1 + tol); [|discriminate].
    apply Qplus_le_l with (- (1)). ring_simplify.
    ring_simplify in Hn2. exact Hn2.
  - destruct k2; [reflexivity|exfalso].
    apply (Qlt_irrefl (1#2)). apply Qle_lt_trans with ratio; [|apply Hk2; discriminate].
    apply Qle_trans with (1 - tol); [discriminate|].
    apply Qplus_le_l with (- (1)). ring_simplify.
    ring_simplify in Hn1. exact Hn1.
Qed.

(** C1, as the code has it.  The statement is about the float [ratio]
    that [atempo_chain] is given and about the list of factors it builds
    (lines 133-146), before line 147 prints each factor with six
    decimals.  A finite float is a rational, and on a float the loops and
    the test of line 143 compute what the model computes; so the
    statement, which holds for every rational above zero, holds for every
    finite float above zero.  The list is returned (no raise), is
    non-empty, has every factor in [0.5, 2.0], and its product [p]
    satisfies [|p - ratio| <= 1e-6 * p].  The absolute bound
    [|p - ratio| <= 1e-6] holds whenever the ratio is at most [2.0].  A
    ratio within [1e-6] of [1.0] gives exactly [[1.0]]. *)
Theorem atempo_chain_plan (ratio : Q) :
  0 < ratio ->
  exists fs,
    atempo_chain ratio = Ret fs /\
    fs <> [] /\
    Forall in_stage_range fs /\
    Qabs (chain_product fs - ratio) <= tol * chain_product fs /\
    (ratio <= 2 -> Qabs (chain_product fs - ratio) <= tol) /\
    (Qabs (ratio - 1) <= tol -> fs = [1]).
Proof.
  intros Hpos.
  destruct (atempo_chain_shape _ Hpos)
    as (k1 & k2 & r & Hret & Hone & Hlo & Hhi & Heq & Hk1 & Hk2 & Hk0).
  set (body := repeat 2 k1 ++ repeat (1#2) k2) in *.
  exists (finish body r). split; [exact Hret|].
  split; [apply finish_nonempty|].
  split; [apply finish_in_range; assumption|].
  pose proof (body_pos k1 k2) as HP. fold body in HP.
  assert (Hnone : Qabs (ratio - 1) <= tol -> k1 = O /\ k2 = O).
  { intros Hnear. apply (near_one_no_stage ratio); [exact Hnear| |].
    - intros Hk. now apply Hk1.
    - intros Hk. now apply Hk2. }
  destruct (finish_product body r) as [[E Hp]|[E Hp]].
  - (* the remainder is a stage: the product is the ratio *)
    split; [|split].
    + rewrite Hp. apply exact_error; [|exact Heq].
      apply Qmult_le_0_compat; [discriminate|].
      apply Qlt_le_weak. rewrite <- Heq. exact Hpos.
    + intros _. rewrite Hp. apply exact_error; [discriminate|exact Heq].
    + intros Hnear. exfalso.
      destruct (Hnone Hnear) as [Hz1 Hz2].
      assert (Hr : r = ratio) by (now apply Hk0).
      apply Qltb_lt in E. rewrite Hr in E.
      apply (Qlt_not_le _ _ E Hnear).
  - (* the remainder is dropped *)
    assert (Hrel : Qabs (chain_product (finish body r) - ratio)
                   <= tol * chain_product (finish body r)).
    { rewrite Hp, Heq. apply dropped_error; assumption. }
    split; [exact Hrel|]. split.
    + intros Hcase.
      destruct k1 as [|k1].
      * (* no 2.0 stage: the product is at most 1 *)
        apply Qle_trans with (tol * chain_product (finish body r)); [exact Hrel|].
        rewrite Hp. unfold body. simpl repeat. simpl app.
        setoid_replace tol with (tol * 1) at 2 by ring.
        apply Qmult_le_l; [reflexivity|].
        apply chain_product_repeat_le1; [reflexivity|discriminate].
      * exfalso. destruct Hk1 as [H2 H1]; [discriminate|].
        apply (Qlt_not_le _ _ H2 Hcase).
    + intros Hnear.
      destruct (Hnone Hnear) as [Hz1 Hz2].
      destruct (finish_cases body r) as [[E' _]|[_ [[_ Hf]|[Hb _]]]].
      * exfalso. apply Qltb_lt in E'. apply (Qlt_not_le _ _ E' E).
      * exact Hf.
      * exfalso. apply Hb. unfold body. now rewrite Hz1, Hz2.
Qed.

(** C1, as the spec states it, fails: from source BPM 1 to target BPM
    1048577 the ratio is the float [1048577.0] and the list is twenty
    factors [2.0]; the remainder [1 + 2^-20] is within [1e-6] of [1.0]
    and is dropped, so the product is 1048576, one whole unit away from
    the ratio. *)
Lemma atempo_chain_product_off :
  ratio_of 1048577 1 == inject_Z 1048577 /\
  atempo_chain (inject_Z 1048577) = Ret (repeat 2 20) /\
  chain_product (repeat 2 20) == 1048576 # 1 /\
  ~ Qabs (chain_product (repeat 2 20) - inject_Z 1048577) <= tol.
Proof.
  split; [vm_compute; reflexivity|].
  split; [vm_compute; reflexivity|]. split; [vm_compute; reflexivity|].
  vm_compute. intro H. apply H. reflexivity.
Qed.

Lemma atempo_chain_plan_witness :
  exists fs,
    atempo_chain (11 # 2) = Ret fs /\
    fs <> [] /\
    Forall in_stage_range fs /\
    Qabs (chain_product fs - (11 # 2)) <= tol * chain_product fs /\
    (11 # 2 <= 2 -> Qabs (chain_product fs - (11 # 2)) <= tol) /\
    (Qabs ((11 # 2) - 1) <= tol -> fs = [1]).
Proof. apply (atempo_chain_plan (11 # 2)). reflexivity. Defined.

(** *** One-sidedness *)

Lemma Exists_repeat_app (c d : Q) k rem :
  Exists (Qeq c) (repeat d k ++ rem) -> (k <> O /\ c == d) \/ Exists (Qeq c) rem.
Proof.
  induction k as [|k IH]; simpl; intros H.
  - now right.
  - inversion H; subst.
    + left. split; [discriminate|assumption].
    + destruct (IH H1) as [[_ E]|E]; [left; split; [discriminate|exact E]|now right].
Qed.

(** C9.  For every ratio above zero the chain is a run of [k] bounding
    stages followed by at most one remainder stage: the run is all [2.0]
    when the ratio exceeds [2.0], all [0.5] when it is below [0.5], and
    empty otherwise; no chain holds both a [2.0] and a [0.5] stage. *)
Theorem atempo_chain_one_sided (ratio : Q) :
  0 < ratio ->
  exists fs,
    atempo_chain ratio = Ret fs /\
    ~ (Exists (Qeq 2) fs /\ Exists (Qeq (1#2)) fs) /\
    exists k (rem : list Q),
      (length rem <= 1)%nat /\
      ((2 < ratio /\ k <> O /\ fs = repeat 2 k ++ rem) \/
       (ratio < (1#2) /\ k <> O /\ fs = repeat (1#2) k ++ rem) \/
       ((1#2) <= ratio /\ ratio <= 2 /\ k = O /\ fs = rem)).
Proof.
  intros Hpos.
  destruct (atempo_chain_shape _ Hpos)
    as (k1 & k2 & r & Hret & Hone & Hlo & Hhi & Heq & Hk1 & Hk2 & Hk0).
  exists (finish (repeat 2 k1 ++ repeat (1#2) k2) r). split; [exact Hret|].
  destruct k1 as [|k1]; [destruct k2 as [|k2]|].
  - (* no bounding stage *)
    rewrite (Hk0 eq_refl eq_refl) in *. simpl repeat. simpl app.
    assert (Hsingle : exists x, finish [] ratio = [x]).
    { destruct (finish_cases [] ratio) as [[_ ->]|[_ [[_ ->]|[H _]]]];
        [now exists ratio|now exists 1|congruence]. }
    destruct Hsingle as [x Hx]. rewrite Hx. split.
    + intros [H2 H5]. inversion H2 as [? ? E2|? ? E2]; [|inversion E2].
      inversion H5 as [? ? E5|? ? E5]; [|inversion E5].
      rewrite <- E2 in E5. discriminate.
    + exists O, [x]. split; [simpl; lia|]. right. right. now repeat split.
  - (* a run of 0.5 *)
    destruct Hk2 as [Hr Hr1]; [discriminate|].
    change (repeat 2 0 ++ repeat (1#2) (S k2)) with (repeat (1#2) (S k2)).
    assert (Hshape : exists rem, finish (repeat (1#2) (S k2)) r = repeat (1#2) (S k2) ++ rem
                                 /\ (length rem <= 1)%nat /\ Forall (fun x => x < 1) rem).
    { destruct (finish_cases (repeat (1#2) (S k2)) r) as [[_ ->]|[_ [[H _]|[_ ->]]]].
      - exists [r]. repeat split; [simpl; lia|]. constructor; [exact Hr1|constructor].
      - discriminate.
      - exists []. rewrite app_nil_r. repeat split; [simpl; lia|constructor]. }
    destruct Hshape as (rem & -> & Hlen & Hrem). split.
    + intros [H2 _]. apply Exists_repeat_app in H2. destruct H2 as [[_ E]|E]; [discriminate|].
      apply Exists_exists in E. destruct E as (x & Hin & Ex).
      rewrite Forall_forall in Hrem. specialize (Hrem x Hin).
      rewrite <- Ex in Hrem. discriminate.
    + exists (S k2), rem. split; [exact Hlen|]. right. left. now repeat split.
  - (* a run of 2.0 *)
    destruct Hk1 as [Hr Hr1]; [discriminate|].
    destruct Hone as [Hz|Hz]; [discriminate|]. subst k2. rewrite app_nil_r.
    assert (Hshape : exists rem, finish (repeat 2 (S k1)) r = repeat 2 (S k1) ++ rem
                                 /\ (length rem <= 1)%nat /\ Forall (fun x => 1 < x) rem).
    { destruct (finish_cases (repeat 2 (S k1)) r) as [[_ ->]|[_ [[H _]|[_ ->]]]].
      - exists [r]. repeat split; [simpl; lia|]. constructor; [exact Hr1|constructor].
      - discriminate.
      - exists []. rewrite app_nil_r. repeat split; [simpl; lia|constructor]. }
    destruct Hshape as (rem & -> & Hlen & Hrem). split.
    + intros [_ H5]. apply Exists_repeat_app in H5. destruct H5 as [[_ E]|E]; [discriminate|].
      apply Exists_exists in E. destruct E as (x & Hin & Ex).
      rewrite Forall_forall in Hrem. specialize (Hrem x Hin).
      rewrite <- Ex in Hrem. discriminate.
    + exists (S k1), rem. split; [exact Hlen|]. left. now repeat split.
Qed.

Lemma atempo_chain_one_sided_witness :
  exists fs,
    atempo_chain (22 # 5) = Ret fs /\
    ~ (Exists (Qeq 2) fs /\ Exists (Qeq (1#2)) fs) /\
    exists k (rem : list Q),
      (length rem <= 1)%nat /\
      ((2 < 22 # 5 /\ k <> O /\ fs = repeat 2 k ++ rem) \/
       (22 # 5 < (1#2) /\ k <> O /\ fs = repeat (1#2) k ++ rem) \/
       ((1#2) <= 22 # 5 /\ 22 # 5 <= 2 /\ k = O /\ fs = rem)).
Proof. apply (atempo_chain_one_sided (22 # 5)). reflexivity. Defined.

(** Two ratios that are floats as they stand: [planRatio(100, 100)] of
    the spec, and 220 over 40. *)
Example atempo_chain_identity : atempo_chain (ratio_of 100 100) = Ret [1].
Proof. reflexivity. Qed.

Example atempo_chain_40_220 :
  exists r, atempo_chain (ratio_of 220 40) = Ret [2; 2; r] /\ r == 11 # 8.
Proof. eexists. split; [vm_compute; reflexivity|reflexivity]. Qed.

End TempoFacts.

(** * Facts about [guess_bpm_from_name] *)

Module BpmFacts.
Import PyStr PathLib Bpm.
Local Open Scope Z_scope.

(** *** The stable sort *)

Lemma key_leb_spec a b :
  key_leb a b = true <-> fst a < fst b \/ (fst a = fst b /\ snd a <= snd b).
Proof.
  unfold key_leb. rewrite orb_true_iff, andb_true_iff.
  rewrite Z.ltb_lt, Z.eqb_eq, Z.leb_le. reflexivity.
Qed.

Lemma key_leb_total a b : key_leb a b = false -> key_leb b a = true.
Proof.
  intros H. apply key_leb_spec.
  destruct (key_leb a b) eqn:E; [discriminate|].
  assert (N : ~ (fst a < fst b \/ (fst a = fst b /\ snd a <= snd b))).
  { intro C. apply key_leb_spec in C. congruence. }
  lia.
Qed.

Lemma key_leb_trans a b c : key_leb a b = true -> key_leb b c = true -> key_leb a c = true.
Proof. rewrite !key_leb_spec. lia. Qed.

Lemma key_leb_refl a : key_leb a a = true.
Proof. apply key_leb_spec. lia. Qed.

Section Sorting.
Context {A : Type} (key : A -> Z * Z).

Lemma insert_by_In x l z : In z (insert_by key x l) <-> z = x \/ In z l.
Proof.
  induction l as [|y l IH]; simpl.
  - intuition congruence.
  - destruct (key_leb (key x) (key y)); simpl; [intuition congruence|].
    rewrite IH. intuition congruence.
Qed.

Lemma sort_by_In l z : In z (sort_by key l) <-> In z l.
Proof.
  induction l as [|x l IH]; simpl; [reflexivity|].
  rewrite insert_by_In, IH. intuition congruence.
Qed.

Lemma insert_by_sorted x l :
  StronglySorted (key_le key) l -> StronglySorted (key_le key) (insert_by key x l).
Proof.
  induction l as [|y l IH]; intros Hs; simpl.
  - constructor; constructor.
  - inversion Hs as [|? ? Hl Hy]; subst.
    destruct (key_leb (key x) (key y)) eqn:E.
    + constructor; [exact Hs|]. constructor; [exact E|].
      rewrite Forall_forall in *. intros z Hz.
      apply key_leb_trans with (key y); [exact E|apply Hy, Hz].
    + constructor; [apply IH, Hl|].
      rewrite Forall_forall in *. intros z Hz.
      apply insert_by_In in Hz. destruct Hz as [->|Hz].
      * apply key_leb_total, E.
      * apply Hy, Hz.
Qed.

Lemma sort_by_sorted l : StronglySorted (key_le key) (sort_by key l).
Proof.
  induction l as [|x l IH]; simpl; [constructor|].
  apply insert_by_sorted, IH.
Qed.

Lemma last_In (l : list A) d : l <> [] -> In (last l d) l.
Proof.
  revert d. induction l as [|x l IH]; intros d H; [congruence|].
  destruct l as [|y l]; [now left|].
  right. apply IH. discriminate.
Qed.

Lemma sorted_last_max l d :
  StronglySorted (key_le key) l ->
  forall x, In x l -> key_le key x (last l d).
Proof.
  induction l as [|y l IH]; intros Hs x Hx; [destruct Hx|].
  inversion Hs as [|? ? Hl Hy]; subst.
  destruct l as [|z l].
  - destruct Hx as [->|[]]. apply key_leb_refl.
  - change (last (y :: z :: l) d) with (last (z :: l) d).
    destruct Hx as [->|Hx].
    + rewrite Forall_forall in Hy. apply Hy. apply last_In. discriminate.
    + apply IH; assumption.
Qed.

End Sorting.

(** *** Groups of two or three digits *)



Lemma digits_2_3_sound s g :
  Re.digits_2_3 s = Some g ->
  exists post,
    s = g ++ post /\
    Forall (fun c => is_digit c = true) g /\
    (length g = 2 \/ length g = 3)%nat /\
    no_digit_head post.
Proof.
  unfold Re.digits_2_3.
  destruct s as [|d1 [|d2 rest]]; try discriminate.
  destruct (is_digit d1) eqn:H1; [|discriminate].
  destruct (is_digit d2) eqn:H2; [|discriminate]. simpl.
  destruct rest as [|d3 rest'].
  - intros [= <-]. exists []. repeat split; simpl; auto.
  - destruct (is_digit d3) eqn:H3.
    + destruct rest' as [|d4 rest''].
      * intros [= <-]. exists []. repeat split; simpl; auto.
      * destruct (is_digit d4) eqn:H4; [discriminate|].
        intros [= <-]. exists (d4 :: rest''). repeat split; simpl; auto.
    + intros [= <-]. exists (d3 :: rest'). repeat split; simpl; auto.
Qed.

(** Every match of [RE_ANY_NUMBER_2_3] is a piece of the string made of
    two or three digits. *)
Lemma findall_2_3_from_occurs s : forall prev_digit skip g,
  In g (Re.findall_2_3_from prev_digit skip s) ->
  exists pre post,
    s = pre ++ g ++ post /\
    Forall (fun c => is_digit c = true) g /\
    (length g = 2 \/ length g = 3)%nat.
Proof.
  induction s as [|c s IH]; intros pd k g Hin; [destruct Hin|].
  assert (Hrest : forall pd' k', In g (Re.findall_2_3_from pd' k' s) ->
                  exists pre post,
                    c :: s = pre ++ g ++ post /\
                    Forall (fun c => is_digit c = true) g /\
                    (length g = 2 \/ length g = 3)%nat).
  { intros pd' k' H. destruct (IH pd' k' g H) as (pre & post & -> & Hd & Hl).
    exists (c :: pre), post. now repeat split. }
  cbn [Re.findall_2_3_from] in Hin.
  destruct k as [|k]; [|now apply (Hrest true k)].
  destruct pd; [now apply (Hrest (is_digit c) 0%nat)|].
  destruct (Re.digits_2_3 (c :: s)) as [g0|] eqn:E; [|now apply (Hrest (is_digit c) 0%nat)].
  destruct Hin as [<-|Hin]; [|now apply (Hrest true (length g0 - 1)%nat)].
  destruct (digits_2_3_sound _ _ E) as (post & Hs & Hd & Hl & _).
  exists [], post. now repeat split.
Qed.

(** The ten digits. *)
Lemma is_digit_cases c :
  is_digit c = true ->
  In c ["0"; "1"; "2"; "3"; "4"; "5"; "6"; "7"; "8"; "9"]%char.
Proof.
  destruct c as [[] [] [] [] [] [] [] []]; vm_compute; intros; try discriminate; tauto.
Qed.

Lemma lower_digit c : is_digit c = true -> lower_char c = c.
Proof. destruct c as [[] [] [] [] [] [] [] []]; vm_compute; congruence. Qed.

Lemma lower_digits g : Forall (fun c => is_digit c = true) g -> lower g = g.
Proof.
  induction 1 as [|c g Hc _ IH]; [reflexivity|].
  unfold lower in *. simpl. now rewrite (lower_digit c Hc), IH.
Qed.

(** The decimal text of an in-range value ends the digits it was read
    from: only leading zeros are lost. *)
Lemma str_of_int_suffix g :
  Forall (fun c => is_digit c = true) g ->
  (length g = 2 \/ length g = 3)%nat ->
  in_bpm_range (int_of_digits g) = true ->
  exists zeros, g = zeros ++ str_of_int (int_of_digits g).
Proof.
  intros Hd Hl Hr.
  assert (Hk : exists k, skipn k g = str_of_int (int_of_digits g)).
  { destruct g as [|d1 [|d2 [|d3 [|d4 g]]]]; simpl in Hl; try lia.
    - inversion Hd as [|? ? H1 Hd1]; subst. inversion Hd1 as [|? ? H2 _]; subst.
      apply is_digit_cases in H1, H2. simpl in H1, H2.
      repeat (destruct H1 as [<-|H1]; [|]); try contradiction;
        repeat (destruct H2 as [<-|H2]; [|]); try contradiction;
        try (vm_compute in Hr; discriminate);
        first [exists 0%nat; vm_compute; reflexivity
              |exists 1%nat; vm_compute; reflexivity].
    - inversion Hd as [|? ? H1 Hd1]; subst. inversion Hd1 as [|? ? H2 Hd2]; subst.
      inversion Hd2 as [|? ? H3 _]; subst.
      apply is_digit_cases in H1, H2, H3. simpl in H1, H2, H3.
      repeat (destruct H1 as [<-|H1]; [|]); try contradiction;
        repeat (destruct H2 as [<-|H2]; [|]); try contradiction;
        repeat (destruct H3 as [<-|H3]; [|]); try contradiction;
        try (vm_compute in Hr; discriminate);
        first [exists 0%nat; vm_compute; reflexivity
              |exists 1%nat; vm_compute; reflexivity
              |exists 2%nat; vm_compute; reflexivity]. }
  destruct Hk as (k & Hk). exists (firstn k g). rewrite <- Hk. symmetry. apply firstn_skipn.
Qed.

(** *** Occurrences and [rfind] *)

Lemma starts_with_app sub rest : starts_with sub (sub ++ rest) = true.
Proof.
  induction sub as [|c sub IH]; [reflexivity|]. simpl. now rewrite Ascii.eqb_refl, IH.
Qed.

Lemma rfind_from_lower_bound sub s : forall i last,
  last < i -> last <= rfind_from sub s i last.
Proof.
  induction s as [|c s IH]; intros i last H.
  - simpl. destruct (starts_with sub []); lia.
  - cbn [rfind_from]. destruct (starts_with sub (c :: s)).
    + specialize (IH (i + 1) i). lia.
    + specialize (IH (i + 1) last). lia.
Qed.

Lemma rfind_from_occurrence sub pre post : forall i last,
  last < i ->
  i + Z.of_nat (length pre) <= rfind_from sub (pre ++ sub ++ post) i last.
Proof.
  induction pre as [|c pre IH]; intros i last H.
  - simpl app. simpl length.
    destruct (sub ++ post) as [|x s] eqn:E.
    + simpl. rewrite <- E, starts_with_app. lia.
    + cbn [rfind_from]. rewrite <- E, starts_with_app.
      pose proof (rfind_from_lower_bound sub s (i + 1) i). lia.
  - simpl app. cbn [rfind_from].
    destruct (starts_with sub (c :: pre ++ sub ++ post)).
    + specialize (IH (i + 1) i). simpl length. lia.
    + specialize (IH (i + 1) last). simpl length. lia.
Qed.

(** The decimal text of every candidate occurs in the base name. *)
Lemma candidate_occurs base c :
  In c (candidates base) -> 0 <= last_index base c.
Proof.
  unfold candidates. intros Hin. apply filter_In in Hin. destruct Hin as [Hin Hr].
  apply in_map_iff in Hin. destruct Hin as (g & <- & Hg).
  destruct (findall_2_3_from_occurs base false 0%nat g Hg) as (pre & post & -> & Hd & Hl).
  destruct (str_of_int_suffix g Hd Hl Hr) as (zeros & Ez).
  unfold last_index, rfind.
  assert (El : lower (pre ++ g ++ post)
               = (lower pre ++ zeros) ++ str_of_int (int_of_digits g) ++ lower post).
  { unfold lower. rewrite !map_app. fold (lower g). rewrite (lower_digits g Hd).
    rewrite Ez at 1. now rewrite <- !app_assoc. }
  rewrite El.
  pose proof (rfind_from_occurrence (str_of_int (int_of_digits g))
                (lower pre ++ zeros) (lower post) 0 (-1)). lia.
Qed.

(** *** The score, term by term *)

Lemma score_terms base c : score base c = position_score base c + keyword_bonus base.
Proof.
  unfold score, position_score, keyword_bonus, last_index.
  destruct (0 <=? rfind (lower base) (str_of_int c));
    destruct (existsb _ keywords); lia.
Qed.

(** C2, as the code has it, for a file name over the code points 0..255,
    whose decimal digits are [0] to [9].  When the tagged path returns
    nothing and there is a candidate, the result is a candidate of highest
    score,
    where the score is [2 * (len(base) - i)] for the index [i] of the last
    occurrence of the candidate's decimal text, plus 50 for every
    candidate when a keyword occurs; among equal scores the sort key
    prefers the later last occurrence.  A higher score means an EARLIER
    last occurrence: no candidate has its last occurrence before that of
    the result. *)
Theorem guess_bpm_highest_score (name : str) :
  let base := stem (of_str name) in
  tagged_bpm base = None ->
  candidates base <> [] ->
  exists c,
    guess_bpm_from_name name = Some c /\
    In c (candidates base) /\
    (forall c', In c' (candidates base) ->
       score base c' = position_score base c' + keyword_bonus base /\
       (score base c' < score base c \/
        (score base c' = score base c /\
         rfind base (str_of_int c') <= rfind base (str_of_int c))) /\
       0 <= last_index base c <= last_index base c').
Proof.
  intros base Htag Hcand. unfold guess_bpm_from_name. fold base. rewrite Htag.
  destruct (candidates base) as [|c0 cs] eqn:Ec; [congruence|].
  set (scored := map (fun c => (score base c, c)) (c0 :: cs)).
  set (best := last (sort_by (sort_key base) scored) (0, c0)).
  assert (Hne : sort_by (sort_key base) scored <> []).
  { intro E. assert (H : In (score base c0, c0) (sort_by (sort_key base) scored)).
    { apply sort_by_In. unfold scored. simpl. now left. }
    rewrite E in H. destruct H. }
  assert (Hin : In best scored).
  { apply (sort_by_In (sort_key base)). apply last_In, Hne. }
  unfold scored in Hin. apply in_map_iff in Hin. destruct Hin as (c & Hbest & Hc).
  exists (snd best). rewrite <- Hbest. simpl. split; [reflexivity|]. split; [exact Hc|].
  intros c' Hc'. split; [apply score_terms|].
  assert (Hle : key_le (sort_key base) (score base c', c') best).
  { apply sorted_last_max; [apply sort_by_sorted|].
    apply sort_by_In. unfold scored. apply in_map_iff. now exists c'. }
  unfold key_le in Hle. rewrite <- Hbest in Hle. apply key_leb_spec in Hle.
  unfold sort_key in Hle. simpl in Hle. split; [exact Hle|].
  assert (H0 : 0 <= last_index base c) by (apply candidate_occurs; fold base; now rewrite Ec).
  assert (H0' : 0 <= last_index base c') by (apply candidate_occurs; fold base; now rewrite Ec).
  rewrite !score_terms in Hle. unfold position_score in Hle.
  pose proof H0 as B0. pose proof H0' as B0'.
  apply Z.leb_le in B0, B0'. rewrite B0, B0' in Hle. lia.
Qed.

Lemma guess_bpm_highest_score_witness :
  exists c,
    guess_bpm_from_name (py "90_120.wav") = Some c /\
    In c (candidates (stem (of_str (py "90_120.wav")))) /\
    (forall c', In c' (candidates (stem (of_str (py "90_120.wav")))) ->
       score (stem (of_str (py "90_120.wav"))) c'
       = position_score (stem (of_str (py "90_120.wav"))) c'
         + keyword_bonus (stem (of_str (py "90_120.wav"))) /\
       (score (stem (of_str (py "90_120.wav"))) c'
        < score (stem (of_str (py "90_120.wav"))) c \/
        (score (stem (of_str (py "90_120.wav"))) c'
         = score (stem (of_str (py "90_120.wav"))) c /\
         rfind (stem (of_str (py "90_120.wav"))) (str_of_int c')
         <= rfind (stem (of_str (py "90_120.wav"))) (str_of_int c))) /\
       0 <= last_index (stem (of_str (py "90_120.wav"))) c
         <= last_index (stem (of_str (py "90_120.wav"))) c').
Proof.
  apply (guess_bpm_highest_score (py "90_120.wav")).
  - vm_compute. reflexivity.
  - vm_compute. discriminate.
Defined.

(** C2, as the spec states it, fails on [90_120.wav]: no tag, two
    distinct candidates in range.  With the position term growing with
    the index, 120 (index 3) outscores 90 (index 0); the code returns 90. *)
Lemma guess_bpm_not_latest :
  stem (of_str (py "90_120.wav")) = py "90_120" /\
  tagged_bpm (py "90_120") = None /\
  candidates (py "90_120") = [90; 120] /\
  guess_bpm_from_name (py "90_120.wav") = Some 90 /\
  spec_score (py "90_120") 90 < spec_score (py "90_120") 120 /\
  ~ (forall c, guess_bpm_from_name (py "90_120.wav") = Some c ->
     forall c', In c' (candidates (py "90_120")) ->
       spec_score (py "90_120") c' <= spec_score (py "90_120") c).
Proof.
  repeat split; try (vm_compute; reflexivity).
  intros H. specialize (H 90 eq_refl 120 (or_intror (or_introl eq_refl))).
  vm_compute in H. apply H. reflexivity.
Qed.

(** *** The tagged pattern *)


Lemma lstrip_by_split p s :
  exists seps,
    s = seps ++ lstrip_by p s /\
    Forall (fun c => p c = true) seps.
Proof.
  induction s as [|c s IH]; simpl.
  - exists []. split; [reflexivity|constructor].
  - destruct (p c) eqn:E.
    + destruct IH as (seps & Hs & Hf). exists (c :: seps). split.
      * simpl. now rewrite <- Hs.
      * now constructor.
    + exists []. split; [reflexivity|constructor].
Qed.





Lemma bpm_tagged_search_eq s :
  Re.bpm_tagged_search s =
  match Re.bpm_tagged_at s with
  | Some g => Some g
  | None => match s with [] => None | _ :: s' => Re.bpm_tagged_search s' end
  end.
Proof. destruct s; reflexivity. Qed.






(** The examples of the spec. *)
Example guess_bpm_tagged : guess_bpm_from_name (py "intro_bpm128_mix.wav") = Some 128.
Proof. vm_compute. reflexivity. Qed.

Example guess_bpm_single : guess_bpm_from_name (py "groove_95.wav") = Some 95.
Proof. vm_compute. reflexivity. Qed.

Example guess_bpm_keyword : guess_bpm_from_name (py "drum_loop_140_02.wav") = Some 140.
Proof. vm_compute. reflexivity. Qed.

Example guess_bpm_none : guess_bpm_from_name (py "silence.wav") = None.
Proof. vm_compute. reflexivity. Qed.

End BpmFacts.

(** * Facts about [ConvertTask.run] *)

Module WorkerFacts.
Import PyStr PathLib Worker.
Local Open Scope Z_scope.

Section RunFacts.
Context {World : Type} `{Collaborators World}.
Variable task : ConvertTask.

Lemma quiet_ret {A} (a : A) : quiet (World:=World) (ret a).
Proof. intros s. simpl. auto. Qed.

Lemma quiet_of_res {A} (r : res A) : quiet (World:=World) (of_res r).
Proof. intros s. simpl. auto. Qed.

Lemma quiet_ask {A} (q : World -> res A) : quiet (ask q).
Proof. intros s. simpl. auto. Qed.

Lemma quiet_act {A} (f : World -> A * World) : quiet (act f).
Proof. intros s. unfold act. destruct (f (world s)). simpl. auto. Qed.

Lemma quiet_act_res {A} (f : World -> res A * World) : quiet (act_res f).
Proof. intros s. unfold act_res. destruct (f (world s)). simpl. auto. Qed.

Lemma quiet_bind {A B} (c : M World A) (k : A -> M World B) :
  quiet c -> (forall a, quiet (k a)) -> quiet (bind c k).
Proof.
  intros Hc Hk s. unfold bind. specialize (Hc s).
  destruct (c s) as [[a|e] s']; simpl in *.
  - destruct (Hk a s') as (E1 & E2 & E3). destruct Hc as (F1 & F2 & F3).
    repeat split; congruence.
  - exact Hc.
Qed.

Lemma quiet_convert src dst ratio : quiet (convert_with_ffmpeg src dst ratio).
Proof.
  unfold convert_with_ffmpeg.
  apply quiet_bind; [apply quiet_ask|]. intros [ff|]; [|apply quiet_ret].
  apply quiet_bind; [apply quiet_act_res|]. intros _.
  apply quiet_bind; [apply quiet_of_res|]. intros fs.
  apply quiet_bind; [apply quiet_act|]. intros [|out|e]; apply quiet_ret.
Qed.

Lemma quiet_safe_out_path src od bpm flat suf : quiet (safe_out_path src od bpm flat suf).
Proof. apply quiet_ask. Qed.

Lemma skip_with_line (l : log_line) (s : state World) :
  body_post s (bind incr_skipped (fun _ => emit (Message l)) s).
Proof.
  simpl. split.
  - right. split; reflexivity.
  - exists [l]. split; [discriminate|reflexivity].
Qed.

Lemma try_body_post f s : body_post s (try_body task f s).
Proof.
  unfold try_body.
  destruct (Bpm.guess_bpm_from_name (name f)) as [bpm|]; [|apply skip_with_line].
  destruct (bpm =? 0); [apply skip_with_line|].
  unfold bind at 1.
  pose proof (quiet_safe_out_path f (out_dir task) (target_bpm task)
                (flat_names task) (suffix_label task) s) as Q1.
  destruct (safe_out_path f (out_dir task) (target_bpm task)
              (flat_names task) (suffix_label task) s) as [[outpath|e] s1];
    simpl in Q1; destruct Q1 as (E1 & P1 & K1).
  2:{ simpl. repeat split; try assumption. exists []. simpl. now rewrite app_nil_r. }
  unfold bind at 1.
  pose proof (quiet_ask (path_exists outpath) s1) as Q2.
  destruct (ask (path_exists outpath) s1) as [[there|e] s2];
    simpl in Q2; destruct Q2 as (E2 & P2 & K2).
  2:{ simpl. repeat split; try congruence. exists []. simpl. rewrite app_nil_r. congruence. }
  destruct (there && negb (overwrite task)).
  { pose proof (skip_with_line (OutputExists (name f)) s2) as Hs.
    destruct (bind incr_skipped (fun _ => emit (Message (OutputExists (name f)))) s2) as [[u|e] s3];
      simpl in Hs |- *.
    - destruct Hs as (Hc & msgs & Hne & Hev). split.
      + unfold one_count in *. rewrite <- P1, <- K1, <- P2, <- K2. exact Hc.
      + exists msgs. split; [exact Hne|]. congruence.
    - destruct Hs as (Hp & Hk & msgs & Hev). repeat split; try congruence.
      exists msgs. congruence. }
  set (line := Converting (name f) bpm (target_bpm task)
                          (Tempo.ratio_of (target_bpm task) bpm)).
  unfold bind at 1. unfold emit at 1.
  set (s3 := {| world := world s2; events := events s2 ++ [Message line];
                processed := processed s2; skipped := skipped s2 |}).
  unfold bind at 1.
  pose proof (quiet_convert f outpath (Tempo.ratio_of (target_bpm task) bpm) s3) as Q4.
  destruct (convert_with_ffmpeg f outpath (Tempo.ratio_of (target_bpm task) bpm) s3)
    as [[[ok msg]|e] s4]; simpl in Q4; destruct Q4 as (E4 & P4 & K4).
  2:{ simpl. repeat split; try congruence.
      exists [line]. rewrite E4. simpl. congruence. }
  simpl fst. simpl snd. destruct ok; simpl.
  - split.
    + left. simpl. split; congruence.
    + exists [line; Saved (name outpath)]. split; [discriminate|].
      rewrite E4. simpl. rewrite <- app_assoc. simpl. congruence.
  - split.
    + right. simpl. split; congruence.
    + exists [line; ErrorIn (name f) (ConverterSaid msg)]. split; [discriminate|].
      rewrite E4. simpl. rewrite <- app_assoc. simpl. congruence.
Qed.

(** One turn of the loop returns; it moved one counter by one, logged at
    least one line, and then sent one percentage. *)
Lemma run_file_step total i f s :
  exists s' msgs,
    run_file task total i f s = (Ret tt, s') /\
    one_count s s' /\
    msgs <> [] /\
    events s' = events s ++ map Message msgs ++ [Progress (percent i total)].
Proof.
  unfold run_file, bind, try_except.
  pose proof (try_body_post f s) as Hb.
  destruct (try_body task f s) as [[[]|e] s1]; simpl in Hb.
  - destruct Hb as (Hc & msgs & Hne & Hev).
    eexists. exists msgs. split; [reflexivity|]. simpl.
    split; [exact Hc|]. split; [exact Hne|]. rewrite Hev, <- app_assoc. reflexivity.
  - destruct Hb as (Hp & Hk & msgs & Hev).
    eexists. exists (msgs ++ [ErrorIn (name f) (Exception e); Traceback e]).
    split; [reflexivity|]. simpl. split; [|split].
    + right. simpl. split; congruence.
    + destruct msgs; discriminate.
    + rewrite Hev, map_app. simpl. rewrite <- !app_assoc. reflexivity.
Qed.

(** A failure inside the [try] is caught: the file is skipped and the
    error is logged under its name. *)
Lemma run_file_catches total i f s e sr :
  try_body task f s = (Raise e, sr) ->
  exists s',
    run_file task total i f s = (Ret tt, s') /\
    processed s' = processed s /\
    skipped s' = skipped s + 1 /\
    In (Message (ErrorIn (name f) (Exception e))) (events s').
Proof.
  intros Hb. pose proof (try_body_post f s) as Hp. rewrite Hb in Hp.
  simpl in Hp. destruct Hp as (Hp & Hk & _).
  unfold run_file, bind, try_except. rewrite Hb. simpl.
  eexists. split; [reflexivity|]. simpl. repeat split; try congruence.
  apply in_or_app. left. apply in_or_app. left. apply in_or_app. right. now left.
Qed.

Lemma progress_values_app a b :
  progress_values (a ++ b) = progress_values a ++ progress_values b.
Proof. unfold progress_values. apply flat_map_app. Qed.

Lemma progress_values_messages msgs : progress_values (map Message msgs) = [].
Proof. induction msgs; simpl; auto. Qed.

Lemma run_loop_steps fs : forall total i s,
  exists s',
    run_loop task total i fs s = (Ret tt, s') /\
    processed s' + skipped s' = processed s + skipped s + Z.of_nat (length fs) /\
    processed s <= processed s' /\
    skipped s <= skipped s' /\
    progress_values (events s')
    = progress_values (events s) ++ map (fun k => percent k total) (indices i (length fs)).
Proof.
  induction fs as [|f fs IH]; intros total i s.
  - exists s. simpl. rewrite app_nil_r. repeat split; lia.
  - destruct (run_file_step total i f s) as (s1 & msgs & Hr & Hc & _ & Hev).
    destruct (IH total (i + 1) s1) as (s2 & Hl & Hsum & Hp & Hk & Hpv).
    exists s2. cbn [run_loop]. unfold bind at 1. rewrite Hr. split; [exact Hl|].
    assert (Hc' : processed s1 + skipped s1 = processed s + skipped s + 1 /\
                  processed s <= processed s1 /\ skipped s <= skipped s1).
    { destruct Hc as [[-> ->]|[-> ->]]; lia. }
    split; [cbn [length]; lia|]. split; [lia|]. split; [lia|].
    rewrite Hpv, Hev, !progress_values_app, progress_values_messages.
    simpl. rewrite <- app_assoc. reflexivity.
Qed.

Lemma not_found_errors_app a b :
  not_found_errors (a ++ b) = not_found_errors a ++ not_found_errors b.
Proof. unfold not_found_errors. apply flat_map_app. Qed.

(** Without a converter a turn of the loop changes nothing in the world,
    skips the file, and reports the missing converter exactly when the
    file reaches the conversion. *)
Lemma run_file_no_converter total i f s :
  which_ffmpeg (world s) = Ret None ->
  exists s',
    run_file task total i f s = (Ret tt, s') /\
    world s' = world s /\
    processed s' = processed s /\
    skipped s' = skipped s + 1 /\
    not_found_errors (events s')
    = not_found_errors (events s)
      ++ (if reaches_conversion task (world s) f then [name f] else []).
Proof.
  intros Hff.
  unfold run_file, try_except, try_body, reaches_conversion.
  destruct (Bpm.guess_bpm_from_name (name f)) as [bpm|].
  2:{ eexists. split; [reflexivity|]. simpl.
      rewrite !not_found_errors_app. simpl. rewrite !app_nil_r. auto. }
  destruct (bpm =? 0).
  { eexists. split; [reflexivity|]. simpl.
    rewrite !not_found_errors_app. simpl. rewrite !app_nil_r. auto. }
  unfold bind, safe_out_path, ask, except_handler.
  destruct (resolve _ (world s)) as [outpath|e].
  2:{ eexists. split; [reflexivity|]. simpl.
      rewrite !not_found_errors_app. simpl. rewrite !app_nil_r. auto. }
  destruct (path_exists outpath (world s)) as [there|e].
  2:{ eexists. split; [reflexivity|]. simpl.
      rewrite !not_found_errors_app. simpl. rewrite !app_nil_r. auto. }
  destruct (there && negb (overwrite task)).
  { eexists. split; [reflexivity|]. simpl.
    rewrite !not_found_errors_app. simpl. rewrite !app_nil_r. auto. }
  unfold convert_with_ffmpeg, bind, ask, emit. simpl. rewrite Hff. simpl.
  eexists. split; [reflexivity|]. simpl.
  rewrite !not_found_errors_app. simpl. rewrite !app_nil_r. auto.
Qed.

Lemma run_loop_no_converter fs : forall total i s,
  which_ffmpeg (world s) = Ret None ->
  exists s',
    run_loop task total i fs s = (Ret tt, s') /\
    world s' = world s /\
    processed s' = processed s /\
    skipped s' = skipped s + Z.of_nat (length fs) /\
    not_found_errors (events s')
    = not_found_errors (events s)
      ++ map name (filter (reaches_conversion task (world s)) fs).
Proof.
  induction fs as [|f fs IH]; intros total i s Hff.
  - exists s. simpl. rewrite app_nil_r. repeat split; lia.
  - destruct (run_file_no_converter total i f s Hff) as (s1 & Hr & Hw & Hp & Hk & He).
    assert (Hff1 : which_ffmpeg (world s1) = Ret None) by (rewrite Hw; exact Hff).
    destruct (IH total (i + 1) s1 Hff1) as (s2 & Hl & Hw2 & Hp2 & Hk2 & He2).
    exists s2. cbn [run_loop]. unfold bind at 1. rewrite Hr. split; [exact Hl|].
    split; [congruence|]. split; [congruence|]. split; [cbn [length]; lia|].
    rewrite He2, He, Hw. cbn [filter].
    destruct (reaches_conversion task (world s) f); simpl;
      rewrite <- ?app_assoc; reflexivity.
Qed.

(** *** The percentages *)

Lemma indices_length i n : length (indices i n) = n.
Proof. revert i. induction n as [|n IH]; intros i; simpl; [reflexivity|]. now rewrite IH. Qed.

Lemma indices_ge i n k : In k (indices i n) -> i <= k.
Proof.
  revert i. induction n as [|n IH]; intros i; simpl; [tauto|].
  intros [->|Hk]; [lia|]. apply IH in Hk. lia.
Qed.

Lemma indices_last i n d : n <> O -> last (indices i n) d = i + Z.of_nat n - 1.
Proof.
  revert i. induction n as [|n IH]; intros i Hn; [congruence|].
  destruct n as [|n].
  - simpl. lia.
  - change (last (indices i (S (S n))) d) with (last (indices (i + 1) (S n)) d).
    rewrite IH by discriminate. lia.
Qed.

Lemma percent_mono total i j : i <= j -> percent i total <= percent j total.
Proof. intros Hij. unfold percent. apply Z.div_le_mono; lia. Qed.

Lemma percent_full n : 1 <= n -> percent n n = 100.
Proof.
  intros Hn. unfold percent. rewrite Z.max_l by lia.
  rewrite Z.mul_comm. apply Z.div_mul. lia.
Qed.

Lemma percents_sorted total n : forall i,
  StronglySorted Z.le (map (fun k => percent k total) (indices i n)).
Proof.
  induction n as [|n IH]; intros i; simpl; constructor; [apply IH|].
  apply Forall_forall. intros p Hp. apply in_map_iff in Hp.
  destruct Hp as (k & <- & Hk). apply percent_mono. apply indices_ge in Hk. lia.
Qed.

Lemma last_map {A B} (f : A -> B) l d : last (map f l) (f d) = f (last l d).
Proof.
  induction l as [|x l IH]; [reflexivity|].
  destruct l as [|y l]; [reflexivity|]. exact IH.
Qed.

Lemma run_after_mkdir w w1 :
  mkdir_parents (out_dir task) w = (Ret tt, w1) ->
  run task w
  = bind (run_loop task (Z.of_nat (length (files task))) 1 (files task))
         (fun _ => emit_finished)
         {| world := w1; events := []; processed := 0; skipped := 0 |}.
Proof.
  intros Hm. unfold run, run_from, initial, bind at 1, act_res. simpl. now rewrite Hm.
Qed.

(** C4, as the code has it.  Once the output directory is there (line
    269, outside the [try]), [run] returns: it ends with [finished_ok],
    the two counts add up to the number of files, every turn of the loop
    moves exactly one of them by one and logs at least one line, and any
    exception raised inside the [try] becomes a skip with an error line. *)
Theorem run_counts_every_file (w w1 : World) :
  mkdir_parents (out_dir task) w = (Ret tt, w1) ->
  exists s,
    run task w = (Ret tt, s) /\
    (exists evs, events s = evs ++ [FinishedOk (processed s) (skipped s)]) /\
    processed s + skipped s = Z.of_nat (length (files task)) /\
    0 <= processed s /\ 0 <= skipped s /\
    (forall total i f s0,
        exists s1 msgs,
          run_file task total i f s0 = (Ret tt, s1) /\
          one_count s0 s1 /\
          msgs <> [] /\
          events s1 = events s0 ++ map Message msgs ++ [Progress (percent i total)]) /\
    (forall total i f s0 e sr,
        try_body task f s0 = (Raise e, sr) ->
        exists s1,
          run_file task total i f s0 = (Ret tt, s1) /\
          processed s1 = processed s0 /\
          skipped s1 = skipped s0 + 1 /\
          In (Message (ErrorIn (name f) (Exception e))) (events s1)).
Proof.
  intros Hm. rewrite (run_after_mkdir w w1 Hm).
  set (s0 := {| world := w1; events := []; processed := 0; skipped := 0 |}).
  destruct (run_loop_steps (files task) (Z.of_nat (length (files task))) 1 s0)
    as (s1 & Hl & Hsum & Hp & Hk & _).
  unfold bind. rewrite Hl. unfold emit_finished, emit.
  eexists. split; [reflexivity|]. simpl.
  split; [now exists (events s1)|].
  split; [simpl in Hsum; lia|]. split; [simpl in Hp; lia|]. split; [simpl in Hk; lia|].
  split.
  - intros. apply run_file_step.
  - intros. eapply run_file_catches; eassumption.
Qed.

(** C5, as the code has it.  Once the output directory is there (line
    269 returned), for a target tempo below [2^1024] in absolute value
    (so that the float division of line 278 cannot overflow), and with no
    converter to be found, the run does not stop early: it visits every
    file, converts none, skips all, and logs the missing converter once
    for each file that reaches the conversion. *)
Theorem run_without_converter (w w1 : World) :
  mkdir_parents (out_dir task) w = (Ret tt, w1) ->
  Z.abs (target_bpm task) < 2 ^ 1024 ->
  which_ffmpeg w1 = Ret None ->
  exists s,
    run task w = (Ret tt, s) /\
    processed s = 0 /\
    skipped s = Z.of_nat (length (files task)) /\
    length (progress_values (events s)) = length (files task) /\
    not_found_errors (events s)
    = map name (filter (reaches_conversion task w1) (files task)).
Proof.
  intros Hm _ Hff. rewrite (run_after_mkdir w w1 Hm).
  set (s0 := {| world := w1; events := []; processed := 0; skipped := 0 |}).
  destruct (run_loop_no_converter (files task) (Z.of_nat (length (files task))) 1 s0 Hff)
    as (s1 & Hl & Hw & Hp & Hk & He).
  destruct (run_loop_steps (files task) (Z.of_nat (length (files task))) 1 s0)
    as (s1' & Hl' & _ & _ & _ & Hpv).
  rewrite Hl in Hl'. injection Hl' as <-.
  unfold bind. rewrite Hl. unfold emit_finished, emit.
  eexists. split; [reflexivity|]. simpl.
  split; [exact Hp|]. split; [simpl in Hk; lia|]. split.
  - rewrite progress_values_app, Hpv. simpl.
    rewrite app_nil_r, length_map, indices_length. reflexivity.
  - rewrite not_found_errors_app, He. simpl. now rewrite app_nil_r.
Qed.

(** C10, as the code has it.  Over a non-empty file list, once the
    output directory is there (line 269 returned, so that the loop is
    entered), [run] sends one percentage per file,
    [int(i * 100 / total)] for the i-th file; the percentages never
    decrease and the last one is 100. *)
Theorem run_progress (w w1 : World) :
  files task <> [] ->
  mkdir_parents (out_dir task) w = (Ret tt, w1) ->
  let n := length (files task) in
  let sent := progress_values (events (snd (run task w))) in
  sent = map (fun i => percent i (Z.of_nat n)) (indices 1 n) /\
  length sent = n /\
  StronglySorted Z.le sent /\
  last sent 0 = 100.
Proof.
  intros Hne Hm n sent.
  assert (Hsent : sent = map (fun i => percent i (Z.of_nat n)) (indices 1 n)).
  { unfold sent. rewrite (run_after_mkdir w w1 Hm).
    set (s0 := {| world := w1; events := []; processed := 0; skipped := 0 |}).
    destruct (run_loop_steps (files task) (Z.of_nat n) 1 s0)
      as (s1 & Hl & _ & _ & _ & Hpv).
    unfold bind. fold n. rewrite Hl. unfold emit_finished, emit. simpl.
    rewrite progress_values_app, Hpv. simpl. now rewrite app_nil_r. }
  split; [exact Hsent|]. rewrite Hsent.
  split; [now rewrite length_map, indices_length|].
  split; [apply percents_sorted|].
  assert (Hn : n <> O).
  { unfold n. destruct (files task); [congruence|discriminate]. }
  assert (E0 : 0 = percent 0 (Z.of_nat n)) by reflexivity.
  rewrite E0 at 1.
  rewrite (last_map (fun i => percent i (Z.of_nat n))), indices_last by exact Hn.
  replace (1 + Z.of_nat n - 1) with (Z.of_nat n) by lia.
  apply percent_full. lia.
Qed.

End RunFacts.

Lemma run_counts_every_file_witness :
  exists s,
    run example_task world_ready = (Ret tt, s) /\
    (exists evs, events s = evs ++ [FinishedOk (processed s) (skipped s)]) /\
    processed s + skipped s = Z.of_nat (length (files example_task)) /\
    0 <= processed s /\ 0 <= skipped s /\
    (forall total i f s0,
        exists s1 msgs,
          run_file example_task total i f s0 = (Ret tt, s1) /\
          one_count s0 s1 /\
          msgs <> [] /\
          events s1 = events s0 ++ map Message msgs ++ [Progress (percent i total)]) /\
    (forall total i f s0 e sr,
        try_body example_task f s0 = (Raise e, sr) ->
        exists s1,
          run_file example_task total i f s0 = (Ret tt, s1) /\
          processed s1 = processed s0 /\
          skipped s1 = skipped s0 + 1 /\
          In (Message (ErrorIn (name f) (Exception e))) (events s1)).
Proof.
  apply (run_counts_every_file example_task world_ready world_ready). reflexivity.
Defined.

(** C4, as the spec states it, fails where the output directory cannot
    be created: line 269 raises before the loop and outside any [try]. *)
Lemma run_raises_without_out_dir :
  exists e s, run example_task world_readonly = (Raise e, s) /\ events s = [].
Proof. eexists. eexists. split; reflexivity. Qed.

Lemma run_without_converter_witness :
  exists s,
    run two_file_task world_without_ffmpeg = (Ret tt, s) /\
    processed s = 0 /\
    skipped s = Z.of_nat (length (files two_file_task)) /\
    length (progress_values (events s)) = length (files two_file_task) /\
    not_found_errors (events s)
    = map name (filter (reaches_conversion two_file_task world_without_ffmpeg)
                       (files two_file_task)).
Proof.
  apply (run_without_converter two_file_task world_without_ffmpeg world_without_ffmpeg);
    reflexivity.
Defined.

(** C5, as the spec states it, fails on two files that both carry a
    tempo: the converter is missing, yet both files are visited (two
    percentages are sent) and the missing converter is reported twice,
    once under each file name. *)
Lemma run_without_converter_visits_all :
  which_ffmpeg world_without_ffmpeg = Ret None /\
  exists s,
    run two_file_task world_without_ffmpeg = (Ret tt, s) /\
    not_found_errors (events s) = [py "a_120.wav"; py "b_90.wav"] /\
    progress_values (events s) = [50; 100].
Proof.
  split; [reflexivity|]. eexists. split; [vm_compute; reflexivity|].
  split; vm_compute; reflexivity.
Qed.

(** C10, as the claim states it, fails where the output directory
    cannot be created: the list holds three files, yet [run] raises at
    line 269, before the loop, and sends no percentage at all. *)
Lemma run_sends_nothing_without_out_dir :
  files example_task <> [] /\
  exists e s,
    run example_task world_readonly = (Raise e, s) /\
    progress_values (events s) = [] /\
    length (progress_values (events s)) <> length (files example_task) /\
    last (progress_values (events s)) 0 <> 100.
Proof.
  split; [discriminate|]. eexists. eexists. split; [reflexivity|].
  split; [reflexivity|]. split; discriminate.
Qed.

Lemma run_progress_witness :
  let n := length (files example_task) in
  let sent := progress_values (events (snd (run example_task world_ready))) in
  sent = map (fun i => percent i (Z.of_nat n)) (indices 1 n) /\
  length sent = n /\
  StronglySorted Z.le sent /\
  last sent 0 = 100.
Proof.
  apply (run_progress example_task world_ready world_ready).
  - discriminate.
  - reflexivity.
Defined.

Example run_example_progress :
  progress_values (events (snd (run example_task world_ready))) = [33; 66; 100].
Proof. vm_compute. reflexivity. Qed.

End WorkerFacts.

(** * Facts about [_sanitize_base] and [safe_out_path] *)

Module NamingFacts.
Import PyStr PathLib Naming.

(** *** Stripping on the right *)

Lemma rstrip_by_snoc p s c : p c = false -> rstrip_by p (s ++ [c]) = s ++ [c].
Proof.
  intros Hc. induction s as [|a s IH]; simpl.
  - now rewrite Hc.
  - rewrite IH. destruct (s ++ [c]) eqn:E; [|reflexivity].
    destruct s; discriminate.
Qed.

Lemma rstrip_by_cases p s :
  rstrip_by p s = [] \/ exists body c, rstrip_by p s = body ++ [c] /\ p c = false.
Proof.
  induction s as [|a s IH]; simpl; [now left|].
  destruct IH as [->|(body & c & -> & Hc)].
  - destruct (p a) eqn:E; [now left|right]. exists [], a. now split.
  - right. exists (a :: body), c. split; [|exact Hc].
    destruct (body ++ [c]) eqn:E; [destruct body; discriminate|].
    simpl. now rewrite E.
Qed.

Lemma rstrip_by_app_keep p a c b :
  p c = false -> rstrip_by p (a ++ c :: b) = a ++ c :: rstrip_by p b.
Proof.
  intros Hc. induction a as [|x a IH]; simpl.
  - destruct (rstrip_by p b); [now rewrite Hc|reflexivity].
  - rewrite IH. destruct (a ++ c :: rstrip_by p b) eqn:E; [|reflexivity].
    destruct a; discriminate.
Qed.

Lemma not_alpha_false c : not_alpha c = false <-> is_alpha c = true.
Proof. unfold not_alpha. now rewrite negb_false_iff. Qed.

Lemma sub_plus_end_cases s :
  Re.sub_plus_end not_alpha s = [] \/ ends_in_letter (Re.sub_plus_end not_alpha s).
Proof.
  unfold Re.sub_plus_end.
  destruct (rstrip_by_cases not_alpha s) as [->|(body & c & -> & Hc)]; [now left|right].
  exists body, c. split; [reflexivity|]. now apply not_alpha_false.
Qed.

Lemma ends_in_letter_nonempty s : ends_in_letter s -> s <> [].
Proof. intros (body & c & -> & _). destruct body; discriminate. Qed.

Lemma converted_ends_in_letter : ends_in_letter (py "converted").
Proof. exists (py "converte"), "d"%char. split; reflexivity. Qed.

Lemma sanitize_base_ends_in_letter base : ends_in_letter (_sanitize_base base).
Proof.
  unfold _sanitize_base, sanitize_steps.
  match goal with |- context [Re.sub_plus_end not_alpha ?x] =>
    destruct (sub_plus_end_cases x) as [->|Hl] end.
  - apply converted_ends_in_letter.
  - pose proof (ends_in_letter_nonempty _ Hl) as Hne.
    match goal with |- context [Re.sub_plus_end not_alpha ?x] =>
      destruct (Re.sub_plus_end not_alpha x) eqn:E end; [congruence|exact Hl].
Qed.

Lemma letter_not_separator c :
  is_alpha c = true ->
  is_digit c = false /\ c <> "_"%char /\ c <> "-"%char /\
  (is_char "_" c || is_char "-" c) = false.
Proof.
  destruct c as [[] [] [] [] [] [] [] []]; vm_compute; intros; repeat split; congruence.
Qed.

Lemma rstrip_separators_keeps s :
  ends_in_letter s ->
  rstrip_by (fun c => is_char "_" c || is_char "-" c) s = s.
Proof.
  intros (body & c & -> & Hc). apply rstrip_by_snoc.
  now apply letter_not_separator.
Qed.

Lemma safe_out_stem_labelled src flat suffix :
  safe_out_stem src flat suffix
  = match rstrip_by (fun c => is_char "_" c || is_char "-" c)
                    (labelled (_sanitize_base (out_base src flat)) suffix) with
    | [] => py "converted"
    | clean => clean
    end.
Proof.
  unfold safe_out_stem.
  destruct (rstrip_by _ _) eqn:E; reflexivity.
Qed.

Lemma labelled_ends_in_letter clean suffix :
  ends_in_letter clean -> ends_in_letter (labelled clean suffix).
Proof.
  intros Hc. unfold labelled. destruct suffix as [|x suffix]; [exact Hc|].
  destruct (normalize_suffix (x :: suffix)) as [|y suf]; [exact Hc|].
  cbv zeta.
  match goal with |- context [Re.sub_plus_end not_alpha ?x] =>
    destruct (sub_plus_end_cases x) as [->|Hl] end; [exact Hc|].
  pose proof (ends_in_letter_nonempty _ Hl) as Hne.
  match goal with |- context [Re.sub_plus_end not_alpha ?x] =>
    destruct (Re.sub_plus_end not_alpha x) eqn:E end; [congruence|exact Hl].
Qed.

Lemma safe_out_stem_clean src flat suffix :
  safe_out_stem src flat suffix = labelled (_sanitize_base (out_base src flat)) suffix.
Proof.
  rewrite safe_out_stem_labelled.
  pose proof (labelled_ends_in_letter _ suffix
                (sanitize_base_ends_in_letter (out_base src flat))) as Hl.
  rewrite (rstrip_separators_keeps _ Hl).
  pose proof (ends_in_letter_nonempty _ Hl) as Hne.
  destruct (labelled _ suffix); [congruence|reflexivity].
Qed.

Lemma labelled_converted suffix :
  exists tail, labelled (py "converted") suffix = py "converted" ++ tail.
Proof.
  unfold labelled. destruct suffix as [|x suffix]; [exists []; reflexivity|].
  destruct (normalize_suffix (x :: suffix)) as [|y suf]; [exists []; reflexivity|].
  cbv zeta. unfold Re.sub_plus_end, Re.sub_plus.
  change (Re.sub_plus_from (is_char "_") (py "_") false
            (py "converted" ++ py "_" ++ y :: suf))
    with (py "converte" ++ "d"%char
            :: Re.sub_plus_from (is_char "_") (py "_") false (py "_" ++ y :: suf)).
  rewrite rstrip_by_app_keep by reflexivity.
  eexists. simpl. reflexivity.
Qed.

(** C7.  For every source, flag and label the name before the
    extension is non-empty and ends in a letter of [A-Za-z], hence in no
    digit, underscore or hyphen; and when steps 1 to 6 leave nothing,
    [_sanitize_base] returns [converted], which the name then starts with
    (and equals, without a label). *)
Theorem safe_out_stem_ends_in_letter (src : Path) (flat_names : bool) (suffix : str) :
  safe_out_stem src flat_names suffix <> [] /\
  (exists body c,
      safe_out_stem src flat_names suffix = body ++ [c] /\
      is_alpha c = true /\ is_digit c = false /\
      c <> "_"%char /\ c <> "-"%char) /\
  (sanitize_steps (out_base src flat_names) = [] ->
   _sanitize_base (out_base src flat_names) = py "converted" /\
   (exists tail, safe_out_stem src flat_names suffix = py "converted" ++ tail) /\
   safe_out_stem src flat_names [] = py "converted").
Proof.
  pose proof (labelled_ends_in_letter _ suffix
                (sanitize_base_ends_in_letter (out_base src flat_names))) as Hl.
  rewrite <- safe_out_stem_clean in Hl.
  split; [now apply ends_in_letter_nonempty|]. split.
  - destruct Hl as (body & c & E & Hc). exists body, c.
    destruct (letter_not_separator c Hc) as (Hd & Hu & Hh & _). now repeat split.
  - intros Hempty.
    assert (Hs : _sanitize_base (out_base src flat_names) = py "converted").
    { unfold _sanitize_base. now rewrite Hempty. }
    split; [exact Hs|]. rewrite !safe_out_stem_clean, Hs. split.
    + apply labelled_converted.
    + reflexivity.
Qed.

Example sanitize_base_placeholder : _sanitize_base (py "drum_loop_140_02") = py "converted".
Proof. vm_compute. reflexivity. Qed.

Example sanitize_base_example : _sanitize_base (py "Kick-Full 120 bpm__x_") = py "Kick_bpm_x".
Proof. vm_compute. reflexivity. Qed.

(** *** Character classes *)

Ltac by_cases_on c :=
  destruct c as [[] [] [] [] [] [] [] []]; vm_compute; intros; repeat split; congruence.

Lemma plain_word_alpha c : plain c = true -> is_word c = true -> is_alpha c = true.
Proof. by_cases_on c. Qed.

Lemma space_not_word c : is_space c = true -> is_word c = false.
Proof. by_cases_on c. Qed.

Lemma alpha_not_space c : is_alpha c = true -> is_space c = false.
Proof. by_cases_on c. Qed.

Lemma lower_alpha_word c : is_alpha (lower_char c) = true -> is_word c = true.
Proof. by_cases_on c. Qed.

Lemma plain_facts c :
  plain c = true ->
  is_digit c = false /\ is_char "_" c = false /\ is_char "-" c = false.
Proof. by_cases_on c. Qed.

(** *** Step 3, position by position and word by word *)

Lemma is_stopword_length w : Re.is_stopword w = true -> length w = 4%nat.
Proof.
  unfold Re.is_stopword, Re.stopwords. simpl. unfold str_eqb.
  intros H.
  assert (E : lower w = py "drum" \/ lower w = py "loop" \/ lower w = py "full").
  { repeat match type of H with
           | context [list_eq_dec ascii_dec ?a ?b] => destruct (list_eq_dec ascii_dec a b)
           end; auto; discriminate. }
  assert (L : length (lower w) = 4%nat) by (destruct E as [ -> | [ -> | -> ]]; reflexivity).
  unfold lower in L. now rewrite length_map in L.
Qed.

Lemma is_stopword_words w : Re.is_stopword w = true -> Forall (fun c => is_word c = true) w.
Proof.
  intros H. pose proof (is_stopword_length w H) as L.
  destruct w as [|c1 [|c2 [|c3 [|c4 [|c5 w]]]]]; try discriminate.
  unfold Re.is_stopword, Re.stopwords in H. simpl in H. unfold str_eqb in H.
  assert (E : map lower_char [c1; c2; c3; c4] = py "drum"
              \/ map lower_char [c1; c2; c3; c4] = py "loop"
              \/ map lower_char [c1; c2; c3; c4] = py "full").
  { repeat match type of H with
           | context [list_eq_dec ascii_dec ?a ?b] => destruct (list_eq_dec ascii_dec a b)
           end; auto; discriminate. }
  destruct E as [E|[E|E]]; injection E as E1 E2 E3 E4;
    repeat (constructor; [apply lower_alpha_word;
                          rewrite ?E1, ?E2, ?E3, ?E4; reflexivity|]);
    constructor.
Qed.

Lemma is_stopword_nil : Re.is_stopword [] = false.
Proof. reflexivity. Qed.

Lemma span_word_spec s :
  s = fst (span_word s) ++ snd (span_word s) /\
  Forall (fun c => is_word c = true) (fst (span_word s)) /\
  Re.boundary_after (snd (span_word s)) = true.
Proof.
  induction s as [|c s IH]; simpl.
  - repeat split; constructor.
  - destruct (is_word c) eqn:E.
    + destruct (span_word s) as [w r]. simpl in *.
      destruct IH as (-> & Hw & Hr). repeat split; auto.
    + simpl. rewrite E. repeat split; constructor.
Qed.

Lemma word_prefix_unique w1 : forall w2 r1 r2,
  w1 ++ r1 = w2 ++ r2 ->
  Forall (fun c => is_word c = true) w1 ->
  Forall (fun c => is_word c = true) w2 ->
  Re.boundary_after r1 = true ->
  Re.boundary_after r2 = true ->
  w1 = w2.
Proof.
  induction w1 as [|a w1 IH]; intros w2 r1 r2 E H1 H2 B1 B2.
  - destruct w2 as [|b w2]; [reflexivity|exfalso].
    simpl in E. subst r1. simpl in B1. inversion H2 as [|? ? Hb _]; subst.
    rewrite Hb in B1. discriminate.
  - destruct w2 as [|b w2].
    + exfalso. simpl in E. subst r2. simpl in B2. inversion H1 as [|? ? Ha _]; subst.
      rewrite Ha in B2. discriminate.
    + injection E as -> E. f_equal.
      inversion H1; subst. inversion H2; subst. eapply IH; eassumption.
Qed.

(** At the start of a word the pattern matches exactly when the word is
    a stopword. *)
Lemma stopword_at_word w rest :
  Forall (fun c => is_word c = true) w ->
  Re.boundary_after rest = true ->
  Re.stopword_at (w ++ rest) = Re.is_stopword w.
Proof.
  intros Hw Hr.
  destruct (Re.is_stopword w) eqn:E.
  - pose proof (is_stopword_length w E) as L.
    destruct w as [|c1 [|c2 [|c3 [|c4 [|c5 w]]]]]; try discriminate.
    simpl. unfold Re.stopword_at. now rewrite E, Hr.
  - unfold Re.stopword_at.
    destruct (w ++ rest) as [|c1 [|c2 [|c3 [|c4 tl]]]] eqn:Es; try reflexivity.
    destruct (Re.is_stopword [c1; c2; c3; c4]) eqn:E4; [|reflexivity].
    destruct (Re.boundary_after tl) eqn:Eb; [exfalso|reflexivity].
    (* the four characters are word characters, and the word stops there *)
    assert (w = [c1; c2; c3; c4]); [|congruence].
    apply (word_prefix_unique w [c1; c2; c3; c4] rest tl); auto.
    now apply is_stopword_words.
Qed.

(** Inside a word the scan copies. *)
Lemma sub_stopwords_copy w rest :
  Forall (fun c => is_word c = true) w ->
  Re.sub_stopwords_from true 0 (w ++ rest) = w ++ Re.sub_stopwords_from true 0 rest.
Proof.
  induction 1 as [|c w Hc _ IH]; [reflexivity|].
  simpl. rewrite Hc. simpl in IH. now rewrite IH.
Qed.

(** Inside a match the scan deletes. *)
Lemma sub_stopwords_skip w rest :
  Re.sub_stopwords_from true (length w) (w ++ rest) = Re.sub_stopwords_from true 0 rest.
Proof.
  induction w as [|c w IH]; [reflexivity|]. simpl. exact IH.
Qed.

Lemma sub_stopwords_after_word rest :
  Re.boundary_after rest = true ->
  Re.sub_stopwords_from true 0 rest
  = match rest with
    | [] => []
    | c :: r => c :: Re.sub_stopwords_from false 0 r
    end.
Proof.
  destruct rest as [|c r]; [reflexivity|]. simpl. intros Hc.
  apply negb_true_iff in Hc. now rewrite Hc.
Qed.

Lemma sub_words_app cur w rest :
  Forall (fun c => is_word c = true) w ->
  sub_words cur (w ++ rest) = sub_words (cur ++ w) rest.
Proof.
  intros Hw. revert cur. induction Hw as [|c w Hc _ IH]; intros cur.
  - now rewrite app_nil_r.
  - simpl. rewrite Hc, IH, <- app_assoc. reflexivity.
Qed.

Lemma stopword_at_head c s : Re.stopword_at (c :: s) = true -> is_word c = true.
Proof.
  unfold Re.stopword_at. destruct s as [|c2 [|c3 [|c4 tl]]]; try discriminate.
  intros H. apply andb_true_iff in H. destruct H as [H _].
  apply is_stopword_words in H. now inversion H.
Qed.

(** The scan of the regular expression and the word-by-word reading
    agree. *)
Lemma sub_stopwords_words_bounded n : forall s,
  (length s <= n)%nat -> Re.sub_stopwords s = sub_words [] s.
Proof.
  unfold Re.sub_stopwords.
  induction n as [|n IH]; intros s Hn.
  - destruct s; [reflexivity|simpl in Hn; lia].
  - destruct s as [|c s]; [reflexivity|].
    destruct (is_word c) eqn:Ec.
    + (* a word starts here *)
      destruct (span_word_spec (c :: s)) as (Es & Hw & Hr).
      destruct (span_word (c :: s)) as [w rest] eqn:Esp. simpl in Es, Hw, Hr.
      assert (Hwne : exists w', w = c :: w').
      { simpl in Esp. rewrite Ec in Esp. destruct (span_word s).
        injection Esp as <- _. eauto. }
      destruct Hwne as (w' & ->).
      assert (Hcont : Re.sub_stopwords_from true 0 rest
                      = match rest with [] => [] | x :: r => x :: sub_words [] r end).
      { rewrite (sub_stopwords_after_word rest Hr).
        destruct rest as [|x r]; [reflexivity|]. f_equal. apply IH.
        assert (L : length (c :: s) = length ((c :: w') ++ x :: r)) by now rewrite <- Es.
        rewrite length_app in L. simpl in L, Hn. lia. }
      assert (Hrhs : sub_words [] (c :: s)
                     = keep_word (c :: w')
                       ++ match rest with [] => [] | x :: r => x :: sub_words [] r end).
      { rewrite Es, sub_words_app by exact Hw. simpl app.
        destruct rest as [|x r]; simpl.
        - now rewrite app_nil_r.
        - simpl in Hr. apply negb_true_iff in Hr. now rewrite Hr. }
      rewrite Hrhs.
      transitivity (keep_word (c :: w') ++ Re.sub_stopwords_from true 0 rest);
        [|now rewrite Hcont].
      pose proof (stopword_at_word (c :: w') rest Hw Hr) as Hat. rewrite <- Es in Hat.
      cbn [Re.sub_stopwords_from]. cbn [negb andb]. rewrite Hat.
      unfold keep_word. destruct (Re.is_stopword (c :: w')) eqn:Est.
      * pose proof (is_stopword_length _ Est) as L. simpl in L.
        injection Es as Es. rewrite Es.
        replace 3%nat with (length w') by lia. apply sub_stopwords_skip.
      * injection Es as Es. rewrite Es, Ec.
        inversion Hw; subst. simpl. f_equal. now apply sub_stopwords_copy.
    + (* no word starts here *)
      assert (Hat : Re.stopword_at (c :: s) = false).
      { destruct (Re.stopword_at (c :: s)) eqn:E; [|reflexivity].
        apply stopword_at_head in E. congruence. }
      cbn [Re.sub_stopwords_from]. rewrite Hat, Ec. simpl.
      rewrite Ec. simpl. f_equal. apply IH. simpl in Hn. lia.
Qed.

Lemma sub_stopwords_words s : Re.sub_stopwords s = sub_words [] s.
Proof. apply (sub_stopwords_words_bounded (length s)). lia. Qed.

(** *** The words of a string *)

Lemma words_from_app cur w rest :
  Forall (fun c => is_word c = true) w ->
  words_from cur (w ++ rest) = words_from (cur ++ w) rest.
Proof.
  intros Hw. revert cur. induction Hw as [|c w Hc _ IH]; intros cur.
  - now rewrite app_nil_r.
  - simpl. rewrite Hc, IH, <- app_assoc. reflexivity.
Qed.

Lemma keep_word_words cur :
  Forall (fun c => is_word c = true) cur ->
  Forall (fun c => is_word c = true) (keep_word cur).
Proof. intros H. unfold keep_word. destruct (Re.is_stopword cur); [constructor|exact H]. Qed.

Lemma pending_keep_word cur :
  pending (keep_word cur)
  = filter (fun w => negb (Re.is_stopword w)) (pending cur).
Proof.
  unfold keep_word. destruct cur as [|c cur]; [reflexivity|].
  simpl. destruct (Re.is_stopword (c :: cur)); reflexivity.
Qed.

(** A string without stopwords among its words is left as it is. *)
Lemma sub_words_fixed s : forall cur,
  Forall (fun w => Re.is_stopword w = false) (words_from cur s) ->
  sub_words cur s = cur ++ s.
Proof.
  induction s as [|c s IH]; intros cur H; simpl in *.
  - rewrite app_nil_r. unfold keep_word.
    destruct cur as [|x cur]; [reflexivity|].
    simpl in H. inversion H as [|? ? E _]; subst. now rewrite E.
  - destruct (is_word c).
    + rewrite IH by exact H. now rewrite <- app_assoc.
    + apply Forall_app in H. destruct H as [Hp Hs].
      rewrite (IH [] Hs). simpl. f_equal.
      unfold keep_word. destruct cur as [|x cur]; [reflexivity|].
      simpl in Hp. inversion Hp as [|? ? E _]; subst. now rewrite E.
Qed.

(** The words that step 3 leaves are the words that are no stopwords. *)
Lemma words_sub_words s : forall cur,
  Forall (fun c => is_word c = true) cur ->
  words (sub_words cur s)
  = filter (fun w => negb (Re.is_stopword w)) (words_from cur s).
Proof.
  unfold words.
  induction s as [|c s IH]; intros cur Hcur; simpl.
  - rewrite <- pending_keep_word.
    rewrite <- (app_nil_r (keep_word cur)) at 1.
    rewrite words_from_app by now apply keep_word_words. reflexivity.
  - destruct (is_word c) eqn:Ec.
    + apply IH. apply Forall_app. split; [exact Hcur|]. now repeat constructor.
    + rewrite words_from_app by now apply keep_word_words.
      simpl. rewrite Ec, filter_app, <- pending_keep_word.
      f_equal. apply IH. constructor.
Qed.

Lemma sub_stopwords_no_stopword s :
  Forall (fun w => Re.is_stopword w = false) (words (Re.sub_stopwords s)).
Proof.
  rewrite sub_stopwords_words, words_sub_words by constructor.
  apply Forall_forall. intros w Hw. apply filter_In in Hw.
  destruct Hw as [_ Hw]. now apply negb_true_iff.
Qed.

Lemma sub_stopwords_fixed s :
  Forall (fun w => Re.is_stopword w = false) (words s) -> Re.sub_stopwords s = s.
Proof.
  intros H. rewrite sub_stopwords_words. now apply (sub_words_fixed s []).
Qed.

(** Collapsing white space keeps the words. *)
Lemma words_collapse s : forall cur in_run,
  (in_run = true -> cur = []) ->
  words_from cur (Re.sub_plus_from is_space (py " ") in_run s) = words_from cur s.
Proof.
  induction s as [|c s IH]; intros cur in_run Hrun; [reflexivity|].
  simpl. destruct (is_space c) eqn:Es.
  - rewrite (space_not_word c Es). destruct in_run.
    + rewrite (Hrun eq_refl). simpl. apply IH. auto.
    + simpl. f_equal. apply IH. auto.
  - simpl. destruct (is_word c); [apply IH; discriminate|].
    f_equal. apply IH. auto.
Qed.

Lemma words_lstrip s : words (lstrip_by is_space s) = words s.
Proof.
  unfold words. induction s as [|c s IH]; [reflexivity|].
  simpl. destruct (is_space c) eqn:Es; [|reflexivity].
  now rewrite (space_not_word c Es).
Qed.

(** Stripping characters that are no word characters keeps the words. *)
Lemma words_rstrip p s : forall cur,
  Forall (fun c => p c = true -> is_word c = false) s ->
  words_from cur (rstrip_by p s) = words_from cur s.
Proof.
  induction s as [|c s IH]; intros cur H; [reflexivity|].
  inversion H as [|? ? Hc Hs]; subst. simpl.
  destruct (rstrip_by p s) as [|x t] eqn:E.
  - destruct (p c) eqn:Ep.
    + rewrite (Hc eq_refl). simpl. rewrite <- (IH [] Hs). simpl. now rewrite app_nil_r.
    + simpl. destruct (is_word c).
      * now rewrite <- (IH _ Hs).
      * now rewrite <- (IH _ Hs).
  - simpl. destruct (is_word c).
    + now rewrite <- (IH _ Hs).
    + now rewrite <- (IH _ Hs).
Qed.

(** *** What each step keeps *)

Lemma sub_plus_from_Forall (P : ascii -> Prop) cls repl s : forall b,
  Forall P repl -> Forall P s -> Forall P (Re.sub_plus_from cls repl b s).
Proof.
  induction s as [|c s IH]; intros b Hr Hs; [constructor|].
  inversion Hs; subst. simpl. destruct (cls c).
  - destruct b; [now apply IH|]. apply Forall_app. split; [exact Hr|now apply IH].
  - constructor; [assumption|now apply IH].
Qed.

Lemma sub_plus_from_removed cls s : forall b,
  Forall (fun c => cls c = false) (Re.sub_plus_from cls [] b s).
Proof.
  induction s as [|c s IH]; intros b; [constructor|].
  simpl. destruct (cls c) eqn:E.
  - destruct b; apply IH.
  - constructor; [exact E|apply IH].
Qed.

Lemma sub_plus_from_fixed cls repl s : forall b,
  Forall (fun c => cls c = false) s -> Re.sub_plus_from cls repl b s = s.
Proof.
  induction s as [|c s IH]; intros b H; [reflexivity|].
  inversion H as [|? ? Hc Hs]; subst. simpl. rewrite Hc. f_equal. now apply IH.
Qed.

(** A string whose runs of [cls] are single copies of [r] is left as it
    is by the substitution of [r] for the runs. *)
Lemma sub_plus_from_single cls r s : forall b,
  Forall (fun c => cls c = true -> c = r) s ->
  no_double cls s ->
  (b = true -> head_not cls s) ->
  Re.sub_plus_from cls [r] b s = s.
Proof.
  induction s as [|c s IH]; intros b Hr Hd Hb; [reflexivity|].
  inversion Hr as [|? ? Hc Hs]; subst. simpl.
  assert (Hd' : no_double cls s).
  { simpl in Hd. destruct s; [exact I|apply Hd]. }
  destruct (cls c) eqn:E.
  - destruct b; [specialize (Hb eq_refl); simpl in Hb; congruence|].
    simpl. rewrite (Hc eq_refl) at 1. f_equal. apply IH; auto.
    intros _. simpl in Hd. destruct s as [|c' s]; [exact I|]. simpl. now apply Hd.
  - f_equal. apply IH; auto. discriminate.
Qed.

(** After the substitution of [r] for the runs of [cls], no two
    neighbours are in [cls]. *)
Lemma sub_plus_from_no_double cls r s : forall b,
  no_double cls (Re.sub_plus_from cls [r] b s) /\
  (b = true -> head_not cls (Re.sub_plus_from cls [r] b s)).
Proof.
  induction s as [|c s IH]; intros b; [split; simpl; auto|].
  simpl. destruct (cls c) eqn:E.
  - destruct b.
    + apply IH.
    + destruct (IH true) as [Hd Hh]. split; [|discriminate].
      simpl. destruct (Re.sub_plus_from cls [r] true s) as [|c' t] eqn:Et; [exact I|].
      split; [|exact Hd]. intros _. now apply Hh.
  - destruct (IH false) as [Hd _]. split; [|intros _; exact E].
    simpl. destruct (Re.sub_plus_from cls [r] false s) as [|c' t] eqn:Et; [exact I|].
    split; [|exact Hd]. congruence.
Qed.

Lemma sub_plus_from_runs cls r s : forall b,
  cls r = true ->
  Forall (fun c => cls c = true -> c = r) (Re.sub_plus_from cls [r] b s).
Proof.
  induction s as [|c s IH]; intros b Hr; [constructor|].
  simpl. destruct (cls c) eqn:E.
  - destruct b; [now apply IH|]. constructor; [auto|now apply IH].
  - constructor; [congruence|now apply IH].
Qed.

Lemma sub_stopwords_from_Forall (P : ascii -> Prop) s : forall b k,
  Forall P s -> Forall P (Re.sub_stopwords_from b k s).
Proof.
  induction s as [|c s IH]; intros b k H; [constructor|].
  inversion H; subst. cbn [Re.sub_stopwords_from]. destruct k; [|now apply IH].
  destruct (negb b && Re.stopword_at (c :: s)); [now apply IH|].
  constructor; [assumption|now apply IH].
Qed.

Lemma lstrip_by_suffix p s : exists lead, s = lead ++ lstrip_by p s.
Proof.
  induction s as [|c s IH]; [now exists []|]. simpl.
  destruct (p c); [|now exists []].
  destruct IH as (lead & E). exists (c :: lead). simpl. now rewrite <- E.
Qed.

Lemma rstrip_by_prefix p s : exists tail, s = rstrip_by p s ++ tail.
Proof.
  induction s as [|c s IH]; [now exists []|]. simpl.
  destruct IH as (tail & E). destruct (rstrip_by p s) as [|x t].
  - destruct (p c); [now exists (c :: s)|]. exists s. reflexivity.
  - exists tail. rewrite E at 1. reflexivity.
Qed.

Lemma lstrip_by_Forall (P : ascii -> Prop) p s : Forall P s -> Forall P (lstrip_by p s).
Proof.
  intros H. destruct (lstrip_by_suffix p s) as (lead & E). rewrite E in H.
  now apply Forall_app in H.
Qed.

Lemma rstrip_by_Forall (P : ascii -> Prop) p s : Forall P s -> Forall P (rstrip_by p s).
Proof.
  intros H. destruct (rstrip_by_prefix p s) as (tail & E). rewrite E in H.
  now apply Forall_app in H.
Qed.

Lemma no_double_tail p c s : no_double p (c :: s) -> no_double p s.
Proof. simpl. destruct s; [auto|]. now intros [_ H]. Qed.

Lemma no_double_app_l p a : forall b, no_double p (a ++ b) -> no_double p a.
Proof.
  induction a as [|c a IH]; intros b H; [exact I|].
  simpl. destruct a as [|c' a]; [exact I|].
  simpl in H. destruct H as [H1 H2]. split; [exact H1|]. apply (IH b). exact H2.
Qed.

Lemma no_double_app_r p a : forall b, no_double p (a ++ b) -> no_double p b.
Proof.
  induction a as [|c a IH]; intros b H; [exact H|].
  apply IH. apply (no_double_tail p c). exact H.
Qed.

Lemma lstrip_by_head p s : head_not p (lstrip_by p s).
Proof.
  induction s as [|c s IH]; [exact I|]. simpl.
  destruct (p c) eqn:E; [exact IH|exact E].
Qed.

Lemma lstrip_by_fixed p s : head_not p s -> lstrip_by p s = s.
Proof. destruct s as [|c s]; [reflexivity|]. simpl. now intros ->. Qed.

Lemma rstrip_by_head p q s : head_not q s -> head_not q (rstrip_by p s).
Proof.
  destruct s as [|c s]; [auto|]. simpl. intros H.
  destruct (rstrip_by p s); [destruct (p c)|]; simpl; auto.
Qed.

Lemma rstrip_by_map p (g : ascii -> ascii) s :
  (forall c, p (g c) = p c) ->
  rstrip_by p (map g s) = map g (rstrip_by p s).
Proof.
  intros Hg. induction s as [|c s IH]; [reflexivity|].
  simpl. rewrite IH, Hg. destruct (rstrip_by p s); [destruct (p c)|]; reflexivity.
Qed.

Lemma no_double_map (p q : ascii -> bool) (g : ascii -> ascii) s :
  Forall (fun c => q (g c) = true -> p c = true) s ->
  Forall (fun c => p c = true -> q (g c) = true) s ->
  no_double p s -> no_double q (map g s).
Proof.
  induction s as [|c s IH]; intros H1 H2 Hd; [exact I|].
  inversion H1 as [|? ? Hc Hs]; subst. inversion H2 as [|? ? Hc2 Hs2]; subst.
  destruct s as [|c' s]; [exact I|].
  simpl in Hd. destruct Hd as [Hd1 Hd2].
  change (map g (c :: c' :: s)) with (g c :: g c' :: map g s). split.
  - intros Hq. specialize (Hd1 (Hc Hq)).
    inversion Hs as [|? ? Hc' _]; subst.
    destruct (q (g c')) eqn:E; [|reflexivity]. specialize (Hc' eq_refl). congruence.
  - apply (IH Hs Hs2 Hd2).
Qed.

(** *** The sanitizer on ASCII names *)

Lemma Forall_map_impl (P Q : ascii -> Prop) (g : ascii -> ascii) s :
  (forall c, P c -> Q (g c)) -> Forall P s -> Forall Q (map g s).
Proof.
  intros Hg H. induction H; simpl; constructor; auto.
Qed.

Lemma separators_to_space c :
  is_ascii7 c = true -> is_digit c = false ->
  plain (if is_char "-" (if is_char "_" c then " " else c) then " "
         else if is_char "_" c then " " else c)%char = true.
Proof. by_cases_on c. Qed.

Lemma underscore_round_trip c :
  plain c = true ->
  (if is_char "-" (if is_char "_" (if is_char " " c then "_" else c) then " "
                   else if is_char " " c then "_" else c)
   then " "
   else if is_char "_" (if is_char " " c then "_" else c) then " "
        else if is_char " " c then "_" else c)%char = c.
Proof. by_cases_on c. Qed.

Lemma underscore_no_digit c :
  plain c = true -> is_digit (if is_char " " c then "_" else c)%char = false.
Proof. by_cases_on c. Qed.

Lemma underscore_from_space c :
  plain c = true ->
  is_char "_" (if is_char " " c then "_" else c)%char = true -> is_space c = true.
Proof. by_cases_on c. Qed.

Lemma underscore_not_alpha c :
  not_alpha (if is_char " " c then "_" else c)%char = not_alpha c.
Proof. by_cases_on c. Qed.

Lemma underscore_keeps_letter c :
  is_alpha c = true -> (if is_char " " c then "_" else c)%char = c.
Proof. by_cases_on c. Qed.

Lemma plain_not_alpha_not_word c :
  plain c = true -> not_alpha c = true -> is_word c = false.
Proof. by_cases_on c. Qed.

Lemma is_char_true x c : is_char x c = true -> c = x.
Proof. unfold is_char. intros H. apply Ascii.eqb_eq in H. congruence. Qed.

(** Underscores for spaces: no two underscores meet where no two spaces
    met. *)
Lemma underscores_single y :
  Forall (fun c => plain c = true) y ->
  Forall (fun c => is_space c = true -> c = " "%char) y ->
  no_double is_space y ->
  Re.sub_plus (is_char "_") (py "_") (replace_char " " "_" y) = replace_char " " "_" y.
Proof.
  intros Hp Hs Hd. unfold Re.sub_plus. apply sub_plus_from_single.
  - apply Forall_forall. intros c _. apply is_char_true.
  - unfold replace_char. apply (no_double_map is_space); [| |exact Hd].
    + eapply Forall_impl; [|exact Hp]. intros c Hc. now apply underscore_from_space.
    + eapply Forall_impl; [|exact Hs]. intros c Hc Hsp. now rewrite (Hc Hsp).
  - discriminate.
Qed.

(** Steps 1 to 6 of an ASCII name give a normal string with underscores
    for its spaces. *)
Lemma sanitize_steps_normal base :
  Forall (fun c => is_ascii7 c = true) base ->
  exists y, normal y /\ sanitize_steps base = replace_char " " "_" y.
Proof.
  intros Hascii. unfold sanitize_steps.
  set (x1 := Re.sub_plus is_digit [] base).
  set (x2 := replace_char "-" " " (replace_char "_" " " x1)).
  set (x3 := Re.sub_stopwords x2).
  set (x4 := strip (Re.sub_plus is_space (py " ") x3)).
  assert (P2 : Forall (fun c => plain c = true) x2).
  { unfold x2, replace_char. rewrite map_map.
    apply (Forall_map_impl (fun c => is_ascii7 c = true /\ is_digit c = false)).
    - intros c [H1 H2]. now apply separators_to_space.
    - apply Forall_and.
      + unfold x1, Re.sub_plus. apply sub_plus_from_Forall; [constructor|exact Hascii].
      + apply sub_plus_from_removed. }
  assert (P3 : Forall (fun c => plain c = true) x3).
  { apply sub_stopwords_from_Forall, P2. }
  assert (P4 : Forall (fun c => plain c = true) x4).
  { unfold x4, strip. apply rstrip_by_Forall, lstrip_by_Forall.
    apply sub_plus_from_Forall; [repeat constructor|exact P3]. }
  assert (S4 : Forall (fun c => is_space c = true -> c = " "%char) x4).
  { unfold x4, strip. apply rstrip_by_Forall, lstrip_by_Forall.
    apply sub_plus_from_runs. reflexivity. }
  assert (D4 : no_double is_space x4).
  { unfold x4, strip.
    destruct (sub_plus_from_no_double is_space " "%char x3 false) as [Hd _].
    destruct (lstrip_by_suffix is_space (Re.sub_plus is_space (py " ") x3)) as (lead & El).
    destruct (rstrip_by_prefix is_space
                (lstrip_by is_space (Re.sub_plus is_space (py " ") x3))) as (tail & Er).
    unfold Re.sub_plus in El, Er |- *. change (py " ") with [" "%char] in *.
    rewrite El in Hd. apply no_double_app_r in Hd.
    rewrite Er in Hd. now apply no_double_app_l in Hd. }
  assert (H4 : head_not is_space x4).
  { unfold x4, strip. apply rstrip_by_head, lstrip_by_head. }
  assert (W4 : Forall (fun w => Re.is_stopword w = false) (words x4)).
  { unfold x4, strip, words.
    rewrite words_rstrip.
    2:{ apply Forall_forall. intros c _. apply space_not_word. }
    fold (words (lstrip_by is_space (Re.sub_plus is_space (py " ") x3))).
    rewrite words_lstrip. unfold words, Re.sub_plus.
    rewrite words_collapse by discriminate.
    apply sub_stopwords_no_stopword. }
  exists (rstrip_by not_alpha x4). split.
  - repeat split.
    + now apply rstrip_by_Forall.
    + now apply rstrip_by_Forall.
    + destruct (rstrip_by_prefix not_alpha x4) as (tail & E).
      rewrite E in D4. now apply no_double_app_l in D4.
    + now apply rstrip_by_head.
    + destruct (rstrip_by_cases not_alpha x4) as [->|(body & c & -> & Hc)]; [now left|right].
      exists body, c. split; [reflexivity|]. now apply not_alpha_false.
    + unfold words. rewrite words_rstrip; [exact W4|].
      eapply Forall_impl; [|exact P4]. intros c Hc. now apply plain_not_alpha_not_word.
  - rewrite (underscores_single x4 P4 S4 D4).
    unfold Re.sub_plus_end, replace_char. apply rstrip_by_map.
    intros c. apply underscore_not_alpha.
Qed.

(** Steps 1 to 6 leave a normal string, in underscores, as it is. *)
Lemma sanitize_steps_fixed y :
  normal y -> y <> [] ->
  sanitize_steps (replace_char " " "_" y) = replace_char " " "_" y.
Proof.
  intros (Hp & Hs & Hd & Hh & He & Hw) Hne.
  destruct He as [->|He]; [congruence|].
  unfold sanitize_steps.
  (* 1 *)
  assert (E1 : Re.sub_plus is_digit [] (replace_char " " "_" y) = replace_char " " "_" y).
  { apply sub_plus_from_fixed. unfold replace_char.
    apply (Forall_map_impl (fun c => plain c = true)); [|exact Hp].
    intros c Hc. now apply underscore_no_digit. }
  rewrite E1.
  (* 2 *)
  assert (E2 : replace_char "-" " " (replace_char "_" " " (replace_char " " "_" y)) = y).
  { unfold replace_char. rewrite !map_map.
    rewrite <- (map_id y) at 2. apply map_ext_in. intros c Hc.
    apply underscore_round_trip. rewrite Forall_forall in Hp. now apply Hp. }
  rewrite E2.
  (* 3 *)
  rewrite (sub_stopwords_fixed y Hw).
  (* 4 *)
  assert (E4 : Re.sub_plus is_space (py " ") y = y).
  { apply sub_plus_from_single; [exact Hs|exact Hd|discriminate]. }
  rewrite E4.
  assert (E4' : strip y = y).
  { unfold strip. rewrite (lstrip_by_fixed _ _ Hh).
    destruct He as (body & c & -> & Hc). apply rstrip_by_snoc.
    now apply alpha_not_space. }
  rewrite E4'.
  (* 5 *)
  rewrite (underscores_single y Hp Hs Hd).
  (* 6 *)
  destruct He as (body & c & -> & Hc). unfold Re.sub_plus_end, replace_char.
  rewrite map_app. cbn [map]. rewrite (underscore_keeps_letter c Hc).
  apply rstrip_by_snoc. now apply not_alpha_false.
Qed.

Lemma replace_char_nil a b y : replace_char a b y = [] -> y = [].
Proof. unfold replace_char. destruct y; [reflexivity|discriminate]. Qed.

(** [_sanitize_base] is idempotent on ASCII names. *)
Lemma sanitize_base_idempotent base :
  Forall (fun c => is_ascii7 c = true) base ->
  _sanitize_base (_sanitize_base base) = _sanitize_base base.
Proof.
  intros Hascii.
  destruct (sanitize_steps_normal base Hascii) as (y & Hy & E).
  unfold _sanitize_base at 2 3. rewrite E.
  destruct (replace_char " " "_" y) as [|c t] eqn:Ey.
  - vm_compute. reflexivity.
  - unfold _sanitize_base. rewrite <- Ey.
    rewrite sanitize_steps_fixed; [now rewrite Ey|exact Hy|].
    intros ->. discriminate.
Qed.

(** *** Paths *)

Lemma is_char_false x c : is_char x c = false <-> c <> x.
Proof.
  unfold is_char. rewrite Ascii.eqb_neq. split; congruence.
Qed.

Lemma split_from_bare sep s : forall cur,
  no_char sep s -> split_from sep cur s = [rev cur ++ s].
Proof.
  induction s as [|c s IH]; intros cur H; simpl.
  - now rewrite app_nil_r.
  - inversion H as [|? ? Hc Hs]; subst. rewrite Hc, IH by exact Hs.
    simpl. now rewrite <- app_assoc.
Qed.

Lemma split_from_no_sep sep s : forall cur,
  no_char sep cur -> Forall (no_char sep) (split_from sep cur s).
Proof.
  induction s as [|c s IH]; intros cur Hcur; simpl.
  - constructor; [|constructor]. now apply Forall_rev.
  - destruct (is_char sep c) eqn:E.
    + constructor; [now apply Forall_rev|]. apply IH. constructor.
    + apply IH. constructor; assumption.
Qed.

Lemma last_Forall {A} (Q : A -> Prop) l d : Forall Q l -> Q d -> Q (last l d).
Proof.
  intros H Hd. induction H as [|x l Hx Hl IH]; [exact Hd|].
  destruct l; [exact Hx|exact IH].
Qed.

Lemma name_of_str_no_slash p : no_char "/" (name (of_str p)).
Proof.
  unfold name, of_str. simpl. apply last_Forall; [|constructor].
  apply Forall_forall. intros x Hx. apply filter_In in Hx. destruct Hx as [Hx _].
  pose proof (split_from_no_sep "/"%char p [] (Forall_nil _)) as H.
  rewrite Forall_forall in H. now apply H.
Qed.

Lemma no_char_firstn x n s : no_char x s -> no_char x (firstn n s).
Proof. intros H. rewrite <- (firstn_skipn n s) in H. now apply Forall_app in H. Qed.

Lemma no_char_skipn x n s : no_char x s -> no_char x (skipn n s).
Proof. intros H. rewrite <- (firstn_skipn n s) in H. now apply Forall_app in H. Qed.

Lemma stem_no_char x p : no_char x (name p) -> no_char x (stem p).
Proof.
  unfold stem. intros H. destruct (suffix_index (name p)); [now apply no_char_firstn|exact H].
Qed.

Lemma suffix_no_char x p : no_char x (name p) -> no_char x (PathLib.suffix p).
Proof.
  unfold PathLib.suffix. intros H.
  destruct (suffix_index (name p)); [now apply no_char_skipn|constructor].
Qed.

Lemma of_str_bare n :
  no_char "/" n -> n <> [] -> n <> py "." ->
  of_str n = {| root := []; parts := [n] |}.
Proof.
  intros Hs Hne Hdot. unfold of_str, split. rewrite split_from_bare by exact Hs.
  simpl rev. simpl app. f_equal.
  - destruct n as [|c n]; [congruence|]. unfold root_of.
    change (starts_with (py "//") (c :: n))
      with (Ascii.eqb "/" c && starts_with (py "/") n).
    change (starts_with (py "/") (c :: n)) with (Ascii.eqb "/" c && true).
    inversion Hs as [|? ? Hc _]; subst. unfold is_char in Hc. now rewrite Hc.
  - cbn [filter]. unfold str_eqb.
    destruct (list_eq_dec ascii_dec n []); [congruence|].
    destruct (list_eq_dec ascii_dec n (py ".")); [congruence|]. reflexivity.
Qed.

(** *** The last dot of a name *)

Lemma rfind_from_absent s : forall i last,
  no_char "." s -> rfind_from (py ".") s i last = last.
Proof.
  induction s as [|c s IH]; intros i last H; [reflexivity|].
  inversion H as [|? ? Hc Hs]; subst. cbn [rfind_from].
  change (starts_with (py ".") (c :: s)) with (Ascii.eqb "." c && true).
  unfold is_char in Hc. rewrite Hc. simpl. now apply IH.
Qed.

Lemma rfind_from_last_dot a e : forall i last,
  no_char "." e ->
  rfind_from (py ".") (a ++ "."%char :: e) i last = (i + Z.of_nat (length a))%Z.
Proof.
  induction a as [|c a IH]; intros i last He.
  - simpl. rewrite rfind_from_absent by exact He. lia.
  - simpl app. cbn [rfind_from]. rewrite IH by exact He. simpl length. lia.
Qed.

Lemma last_dot_split s :
  no_char "." s \/ exists a e, s = a ++ "."%char :: e /\ no_char "." e.
Proof.
  induction s as [|c s IH]; [left; constructor|].
  destruct IH as [Hn|(a & e & -> & He)].
  - destruct (is_char "." c) eqn:E.
    + right. exists [], s. split; [|exact Hn]. apply is_char_true in E. now subst.
    + left. now constructor.
  - right. exists (c :: a), e. now split.
Qed.

Lemma suffix_index_absent n : no_char "." n -> suffix_index n = None.
Proof.
  intros H. unfold suffix_index, rfind. now rewrite rfind_from_absent.
Qed.

Lemma suffix_index_last_dot a e :
  no_char "." e ->
  suffix_index (a ++ "."%char :: e)
  = match a, e with
    | _ :: _, _ :: _ => Some (length a)
    | _, _ => None
    end.
Proof.
  intros He. unfold suffix_index, rfind, len.
  rewrite rfind_from_last_dot by exact He. rewrite length_app.
  destruct a as [|x a], e as [|y e]; cbn [length];
    repeat match goal with
           | |- context [(?u <? ?v)%Z] => destruct (Z.ltb_spec u v)
           end; cbn [andb];
    try reflexivity; try (exfalso; lia); try (f_equal; lia).
Qed.

(** The suffix of a path is empty, or a dot followed by a non-empty rest
    without dots. *)
Lemma suffix_shape p :
  PathLib.suffix p = [] \/
  exists e, PathLib.suffix p = "."%char :: e /\ e <> [] /\ no_char "." e.
Proof.
  unfold PathLib.suffix.
  destruct (last_dot_split (name p)) as [Hn|(a & e & E & He)].
  - rewrite (suffix_index_absent _ Hn). now left.
  - rewrite E, (suffix_index_last_dot a e He).
    destruct a as [|x a]; [now left|]. destruct e as [|y e]; [now left|].
    right. exists (y :: e).
    rewrite skipn_app, skipn_all, Nat.sub_diag. simpl.
    split; [reflexivity|]. split; [discriminate|exact He].
Qed.

(** A name [clean ++ ext] splits back into [clean] and [ext]. *)
Lemma stem_suffix_of_join clean e :
  clean <> [] -> e <> [] -> no_char "." e ->
  suffix_index (clean ++ "."%char :: e) = Some (length clean).
Proof.
  intros Hc He Hd. rewrite (suffix_index_last_dot clean e Hd).
  destruct clean; [congruence|]. destruct e; [congruence|]. reflexivity.
Qed.

(** *** Applying [safe_out_path] to its own output *)

Lemma replace_char_Forall (P : ascii -> Prop) a b s :
  P b -> Forall P s -> Forall P (replace_char a b s).
Proof.
  intros Hb H. unfold replace_char.
  apply (Forall_map_impl P); [|exact H]. intros c Hc. now destruct (is_char a c).
Qed.

Lemma sanitize_steps_Forall (P : ascii -> Prop) base :
  P " "%char -> P "_"%char -> Forall P base -> Forall P (sanitize_steps base).
Proof.
  intros Hsp Hus H. unfold sanitize_steps, Re.sub_plus_end, Re.sub_plus, strip.
  apply rstrip_by_Forall.
  apply sub_plus_from_Forall; [now repeat constructor|].
  apply replace_char_Forall; [exact Hus|].
  apply rstrip_by_Forall, lstrip_by_Forall.
  apply sub_plus_from_Forall; [now repeat constructor|].
  apply sub_stopwords_from_Forall.
  apply replace_char_Forall; [exact Hsp|]. apply replace_char_Forall; [exact Hsp|].
  apply sub_plus_from_Forall; [constructor|exact H].
Qed.

Lemma sanitize_base_no_char x base :
  no_char x (py "converted") -> is_char x " " = false -> is_char x "_" = false ->
  no_char x base -> no_char x (_sanitize_base base).
Proof.
  intros Hc Hsp Hus H. unfold _sanitize_base.
  pose proof (sanitize_steps_Forall (fun c => is_char x c = false) base Hsp Hus H) as Hs.
  destruct (sanitize_steps base); [exact Hc|exact Hs].
Qed.

Lemma lower_char_idempotent c : lower_char (lower_char c) = lower_char c.
Proof. by_cases_on c. Qed.

Lemma lower_idempotent s : lower (lower s) = lower s.
Proof.
  unfold lower. rewrite map_map. apply map_ext. apply lower_char_idempotent.
Qed.

Lemma lower_char_slash c : is_char "/" c = false -> is_char "/" (lower_char c) = false.
Proof. by_cases_on c. Qed.

Lemma lower_char_dot c : is_char "." c = false -> is_char "." (lower_char c) = false.
Proof. by_cases_on c. Qed.

Lemma lower_char_colon c : is_char ":" c = false -> is_char ":" (lower_char c) = false.
Proof. by_cases_on c. Qed.

Lemma filter_fixed {A} (f : A -> bool) l : Forall (fun x => f x = true) l -> filter f l = l.
Proof.
  induction 1 as [|x l Hx _ IH]; [reflexivity|]. simpl. now rewrite Hx, IH.
Qed.

Lemma replace_char_fixed a b s : no_char a s -> replace_char a b s = s.
Proof.
  intros H. unfold replace_char. rewrite <- (map_id s) at 2.
  apply map_ext_in. intros c Hc. unfold no_char in H. rewrite Forall_forall in H.
  now rewrite (H c Hc).
Qed.

(** The base name that [safe_out_path] reads off a bare name. *)
Lemma out_base_bare n flat :
  no_char "/" n -> n <> [] -> n <> py "." ->
  (flat = true \/ no_char ":" n) ->
  out_base (of_str n) flat = stem (of_str n).
Proof.
  intros Hs Hne Hdot Hflat. unfold out_base.
  rewrite (of_str_bare n Hs Hne Hdot).
  assert (Hrel : (if flat then name {| root := []; parts := [n] |}
                  else replace_char "/" "_"
                         (filter (fun c => negb (is_char ":" c))
                                 (as_posix {| root := []; parts := [n] |}))) = n).
  { destruct flat; [reflexivity|]. destruct Hflat as [Hf|Hc]; [discriminate|].
    unfold as_posix. simpl root. simpl parts. simpl join. simpl app.
    rewrite filter_fixed.
    - now apply replace_char_fixed.
    - eapply Forall_impl; [|exact Hc]. intros c E. now rewrite E. }
  rewrite Hrel. now rewrite (of_str_bare n Hs Hne Hdot).
Qed.

(** The case without label.  On a source whose base name is ASCII and
    which has an extension or no dot at all, [safe_out_path] applied to
    its own output file name gives that name again.  (Applied without
    flattening, the output name must hold no colon, since colons are
    dropped from the path first.)  The statement with a label follows
    the facts on the shape of output names, further down. *)
Lemma safe_out_name_idempotent (p : str) (flat flat' : bool) :
  Forall (fun c => is_ascii7 c = true) (out_base (of_str p) flat) ->
  (PathLib.suffix (of_str p) <> [] \/ no_char "." (out_base (of_str p) flat)) ->
  (flat' = true \/ no_char ":" (safe_out_name (of_str p) flat [])) ->
  safe_out_name (of_str (safe_out_name (of_str p) flat [])) flat' []
  = safe_out_name (of_str p) flat [].
Proof.
  intros Hascii Hdots Hcolon.
  set (src := of_str p) in *.
  set (base := out_base src flat) in *.
  set (clean := _sanitize_base base).
  set (ext := lower (PathLib.suffix src)).
  assert (Eout : safe_out_name src flat [] = clean ++ ext).
  { unfold safe_out_name. now rewrite safe_out_stem_clean. }
  rewrite Eout in *.
  pose proof (sanitize_base_ends_in_letter base) as Hletter. fold clean in Hletter.
  pose proof (ends_in_letter_nonempty _ Hletter) as Hclean.
  (* no slash in the output name *)
  assert (Hbase_slash : no_char "/" base).
  { unfold base, out_base. apply stem_no_char, name_of_str_no_slash. }
  assert (Hclean_slash : no_char "/" clean).
  { apply sanitize_base_no_char; try reflexivity; [|exact Hbase_slash].
    repeat constructor. }
  assert (Hext_slash : no_char "/" ext).
  { unfold ext, lower. apply (Forall_map_impl (fun c => is_char "/" c = false)).
    - apply lower_char_slash.
    - apply suffix_no_char. unfold src. apply name_of_str_no_slash. }
  assert (Hout_slash : no_char "/" (clean ++ ext)).
  { apply Forall_app. now split. }
  assert (Hout_ne : clean ++ ext <> []).
  { destruct clean; [congruence|discriminate]. }
  assert (Hout_dot : clean ++ ext <> py ".").
  { destruct Hletter as (body & c & E & Hc). rewrite E, <- app_assoc.
    destruct body as [|b body].
    - simpl. intros [= -> _]. discriminate.
    - simpl. destruct body; discriminate. }
  (* the output name splits back into [clean] and [ext] *)
  assert (Hsplit : stem (of_str (clean ++ ext)) = clean /\
                   lower (PathLib.suffix (of_str (clean ++ ext))) = ext).
  { rewrite (of_str_bare _ Hout_slash Hout_ne Hout_dot).
    unfold stem, PathLib.suffix, name. simpl parts. simpl last.
    destruct (suffix_shape src) as [Es|(e & Es & Hne & He)].
    - (* no extension: no dot at all *)
      assert (Hext : ext = []) by (unfold ext; now rewrite Es).
      rewrite Hext, app_nil_r.
      destruct Hdots as [Hd|Hd]; [congruence|].
      assert (Hcd : no_char "." clean).
      { apply sanitize_base_no_char; try reflexivity; [|exact Hd]. repeat constructor. }
      rewrite (suffix_index_absent _ Hcd). now split.
    - assert (Hext : ext = "."%char :: lower e) by (unfold ext; now rewrite Es).
      assert (Hle : no_char "." (lower e)).
      { unfold lower. apply (Forall_map_impl (fun c => is_char "." c = false)); [|exact He].
        apply lower_char_dot. }
      assert (Hlne : lower e <> []) by (destruct e; [congruence|discriminate]).
      rewrite Hext, (stem_suffix_of_join clean (lower e) Hclean Hlne Hle).
      rewrite firstn_app, firstn_all, Nat.sub_diag, app_nil_r.
      rewrite skipn_app, skipn_all, Nat.sub_diag. simpl.
      split; [reflexivity|]. now rewrite lower_idempotent. }
  destruct Hsplit as [Hstem Hsuffix].
  unfold safe_out_name at 1. rewrite safe_out_stem_clean, Hsuffix.
  rewrite (out_base_bare _ flat' Hout_slash Hout_ne Hout_dot Hcolon), Hstem.
  simpl labelled. unfold clean. now rewrite sanitize_base_idempotent.
Qed.

Example safe_out_name_idempotent_kick :
  safe_out_name
    (of_str (safe_out_name (of_str (py "/in/Kick-Full 120 bpm__x_.WAV")) true [])) true []
  = safe_out_name (of_str (py "/in/Kick-Full 120 bpm__x_.WAV")) true [].
Proof.
  apply (safe_out_name_idempotent (py "/in/Kick-Full 120 bpm__x_.WAV") true true).
  - vm_compute. repeat constructor.
  - left. vm_compute. discriminate.
  - left. reflexivity.
Qed.

(** C6, as the spec states it, fails with a label: [kick.wav] with the
    label [_mix] becomes [kick_mix.wav], and that name with the same
    label becomes [kick_mix_mix.wav]. *)
Lemma safe_out_name_label_repeats :
  safe_out_name (of_str (py "kick.wav")) true (py "_mix") = py "kick_mix.wav" /\
  safe_out_name (of_str (py "kick_mix.wav")) true (py "_mix") = py "kick_mix_mix.wav" /\
  safe_out_name (of_str (safe_out_name (of_str (py "kick.wav")) true (py "_mix")))
                true (py "_mix")
  <> safe_out_name (of_str (py "kick.wav")) true (py "_mix").
Proof.
  split; [vm_compute; reflexivity|]. split; [vm_compute; reflexivity|].
  vm_compute. discriminate.
Qed.

(** The other conditions of [safe_out_name_idempotent] are needed too. *)

(** A letter outside ASCII hides a stopword from step 3 and is cut by
    step 6: [loop] followed by e-acute gives [loop], which gives
    [converted]. *)
Example sanitize_base_not_idempotent_latin1 :
  _sanitize_base (py "loop" ++ [ascii_of_N 233]) = py "loop" /\
  _sanitize_base (py "loop") = py "converted".
Proof. split; vm_compute; reflexivity. Qed.

(** A name that ends in a dot has no extension; its output may have one. *)
Example safe_out_name_trailing_dot :
  safe_out_name (of_str (py "a.B.")) true [] = py "a.B" /\
  safe_out_name (of_str (py "a.B")) true [] = py "a.b".
Proof. split; vm_compute; reflexivity. Qed.

(** Without flattening, colons are dropped from the path. *)
Example safe_out_name_colon :
  safe_out_name (of_str (py "a:b.wav")) true [] = py "a:b.wav" /\
  safe_out_name (of_str (py "a:b.wav")) false [] = py "ab.wav".
Proof. split; vm_compute; reflexivity. Qed.

(** C8.  The target BPM takes no part in the output path: two target
    tempos give the same joined path and, in any one state of the world,
    the same resolved path. *)
Theorem safe_out_path_ignores_target_bpm
        {World : Type} `{Worker.Collaborators World}
        (src out_dir : Path) (bpm1 bpm2 : Z) (flat_names : bool) (suffix : str)
        (s : Worker.state World) :
  safe_out_join src out_dir bpm1 flat_names suffix
  = safe_out_join src out_dir bpm2 flat_names suffix /\
  Worker.safe_out_path src out_dir bpm1 flat_names suffix s
  = Worker.safe_out_path src out_dir bpm2 flat_names suffix s.
Proof. split; reflexivity. Qed.

Example safe_out_path_collision :
  as_posix (safe_out_join (of_str (py "/in/a_120.wav")) (of_str (py "/out")) 100 true [])
  = py "/out/a.wav" /\
  as_posix (safe_out_join (of_str (py "/in/a_120.wav")) (of_str (py "/out")) 140 true [])
  = py "/out/a.wav".
Proof. split; vm_compute; reflexivity. Qed.

End NamingFacts.


(** * More about [atempo_chain]: the number of stages *)

Module TempoRange.
Import Tempo TempoFacts.
Local Open Scope Q_scope.

Lemma chain_product_half k :
  chain_product (repeat (1#2) k) * inject_Z (2 ^ Z.of_nat k) == 1.
Proof.
  induction k as [|k IH].
  - reflexivity.
  - rewrite Nat2Z.inj_succ, Z.pow_succ_r by lia.
    rewrite inject_Z_mult.
    change (chain_product (repeat (1#2) (S k)))
      with ((1#2) * chain_product (repeat (1#2) k)).
    setoid_replace ((1 # 2) * chain_product (repeat (1 # 2) k) *
                    (inject_Z 2 * inject_Z (2 ^ Z.of_nat k)))
      with (chain_product (repeat (1 # 2) k) * inject_Z (2 ^ Z.of_nat k)).
    + exact IH.
    + change (inject_Z 2) with 2. ring.
Qed.

Lemma finish_length body r : (length (finish body r) <= S (length body))%nat.
Proof.
  destruct (finish_cases body r) as [[_ ->]|[_ [[-> ->]|[_ ->]]]].
  - rewrite length_app. simpl. lia.
  - simpl. lia.
  - lia.
Qed.

Lemma pow2_pos k : (0 < 2 ^ Z.of_nat k)%Z.
Proof. apply Z.pow_pos_nonneg; lia. Qed.

Lemma pow2_lt_inv j n : (2 ^ Z.of_nat j < 2 ^ Z.of_nat n)%Z -> (j < n)%nat.
Proof.
  intros H. apply Nat2Z.inj_lt. apply (Z.pow_lt_mono_r_iff 2); [lia|lia|exact H].
Qed.

(** A chain of [n] stages within [0.5, 2.0] has a product between
    [2^-n] and [2^n]. *)
Lemma chain_product_bounds gs :
  Forall in_stage_range gs ->
  0 < chain_product gs /\
  chain_product gs <= inject_Z (2 ^ Z.of_nat (length gs)) /\
  1 <= chain_product gs * inject_Z (2 ^ Z.of_nat (length gs)).
Proof.
  induction 1 as [|g gs [Hlo Hhi] _ IH].
  - repeat split; discriminate.
  - destruct IH as (Hpos & Hup & Hdown).
    assert (Hg : 0 < g) by (apply Qlt_le_trans with (1#2); [reflexivity|exact Hlo]).
    change (chain_product (g :: gs)) with (g * chain_product gs).
    cbn [length]. rewrite Nat2Z.inj_succ, Z.pow_succ_r by lia.
    rewrite inject_Z_mult. change (inject_Z 2) with 2.
    set (P := chain_product gs) in *.
    set (N := inject_Z (2 ^ Z.of_nat (length gs))) in *.
    assert (HN : 0 < N).
    { unfold N. change 0 with (inject_Z 0). rewrite <- Zlt_Qlt. apply pow2_pos. }
    split; [|split].
    + apply Qmult_lt_0_compat; assumption.
    + apply Qle_trans with (2 * P).
      * apply Qmult_le_compat_r; [exact Hhi|apply Qlt_le_weak, Hpos].
      * apply Qmult_le_l; [reflexivity|exact Hup].
    + apply Qle_trans with (P * N); [exact Hdown|].
      setoid_replace (g * P * (2 * N)) with ((2 * g) * (P * N)) by ring.
      setoid_replace (P * N) with (1 * (P * N)) at 1 by ring.
      apply Qmult_le_compat_r.
      * setoid_replace 1 with (2 * (1#2)) by reflexivity.
        apply Qmult_le_l; [reflexivity|exact Hlo].
      * apply Qle_trans with 1; [discriminate|exact Hdown].
Qed.

(** The run of bounding stages is shorter than any chain for the same
    ratio. *)
Lemma run_shorter ratio k1 k2 r n :
  ratio == chain_product (repeat 2 k1 ++ repeat (1#2) k2) * r ->
  (k1 = O \/ k2 = O) ->
  (k1 <> O -> 1 < r) -> (k2 <> O -> r < 1) ->
  ratio <= inject_Z (2 ^ Z.of_nat n) ->
  1 <= ratio * inject_Z (2 ^ Z.of_nat n) ->
  (k1 + k2 <> 0 -> k1 + k2 < n)%nat.
Proof.
  intros Heq Hone Hk1 Hk2 Hup Hdown Hk.
  set (N := inject_Z (2 ^ Z.of_nat n)) in *.
  assert (HN : 0 < N).
  { unfold N. change 0 with (inject_Z 0). rewrite <- Zlt_Qlt. apply pow2_pos. }
  destruct Hone as [-> | ->].
  - (* a run of 0.5: 1 <= P r N < P N, and P 2^k2 = 1 *)
    simpl app in Heq. simpl Nat.add in *.
    assert (Hr1 : r < 1) by (apply Hk2; exact Hk).
    apply pow2_lt_inv. rewrite Zlt_Qlt. fold N.
    pose proof (chain_product_half k2) as Hh.
    set (P := chain_product (repeat (1#2) k2)) in *.
    assert (HP : 0 < P) by (apply chain_product_repeat_pos; reflexivity).
    apply Qmult_lt_l with (z := P); [exact HP|].
    rewrite Hh.
    apply Qle_lt_trans with (ratio * N); [exact Hdown|].
    rewrite Heq.
    setoid_replace (P * r * N) with (r * (P * N)) by ring.
    setoid_replace (P * N) with (1 * (P * N)) at 2 by ring.
    apply Qmult_lt_compat_r; [|exact Hr1].
    apply Qmult_lt_0_compat; assumption.
  - (* a run of 2.0: 2^k1 = P < P r <= N *)
    rewrite app_nil_r in Heq. rewrite Nat.add_0_r in *.
    assert (Hr1 : 1 < r) by (apply Hk1; exact Hk).
    apply pow2_lt_inv. rewrite Zlt_Qlt. fold N.
    rewrite <- chain_product_pow2.
    set (P := chain_product (repeat 2 k1)) in *.
    assert (HP : 0 < P) by (apply chain_product_repeat_pos; reflexivity).
    apply Qlt_le_trans with ratio; [|exact Hup].
    rewrite Heq.
    setoid_replace P with (P * 1) at 1 by ring.
    apply Qmult_lt_l; assumption.
Qed.

(** X1.  The list of factors is as short as a chain can be.  For every
    ratio above zero, no chain of stages within [0.5, 2.0], other than
    the empty one, whose product is the ratio has fewer stages than the
    list [atempo_chain] builds; and for a ratio between 1/8 and 8 the
    list has at most three factors.  (Line 147 prints one stage for each
    factor.) *)
Theorem atempo_chain_fewest_stages (ratio : Q) :
  0 < ratio ->
  exists fs,
    atempo_chain ratio = Ret fs /\
    (forall gs, gs <> [] -> Forall in_stage_range gs -> chain_product gs == ratio ->
                (length fs <= length gs)%nat) /\
    ((1#8) <= ratio -> ratio <= 8 -> (length fs <= 3)%nat).
Proof.
  intros Hpos.
  destruct (atempo_chain_shape _ Hpos)
    as (k1 & k2 & r & Hret & Hone & Hlo & Hhi & Heq & Hk1 & Hk2 & Hk0).
  exists (finish (repeat 2 k1 ++ repeat (1#2) k2) r). split; [exact Hret|].
  pose proof (finish_length (repeat 2 k1 ++ repeat (1#2) k2) r) as Hl.
  rewrite length_app, !repeat_length in Hl.
  set (fs := finish (repeat 2 k1 ++ repeat (1#2) k2) r) in *.
  assert (Hshort : forall n,
             n <> O ->
             ratio <= inject_Z (2 ^ Z.of_nat n) ->
             1 <= ratio * inject_Z (2 ^ Z.of_nat n) ->
             (length fs <= n)%nat).
  { intros n Hn Hup Hdown.
    destruct (Nat.eq_dec (k1 + k2) 0) as [Hz|Hnz]; [lia|].
    assert (Hlt : (k1 + k2 < n)%nat).
    { apply (run_shorter ratio k1 k2 r n); try assumption.
      - intros Hk. now apply Hk1.
      - intros Hk. now apply Hk2. }
    lia. }
  split.
  - intros gs Hne Hin Hprod.
    destruct (chain_product_bounds gs Hin) as (_ & Hup & Hdown).
    rewrite Hprod in Hup, Hdown.
    apply Hshort; [|exact Hup|exact Hdown].
    destruct gs; [congruence|discriminate].
  - intros Hge Hle. apply (Hshort 3%nat); [discriminate|exact Hle|].
    change (inject_Z (2 ^ Z.of_nat 3)) with 8.
    setoid_replace 1 with ((1#8) * 8) by reflexivity.
    apply Qmult_le_compat_r; [exact Hge|discriminate].
Qed.

Lemma atempo_chain_fewest_stages_witness :
  exists fs,
    atempo_chain (11 # 2) = Ret fs /\
    (forall gs, gs <> [] -> Forall in_stage_range gs -> chain_product gs == 11 # 2 ->
                (length fs <= length gs)%nat) /\
    ((1#8) <= 11 # 2 -> 11 # 2 <= 8 -> (length fs <= 3)%nat).
Proof. apply (atempo_chain_fewest_stages (11 # 2)). reflexivity. Defined.

End TempoRange.


(** * More about [guess_bpm_from_name]: what it can return *)

Module BpmSound.
Import PyStr PathLib Bpm BpmFacts Vocabulary.
Local Open Scope Z_scope.

Lemma digit_piece_cons c s g : digit_piece s g -> digit_piece (c :: s) g.
Proof.
  intros (pre & post & -> & Hd & Hl). exists (c :: pre), post. now repeat split.
Qed.

Lemma bpm_tagged_at_piece s g : Re.bpm_tagged_at s = Some g -> digit_piece s g.
Proof.
  unfold Re.bpm_tagged_at.
  destruct s as [|b [|p [|m rest]]]; try discriminate.
  destruct (is_char "b" (lower_char b) && is_char "p" (lower_char p) &&
            is_char "m" (lower_char m)); [|discriminate].
  intros Hg.
  destruct (lstrip_by_split Re.is_tag_sep rest) as (seps & Hrest & _).
  destruct (digits_2_3_sound _ _ Hg) as (post & Hs & Hd & Hl & _).
  exists (b :: p :: m :: seps), post. split; [|now split].
  simpl. rewrite <- Hs, <- Hrest. reflexivity.
Qed.

(** The group of a tagged match is a piece of the string. *)
Lemma bpm_tagged_search_piece s : forall g,
  Re.bpm_tagged_search s = Some g -> digit_piece s g.
Proof.
  induction s as [|c s IH]; intros g; rewrite bpm_tagged_search_eq.
  - destruct (Re.bpm_tagged_at []) eqn:E; [|discriminate].
    intros [= <-]. now apply bpm_tagged_at_piece.
  - destruct (Re.bpm_tagged_at (c :: s)) eqn:E.
    + intros [= <-]. now apply bpm_tagged_at_piece.
    + intros H. apply digit_piece_cons. now apply IH.
Qed.

Lemma contains_cons sub c s : contains sub s = true -> contains sub (c :: s) = true.
Proof. intros H. cbn [contains]. rewrite H. apply orb_true_r. Qed.

Lemma contains_occurrence sub pre post : contains sub (pre ++ sub ++ post) = true.
Proof.
  induction pre as [|c pre IH].
  - simpl app. destruct (sub ++ post) eqn:E; cbn [contains];
      rewrite <- E, starts_with_app; reflexivity.
  - simpl app. now apply contains_cons.
Qed.

(** The decimal text of an in-range value read from a piece of [s]
    occurs in [s]. *)
Lemma piece_text_occurs s g :
  digit_piece s g ->
  in_bpm_range (int_of_digits g) = true ->
  contains (str_of_int (int_of_digits g)) s = true.
Proof.
  intros (pre & post & -> & Hd & Hl) Hr.
  destruct (str_of_int_suffix g Hd Hl Hr) as (zeros & Ez).
  rewrite Ez at 2. rewrite <- app_assoc, app_assoc.
  apply contains_occurrence.
Qed.

(** Where the answer of [guess_bpm_from_name] comes from. *)
Lemma guess_bpm_origin name v :
  guess_bpm_from_name name = Some v ->
  tagged_bpm (stem (of_str name)) = Some v \/
  In v (candidates (stem (of_str name))).
Proof.
  unfold guess_bpm_from_name. cbv zeta.
  set (base := stem (of_str name)).
  destruct (tagged_bpm base) as [b|]; [intros [= <-]; now left|].
  destruct (candidates base) as [|c0 cs] eqn:Ec; [discriminate|].
  set (scored := map (fun c => (score base c, c)) (c0 :: cs)).
  intros Hv. right.
  assert (Ev : v = snd (last (sort_by (sort_key base) scored) (0, c0))) by congruence.
  rewrite Ev. clear Hv Ev.
  assert (Hne : sort_by (sort_key base) scored <> []).
  { intro E.
    assert (Hin : In (score base c0, c0) (sort_by (sort_key base) scored)).
    { apply sort_by_In. unfold scored. simpl. now left. }
    rewrite E in Hin. destruct Hin. }
  pose proof (last_In (sort_by (sort_key base) scored) (0, c0) Hne) as Hl.
  apply sort_by_In in Hl. unfold scored in Hl.
  apply in_map_iff in Hl. destruct Hl as (c & Hc & Hin).
  fold scored in Hc. rewrite <- Hc. exact Hin.
Qed.

Lemma guess_bpm_in_range_occurs name v :
  guess_bpm_from_name name = Some v ->
  in_bpm_range v = true /\
  contains (str_of_int v) (stem (of_str name)) = true.
Proof.
  intros Hg.
  destruct (guess_bpm_origin name v Hg) as [Ht|Hc].
  - unfold tagged_bpm in Ht.
    destruct (Re.bpm_tagged_search (stem (of_str name))) as [g|] eqn:Es; [|discriminate].
    cbv zeta in Ht.
    destruct (in_bpm_range (int_of_digits g)) eqn:Er; [|discriminate].
    injection Ht as <-. split; [exact Er|].
    apply piece_text_occurs; [|exact Er]. now apply bpm_tagged_search_piece.
  - unfold candidates in Hc. apply filter_In in Hc. destruct Hc as [Hin Hr].
    apply in_map_iff in Hin. destruct Hin as (g & <- & Hin).
    split; [exact Hr|]. apply piece_text_occurs; [|exact Hr].
    exact (findall_2_3_from_occurs _ false 0%nat g Hin).
Qed.

Lemma guess_bpm_bounds name v :
  guess_bpm_from_name name = Some v -> 40 <= v <= 220.
Proof.
  intros Hg. destruct (guess_bpm_in_range_occurs name v Hg) as [Hr _].
  unfold in_bpm_range, BPM_RANGE in Hr. simpl in Hr.
  apply andb_true_iff in Hr. destruct Hr as [H1 H2].
  apply Z.leb_le in H1, H2. lia.
Qed.

(** X2.  For a file name over the code points 0..255, whose decimal
    digits are [0] to [9]: whatever [guess_bpm_from_name] returns is a
    tempo of the accepted range (40 to 220, so never zero) whose decimal
    text occurs in the stem of the name: the function returns no value it
    did not read. *)
Theorem guess_bpm_read_from_name (name : str) (v : Z) :
  guess_bpm_from_name name = Some v ->
  in_bpm_range v = true /\
  v <> 0 /\
  contains (str_of_int v) (stem (of_str name)) = true.
Proof.
  intros Hg.
  destruct (guess_bpm_in_range_occurs name v Hg) as [Hr Hc].
  repeat split; try assumption.
  intros ->. discriminate Hr.
Qed.

Lemma guess_bpm_read_from_name_witness :
  in_bpm_range 128 = true /\
  128 <> 0 /\
  contains (str_of_int 128) (stem (of_str (py "intro_bpm128_mix.wav"))) = true.
Proof.
  apply (guess_bpm_read_from_name (py "intro_bpm128_mix.wav") 128).
  vm_compute. reflexivity.
Defined.

(** No piece of two digits in a string without digits. *)
Lemma no_digit_no_piece s g :
  Forall (fun c => is_digit c = false) s -> ~ digit_piece s g.
Proof.
  intros Hs (pre & post & -> & Hd & Hl).
  apply Forall_app in Hs. destruct Hs as [_ Hs].
  apply Forall_app in Hs. destruct Hs as [Hs _].
  destruct g as [|c g]; [simpl in Hl; lia|].
  inversion Hs; subst. inversion Hd; subst. congruence.
Qed.

(** X3.  A name whose stem holds no digit has no tempo: the answer is [None],
    whatever else the name says. *)
Theorem guess_bpm_without_digits (name : str) :
  Forall (fun c => is_digit c = false) (stem (of_str name)) ->
  guess_bpm_from_name name = None.
Proof.
  intros Hs.
  destruct (guess_bpm_from_name name) as [v|] eqn:E; [exfalso|reflexivity].
  destruct (guess_bpm_origin name v E) as [Ht|Hc].
  - unfold tagged_bpm in Ht.
    destruct (Re.bpm_tagged_search (stem (of_str name))) as [g|] eqn:Es; [|discriminate].
    apply (no_digit_no_piece _ g Hs). now apply bpm_tagged_search_piece.
  - unfold candidates in Hc. apply filter_In in Hc. destruct Hc as [Hin _].
    apply in_map_iff in Hin. destruct Hin as (g & _ & Hin).
    apply (no_digit_no_piece _ g Hs).
    exact (findall_2_3_from_occurs _ false 0%nat g Hin).
Qed.

Lemma guess_bpm_without_digits_witness :
  guess_bpm_from_name (py "bpm_groove_loop.mp3") = None.
Proof.
  apply (guess_bpm_without_digits (py "bpm_groove_loop.mp3")).
  vm_compute. repeat constructor.
Defined.

End BpmSound.


(** * More about [_sanitize_base] and [safe_out_path]: the shape of a name *)

Module NamingShape.
Import PyStr PathLib Naming NamingFacts.

(** *** What steps 3 to 6 keep *)

Lemma steps_3_6_Forall (P : ascii -> Prop) x :
  P " "%char -> P "_"%char -> Forall P x ->
  Forall P (Re.sub_plus_end not_alpha
              (Re.sub_plus (is_char "_") (py "_")
                 (replace_char " " "_"
                    (strip (Re.sub_plus is_space (py " ") (Re.sub_stopwords x)))))).
Proof.
  intros Hsp Hus H. unfold Re.sub_plus_end, Re.sub_plus, strip.
  apply rstrip_by_Forall.
  apply sub_plus_from_Forall; [now repeat constructor|].
  apply replace_char_Forall; [exact Hus|].
  apply rstrip_by_Forall, lstrip_by_Forall.
  apply sub_plus_from_Forall; [now repeat constructor|].
  apply sub_stopwords_from_Forall. exact H.
Qed.

Lemma replace_char_removes a b s :
  is_char a b = false -> no_char a (replace_char a b s).
Proof.
  intros Hab. unfold no_char, replace_char. apply Forall_forall.
  intros c Hc. apply in_map_iff in Hc. destruct Hc as (x & <- & _).
  destruct (is_char a x) eqn:E; [exact Hab|exact E].
Qed.

Lemma space_to_underscore_no_space x :
  Forall (fun c => is_space c = true -> c = " "%char) x ->
  Forall (fun c => is_space c = false) (replace_char " " "_" x).
Proof.
  intros H. unfold replace_char. apply Forall_forall.
  intros c Hc. apply in_map_iff in Hc. destruct Hc as (y & <- & Hy).
  rewrite Forall_forall in H. specialize (H y Hy).
  destruct (is_char " " y) eqn:E; [reflexivity|].
  destruct (is_space y) eqn:Es; [|reflexivity].
  rewrite (H eq_refl) in E. discriminate.
Qed.

Lemma space_is_space c : is_char " " c = true -> is_space c = true.
Proof. intros H. apply is_char_true in H. now subst. Qed.

Lemma sub_plus_from_head cls repl s :
  head_not cls s -> head_not cls (Re.sub_plus_from cls repl false s).
Proof.
  destruct s as [|c s]; [auto|]. simpl. intros H. now rewrite H.
Qed.

(** Steps 1 to 6 on any name: what the result is free of. *)
Lemma sanitize_steps_shape base :
  Forall (fun c => is_digit c = false) (sanitize_steps base) /\
  Forall (fun c => is_space c = false) (sanitize_steps base) /\
  no_char "-" (sanitize_steps base) /\
  no_double (is_char "_") (sanitize_steps base) /\
  head_not (is_char "_") (sanitize_steps base).
Proof.
  unfold sanitize_steps.
  set (x1 := Re.sub_plus is_digit [] base).
  set (x2 := replace_char "-" " " (replace_char "_" " " x1)).
  set (x3 := Re.sub_stopwords x2).
  set (x4 := strip (Re.sub_plus is_space (py " ") x3)).
  set (x5 := replace_char " " "_" x4).
  set (x6 := Re.sub_plus (is_char "_") (py "_") x5).
  split; [|split; [|split; [|split]]].
  - apply steps_3_6_Forall; try reflexivity.
    unfold x2. apply replace_char_Forall; [reflexivity|].
    apply replace_char_Forall; [reflexivity|].
    apply sub_plus_from_removed.
  - unfold Re.sub_plus_end. apply rstrip_by_Forall.
    unfold x6, Re.sub_plus. apply sub_plus_from_Forall; [now repeat constructor|].
    unfold x5. apply space_to_underscore_no_space.
    unfold x4, strip. apply rstrip_by_Forall, lstrip_by_Forall.
    apply sub_plus_from_runs. reflexivity.
  - apply (steps_3_6_Forall (fun c => is_char "-" c = false)); try reflexivity.
    unfold x2. now apply replace_char_removes.
  - unfold Re.sub_plus_end.
    destruct (rstrip_by_prefix not_alpha x6) as (tail & E).
    destruct (sub_plus_from_no_double (is_char "_") "_"%char x5 false) as [Hd _].
    change (Re.sub_plus_from (is_char "_") ["_"%char] false x5) with x6 in Hd.
    rewrite E in Hd. now apply no_double_app_l in Hd.
  - unfold Re.sub_plus_end. apply rstrip_by_head.
    unfold x6, Re.sub_plus. apply sub_plus_from_head.
    assert (U4 : no_char "_" x4).
    { unfold x4, strip. apply rstrip_by_Forall, lstrip_by_Forall.
      apply sub_plus_from_Forall; [now repeat constructor|].
      apply sub_stopwords_from_Forall.
      unfold x2. apply replace_char_Forall; [reflexivity|].
      now apply replace_char_removes. }
    assert (H4 : head_not is_space x4).
    { unfold x4, strip. apply rstrip_by_head, lstrip_by_head. }
    unfold x5. destruct x4 as [|c t]; [exact I|].
    inversion U4 as [|? ? Hc _]; subst. cbn [head_not] in H4.
    unfold replace_char. cbn [map head_not].
    destruct (is_char " " c) eqn:E; [|exact Hc].
    apply space_is_space in E. congruence.
Qed.

Lemma sanitize_base_free base :
  Forall (fun c => is_digit c = false) (_sanitize_base base) /\
  Forall (fun c => is_space c = false) (_sanitize_base base) /\
  no_char "-" (_sanitize_base base) /\
  no_double (is_char "_") (_sanitize_base base) /\
  head_not (is_char "_") (_sanitize_base base).
Proof.
  pose proof (sanitize_steps_shape base) as H.
  unfold _sanitize_base. destruct (sanitize_steps base) as [|c s]; [|exact H].
  repeat split; repeat constructor.
Qed.

(** X4.  Whatever the name, [_sanitize_base] returns a string without digits,
    without white space and without hyphens, in which no two underscores
    meet and which does not start with one.  (That it ends in a letter is
    part of the statement on the whole stem.) *)
Theorem sanitize_base_shape (base : str) :
  Forall (fun c => is_digit c = false) (_sanitize_base base) /\
  Forall (fun c => is_space c = false) (_sanitize_base base) /\
  no_char "-" (_sanitize_base base) /\
  no_double (is_char "_") (_sanitize_base base) /\
  head_not (is_char "_") (_sanitize_base base).
Proof. exact (sanitize_base_free base). Qed.

(** *** ASCII names *)

Lemma underscore_space_round_trip c :
  plain c = true ->
  (if is_char "_" (if is_char " " c then "_" else c) then " "
   else if is_char " " c then "_" else c)%char = c.
Proof. by_cases_on c. Qed.

(** X5.  On an ASCII name [_sanitize_base] reaches a fixed point at once, and
    none of the words of its result (the runs of letters between the
    underscores and the other signs) is [drum], [loop] or [full], in any
    case of the letters. *)
Theorem sanitize_base_ascii (base : str) :
  Forall (fun c => is_ascii7 c = true) base ->
  _sanitize_base (_sanitize_base base) = _sanitize_base base /\
  Forall (fun w => Re.is_stopword w = false)
         (words (replace_char "_" " " (_sanitize_base base))).
Proof.
  intros Hascii. split; [now apply sanitize_base_idempotent|].
  destruct (sanitize_steps_normal base Hascii) as (y & Hy & E).
  unfold _sanitize_base. rewrite E.
  destruct (replace_char " " "_" y) as [|c t] eqn:Ey.
  - vm_compute. repeat constructor.
  - rewrite <- Ey.
    destruct Hy as (Hp & _ & _ & _ & _ & Hw).
    assert (Er : replace_char "_" " " (replace_char " " "_" y) = y).
    { unfold replace_char. rewrite map_map. rewrite <- (map_id y) at 2.
      apply map_ext_in. intros x Hx. apply underscore_space_round_trip.
      rewrite Forall_forall in Hp. now apply Hp. }
    rewrite Er. exact Hw.
Qed.

Lemma sanitize_base_ascii_witness :
  _sanitize_base (_sanitize_base (py "Drum-Loop 120 (full) Kick__x_"))
  = _sanitize_base (py "Drum-Loop 120 (full) Kick__x_") /\
  Forall (fun w => Re.is_stopword w = false)
         (words (replace_char "_" " "
                   (_sanitize_base (py "Drum-Loop 120 (full) Kick__x_")))).
Proof.
  apply (sanitize_base_ascii (py "Drum-Loop 120 (full) Kick__x_")).
  vm_compute. repeat constructor.
Defined.

(** *** The label *)

Lemma sub_plus_from_app_keep cls repl a c rest : forall b,
  cls c = false ->
  Re.sub_plus_from cls repl b (a ++ c :: rest)
  = Re.sub_plus_from cls repl b (a ++ [c]) ++ Re.sub_plus_from cls repl false rest.
Proof.
  induction a as [|x a IH]; intros b Hc.
  - simpl. now rewrite Hc.
  - simpl. destruct (cls x).
    + destruct b; [now apply IH|]. rewrite <- app_assoc. f_equal. now apply IH.
    + simpl. f_equal. now apply IH.
Qed.

Lemma rstrip_by_all p s : Forall (fun c => p c = true) s -> rstrip_by p s = [].
Proof.
  induction 1 as [|c s Hc _ IH]; [reflexivity|]. simpl. now rewrite IH, Hc.
Qed.

Lemma normalize_suffix_Forall (P : ascii -> Prop) suffix :
  P "_"%char -> Forall P suffix -> Forall P (normalize_suffix suffix).
Proof.
  intros Hus H. unfold normalize_suffix, Re.sub_plus, strip.
  apply sub_plus_from_Forall; [constructor|].
  apply sub_plus_from_Forall; [now repeat constructor|].
  apply replace_char_Forall; [exact Hus|].
  now apply rstrip_by_Forall, lstrip_by_Forall.
Qed.

Lemma normalize_suffix_label_chars suffix :
  Forall (fun c => not_label_char c = false) (normalize_suffix suffix).
Proof. unfold normalize_suffix, Re.sub_plus. apply sub_plus_from_removed. Qed.

(** A label without a letter adds nothing to a name that ends in a
    letter and has no double underscore. *)
Lemma labelled_letterless clean suffix :
  ends_in_letter clean ->
  no_double (is_char "_") clean ->
  Forall (fun c => is_alpha c = false) suffix ->
  labelled clean suffix = clean.
Proof.
  intros (body & c & -> & Hc) Hd Hs. unfold labelled.
  destruct suffix as [|x suffix]; [reflexivity|].
  pose proof (normalize_suffix_Forall (fun c => is_alpha c = false)
                (x :: suffix) eq_refl Hs) as Hn.
  destruct (normalize_suffix (x :: suffix)) as [|y suf]; [reflexivity|].
  cbv zeta. unfold Re.sub_plus_end, Re.sub_plus.
  assert (Hcu : is_char "_" c = false).
  { destruct (letter_not_separator c Hc) as (_ & Hu & _ & _). now apply is_char_false. }
  rewrite <- app_assoc. cbn [app].
  change (py "_") with ["_"%char].
  rewrite (sub_plus_from_app_keep (is_char "_") ["_"%char] body c _ false Hcu).
  rewrite (sub_plus_from_single (is_char "_") "_"%char (body ++ [c]) false);
    [|apply Forall_forall; intros ? _; apply is_char_true|exact Hd|discriminate].
  rewrite <- app_assoc. cbn [app].
  rewrite rstrip_by_app_keep by (now apply not_alpha_false).
  rewrite rstrip_by_all.
  - destruct body; reflexivity.
  - apply (sub_plus_from_Forall (fun c => not_alpha c = true));
      [now repeat constructor|].
    constructor; [reflexivity|].
    eapply Forall_impl; [|exact Hn]. intros a Ha. unfold not_alpha. now rewrite Ha.
Qed.

(** X6.  A label in which no letter occurs (digits, signs, blanks) is dropped:
    the output name is the name without a label. *)
Theorem safe_out_name_letterless_label (src : Path) (flat_names : bool) (suffix : str) :
  Forall (fun c => is_alpha c = false) suffix ->
  safe_out_name src flat_names suffix = safe_out_name src flat_names [].
Proof.
  intros Hs. unfold safe_out_name. f_equal.
  rewrite !safe_out_stem_clean.
  rewrite labelled_letterless; [reflexivity| | |exact Hs].
  - apply sanitize_base_ends_in_letter.
  - apply sanitize_base_free.
Qed.

Lemma safe_out_name_letterless_label_witness :
  safe_out_name (of_str (py "/in/kick_120.wav")) true (py "_2 (01)")
  = safe_out_name (of_str (py "/in/kick_120.wav")) true [].
Proof.
  apply (safe_out_name_letterless_label (of_str (py "/in/kick_120.wav")) true (py "_2 (01)")).
  vm_compute. repeat constructor.
Defined.

Lemma alpha_label_char c : is_alpha c = true -> not_label_char c = false.
Proof. by_cases_on c. Qed.

Lemma alpha_not_blank c : is_alpha c = true -> is_char " " c = false.
Proof. by_cases_on c. Qed.

Lemma alpha_not_underscore c : is_alpha c = true -> is_char "_" c = false.
Proof. by_cases_on c. Qed.

Lemma last_letter lab :
  lab <> [] -> Forall (fun c => is_alpha c = true) lab ->
  exists body c, lab = body ++ [c] /\ is_alpha c = true.
Proof.
  intros Hne Hl. destruct (exists_last Hne) as (body & c & ->).
  exists body, c. split; [reflexivity|].
  apply Forall_app in Hl. destruct Hl as [_ Hc]. now inversion Hc.
Qed.

(** An underscore and letters: the normalisation of lines 230-233 leaves
    such a label as it is. *)
Lemma normalize_suffix_alpha lab :
  lab <> [] -> Forall (fun c => is_alpha c = true) lab ->
  normalize_suffix ("_"%char :: lab) = "_"%char :: lab.
Proof.
  intros Hne Hl. unfold normalize_suffix.
  destruct (last_letter lab Hne Hl) as (body & c & E & Hc).
  assert (E1 : strip ("_"%char :: lab) = "_"%char :: lab).
  { unfold strip. cbn [lstrip_by]. change (is_space "_") with false. cbv iota.
    rewrite E. change ("_"%char :: body ++ [c]) with (("_"%char :: body) ++ [c]).
    apply rstrip_by_snoc. now apply alpha_not_space. }
  rewrite E1.
  assert (E2 : replace_char " " "_" ("_"%char :: lab) = "_"%char :: lab).
  { apply replace_char_fixed. constructor; [reflexivity|].
    eapply Forall_impl; [|exact Hl]. exact alpha_not_blank. }
  rewrite E2.
  assert (E3 : Re.sub_plus (is_char "_") (py "_") ("_"%char :: lab) = "_"%char :: lab).
  { unfold Re.sub_plus. cbn [Re.sub_plus_from]. change (is_char "_" "_") with true.
    cbv iota. cbn [app py list_ascii_of_string]. f_equal.
    apply sub_plus_from_fixed. eapply Forall_impl; [|exact Hl]. exact alpha_not_underscore. }
  rewrite E3.
  apply sub_plus_from_fixed. constructor; [reflexivity|].
  eapply Forall_impl; [|exact Hl]. exact alpha_label_char.
Qed.

Lemma labelled_alpha clean lab :
  ends_in_letter clean ->
  no_double (is_char "_") clean ->
  lab <> [] -> Forall (fun c => is_alpha c = true) lab ->
  labelled clean ("_"%char :: lab) = clean ++ "_"%char :: lab.
Proof.
  intros (body & c & -> & Hc) Hd Hne Hl. unfold labelled.
  rewrite (normalize_suffix_alpha lab Hne Hl). cbv zeta.
  unfold Re.sub_plus_end, Re.sub_plus.
  assert (Hcu : is_char "_" c = false) by now apply alpha_not_underscore.
  rewrite <- app_assoc. cbn [app]. change (py "_") with ["_"%char]. cbn [app].
  rewrite (sub_plus_from_app_keep (is_char "_") ["_"%char] body c _ false Hcu).
  rewrite (sub_plus_from_single (is_char "_") "_"%char (body ++ [c]) false);
    [|apply Forall_forall; intros ? _; apply is_char_true|exact Hd|discriminate].
  cbn [Re.sub_plus_from]. change (is_char "_" "_") with true. cbv iota. cbn [app].
  rewrite (sub_plus_from_fixed (is_char "_") ["_"%char] lab true)
    by (eapply Forall_impl; [|exact Hl]; exact alpha_not_underscore).
  destruct (last_letter lab Hne Hl) as (lbody & lc & -> & Hlc).
  assert (E : (body ++ [c]) ++ "_"%char :: lbody ++ [lc]
              = ((body ++ [c]) ++ "_"%char :: lbody) ++ [lc]).
  { now rewrite <- !app_assoc. }
  rewrite E, rstrip_by_snoc by (now apply not_alpha_false).
  destruct (((body ++ [c]) ++ "_"%char :: lbody) ++ [lc]) eqn:Ee; [|reflexivity].
  exfalso. destruct ((body ++ [c]) ++ "_"%char :: lbody); discriminate.
Qed.

(** X7.  A label of letters is appended as it is.  The task built by
    [ConvertTask.__init__] from a non-empty label of letters [A-Za-z]
    names every output by the cleaned name, one underscore, and the
    label. *)
Theorem safe_out_stem_with_label
        (files : list Path) (target_bpm : Z) (out_dir : Path) (overwrite flat_names : bool)
        (label : str) (src : Path) :
  label <> [] ->
  Forall (fun c => is_alpha c = true) label ->
  safe_out_stem src flat_names
    (Worker.suffix_label
       (Worker.ConvertTask_init files target_bpm out_dir overwrite flat_names label))
  = safe_out_stem src flat_names [] ++ py "_" ++ label.
Proof.
  intros Hne Hl. unfold Worker.ConvertTask_init. cbn [Worker.suffix_label].
  destruct label as [|x label]; [congruence|].
  rewrite !safe_out_stem_clean. cbn [labelled].
  change (py "_" ++ x :: label) with ("_"%char :: x :: label).
  apply labelled_alpha; [| |discriminate|exact Hl].
  - apply sanitize_base_ends_in_letter.
  - apply sanitize_base_free.
Qed.

Lemma safe_out_stem_with_label_witness :
  safe_out_stem (of_str (py "/in/My Loop-120.WAV")) true
    (Worker.suffix_label
       (Worker.ConvertTask_init [] 100 (of_str (py "/out")) false true (py "mix")))
  = safe_out_stem (of_str (py "/in/My Loop-120.WAV")) true [] ++ py "_" ++ py "mix".
Proof.
  apply (safe_out_stem_with_label [] 100 (of_str (py "/out")) false true (py "mix")
                                  (of_str (py "/in/My Loop-120.WAV"))).
  - discriminate.
  - vm_compute. repeat constructor.
Defined.

(** *** The whole stem and the place of the output *)

Lemma label_char_no_space c : not_label_char c = false -> is_space c = false.
Proof. by_cases_on c. Qed.

Lemma label_char_no_slash c : not_label_char c = false -> is_char "/" c = false.
Proof. by_cases_on c. Qed.

Lemma labelled_Forall (P : ascii -> Prop) clean suffix :
  P "_"%char -> (forall c, not_label_char c = false -> P c) ->
  Forall P clean -> Forall P (labelled clean suffix).
Proof.
  intros Hus Hlab Hc. unfold labelled.
  destruct suffix as [|x suffix]; [exact Hc|].
  pose proof (normalize_suffix_label_chars (x :: suffix)) as Hn.
  destruct (normalize_suffix (x :: suffix)) as [|y suf]; [exact Hc|].
  cbv zeta.
  assert (H : Forall P (Re.sub_plus_end not_alpha
                          (Re.sub_plus (is_char "_") (py "_")
                             (clean ++ py "_" ++ y :: suf)))).
  { unfold Re.sub_plus_end, Re.sub_plus. apply rstrip_by_Forall.
    apply sub_plus_from_Forall; [now repeat constructor|].
    apply Forall_app. split; [exact Hc|]. constructor; [exact Hus|].
    eapply Forall_impl; [|exact Hn]. exact Hlab. }
  destruct (Re.sub_plus_end _ _); [exact Hc|exact H].
Qed.

Lemma labelled_no_double clean suffix :
  no_double (is_char "_") clean -> no_double (is_char "_") (labelled clean suffix).
Proof.
  intros Hc. unfold labelled.
  destruct suffix as [|x suffix]; [exact Hc|].
  destruct (normalize_suffix (x :: suffix)) as [|y suf]; [exact Hc|].
  cbv zeta.
  assert (H : no_double (is_char "_")
                (Re.sub_plus_end not_alpha
                   (Re.sub_plus (is_char "_") (py "_") (clean ++ py "_" ++ y :: suf)))).
  { unfold Re.sub_plus_end, Re.sub_plus.
    destruct (sub_plus_from_no_double (is_char "_") "_"%char
                (clean ++ py "_" ++ y :: suf) false) as [Hd _].
    destruct (rstrip_by_prefix not_alpha
                (Re.sub_plus_from (is_char "_") (py "_") false
                   (clean ++ py "_" ++ y :: suf))) as (tail & E).
    change (py "_") with ["_"%char] in *.
    rewrite E in Hd. now apply no_double_app_l in Hd. }
  destruct (Re.sub_plus_end _ _); [exact Hc|exact H].
Qed.

Lemma labelled_head clean suffix :
  clean <> [] -> head_not (is_char "_") clean ->
  head_not (is_char "_") (labelled clean suffix).
Proof.
  intros Hne Hc. unfold labelled.
  destruct suffix as [|x suffix]; [exact Hc|].
  destruct (normalize_suffix (x :: suffix)) as [|y suf]; [exact Hc|].
  cbv zeta.
  assert (H : head_not (is_char "_")
                (Re.sub_plus_end not_alpha
                   (Re.sub_plus (is_char "_") (py "_") (clean ++ py "_" ++ y :: suf)))).
  { unfold Re.sub_plus_end, Re.sub_plus. apply rstrip_by_head, sub_plus_from_head.
    destruct clean; [congruence|exact Hc]. }
  destruct (Re.sub_plus_end _ _); [exact Hc|exact H].
Qed.

Lemma safe_out_stem_free src flat_names suffix :
  Forall (fun c => is_space c = false) (safe_out_stem src flat_names suffix) /\
  no_char "/" (safe_out_stem src flat_names suffix) /\
  no_double (is_char "_") (safe_out_stem src flat_names suffix) /\
  head_not (is_char "_") (safe_out_stem src flat_names suffix).
Proof.
  rewrite safe_out_stem_clean.
  destruct (sanitize_base_free (out_base src flat_names)) as (_ & Hsp & _ & Hd & Hh).
  split; [|split; [|split]].
  - apply labelled_Forall; [reflexivity|exact label_char_no_space|exact Hsp].
  - apply (labelled_Forall (fun c => is_char "/" c = false));
      [reflexivity|exact label_char_no_slash|].
    apply sanitize_base_no_char; try reflexivity; [repeat constructor|].
    unfold out_base. apply stem_no_char, name_of_str_no_slash.
  - now apply labelled_no_double.
  - apply labelled_head; [|exact Hh].
    apply ends_in_letter_nonempty, sanitize_base_ends_in_letter.
Qed.

(** X8.  Whatever the source and the label, the name before the extension has
    no white space and no slash, no two underscores meet in it, and it
    does not start with one. *)
Theorem safe_out_stem_shape (src : Path) (flat_names : bool) (suffix : str) :
  Forall (fun c => is_space c = false) (safe_out_stem src flat_names suffix) /\
  no_char "/" (safe_out_stem src flat_names suffix) /\
  no_double (is_char "_") (safe_out_stem src flat_names suffix) /\
  head_not (is_char "_") (safe_out_stem src flat_names suffix).
Proof. exact (safe_out_stem_free src flat_names suffix). Qed.

(** The output name of a source given as a path string: no slash, not
    empty, not a lone dot. *)
Lemma safe_out_name_bare p flat suffix :
  no_char "/" (safe_out_name (of_str p) flat suffix) /\
  safe_out_name (of_str p) flat suffix <> [] /\
  safe_out_name (of_str p) flat suffix <> py ".".
Proof.
  unfold safe_out_name.
  destruct (safe_out_stem_free (of_str p) flat suffix) as (_ & Hsl & _ & _).
  pose proof (labelled_ends_in_letter _ suffix
                (sanitize_base_ends_in_letter (out_base (of_str p) flat))) as Hl.
  rewrite <- safe_out_stem_clean in Hl.
  split; [|split].
  - apply Forall_app. split; [exact Hsl|].
    unfold lower. apply (Forall_map_impl (fun c => is_char "/" c = false)).
    + apply lower_char_slash.
    + apply suffix_no_char, name_of_str_no_slash.
  - apply ends_in_letter_nonempty in Hl.
    destruct (safe_out_stem (of_str p) flat suffix); [congruence|discriminate].
  - destruct Hl as (body & c & -> & Hc). rewrite <- app_assoc.
    destruct body as [|b body].
    + simpl. intros [= -> _]. discriminate.
    + simpl. destruct body; discriminate.
Qed.

Lemma joinpath_bare out_dir n :
  no_char "/" n -> n <> [] -> n <> py "." ->
  joinpath out_dir (of_str n) = {| root := root out_dir; parts := parts out_dir ++ [n] |}.
Proof.
  intros Hs Hne Hdot. now rewrite (of_str_bare n Hs Hne Hdot).
Qed.

Lemma safe_out_join_parts p out_dir target_bpm flat suffix :
  safe_out_join (of_str p) out_dir target_bpm flat suffix
  = {| root := root out_dir;
       parts := parts out_dir ++ [safe_out_name (of_str p) flat suffix] |}.
Proof.
  destruct (safe_out_name_bare p flat suffix) as (Hs & Hne & Hdot).
  unfold safe_out_join. now apply joinpath_bare.
Qed.

(** X9.  The output always lies directly in the output directory: before
    [resolve()], the parent of the path [safe_out_path] builds is
    [out_dir] and its last component is the new name, which holds no
    slash.  No source name leads out of the directory. *)
Theorem safe_out_join_in_out_dir
        (p : str) (out_dir : Path) (target_bpm : Z) (flat_names : bool) (suffix : str) :
  no_char "/" (safe_out_name (of_str p) flat_names suffix) /\
  parent (safe_out_join (of_str p) out_dir target_bpm flat_names suffix) = out_dir /\
  name (safe_out_join (of_str p) out_dir target_bpm flat_names suffix)
  = safe_out_name (of_str p) flat_names suffix.
Proof.
  split; [apply safe_out_name_bare|].
  rewrite safe_out_join_parts.
  unfold parent, name. cbn [root parts]. split.
  - rewrite removelast_last. now destruct out_dir.
  - apply last_last.
Qed.

(** X10.  A source with an extension keeps it, in lower case: the suffix of
    the output path is the lower-cased suffix of the source, and its stem
    is the cleaned name. *)
Theorem safe_out_join_keeps_extension
        (p : str) (out_dir : Path) (target_bpm : Z) (flat_names : bool) (suffix : str) :
  PathLib.suffix (of_str p) <> [] ->
  PathLib.suffix (safe_out_join (of_str p) out_dir target_bpm flat_names suffix)
  = lower (PathLib.suffix (of_str p)) /\
  stem (safe_out_join (of_str p) out_dir target_bpm flat_names suffix)
  = safe_out_stem (of_str p) flat_names suffix.
Proof.
  intros Hext.
  unfold PathLib.suffix at 1, stem. rewrite safe_out_join_parts.
  unfold name. cbn [parts]. rewrite last_last. unfold safe_out_name.
  destruct (suffix_shape (of_str p)) as [Es|(e & Es & Hne & He)]; [congruence|].
  rewrite Es. change (lower ("."%char :: e)) with ("."%char :: lower e).
  assert (Hle : no_char "." (lower e)).
  { unfold lower. apply (Forall_map_impl (fun c => is_char "." c = false)); [|exact He].
    apply lower_char_dot. }
  assert (Hlne : lower e <> []) by (destruct e; [congruence|discriminate]).
  assert (Hclean : safe_out_stem (of_str p) flat_names suffix <> []).
  { rewrite safe_out_stem_clean.
    apply ends_in_letter_nonempty, labelled_ends_in_letter, sanitize_base_ends_in_letter. }
  rewrite (stem_suffix_of_join _ (lower e) Hclean Hlne Hle).
  rewrite firstn_app, firstn_all, Nat.sub_diag, app_nil_r.
  rewrite skipn_app, skipn_all, Nat.sub_diag. simpl. split; reflexivity.
Qed.

Lemma safe_out_join_keeps_extension_witness :
  PathLib.suffix (safe_out_join (of_str (py "/in/My Loop-120.WAV")) (of_str (py "/out"))
                                100 true (py "_mix"))
  = lower (PathLib.suffix (of_str (py "/in/My Loop-120.WAV"))) /\
  stem (safe_out_join (of_str (py "/in/My Loop-120.WAV")) (of_str (py "/out"))
                      100 true (py "_mix"))
  = safe_out_stem (of_str (py "/in/My Loop-120.WAV")) true (py "_mix").
Proof.
  apply (safe_out_join_keeps_extension (py "/in/My Loop-120.WAV") (of_str (py "/out"))
                                       100 true (py "_mix")).
  vm_compute. discriminate.
Defined.

(** *** Applying [safe_out_path] to its own output, with a label *)

Lemma label_char_no_dot c : not_label_char c = false -> is_char "." c = false.
Proof. by_cases_on c. Qed.

(** C6, as the code has it.  [safe_out_path] applied to its own output
    file name, with the same label, gives that name again whenever
    sanitising the labelled stem gives the cleaned base name again.  That
    is so when the base name is ASCII and the label holds no letter
    (empty, or dropped as letter-free), and for a label that sanitising
    removes, such as [_loop]; it is not so for [_mix].  The source must
    have an extension or a base name without dot; applied without
    flattening, the output name must hold no colon, since colons are
    dropped from the path first. *)
Theorem safe_out_name_reapplied (p : str) (flat flat' : bool) (suffix : str) :
  (Forall (fun c => is_ascii7 c = true) (out_base (of_str p) flat) /\
   Forall (fun c => is_alpha c = false) suffix) \/
  _sanitize_base (safe_out_stem (of_str p) flat suffix)
  = _sanitize_base (out_base (of_str p) flat) ->
  (PathLib.suffix (of_str p) <> [] \/ no_char "." (out_base (of_str p) flat)) ->
  (flat' = true \/ no_char ":" (safe_out_name (of_str p) flat suffix)) ->
  safe_out_name (of_str (safe_out_name (of_str p) flat suffix)) flat' suffix
  = safe_out_name (of_str p) flat suffix.
Proof.
  intros Hlabel Hdots Hcolon.
  destruct (safe_out_name_bare p flat suffix) as (Hout_slash & Hout_ne & Hout_dot).
  set (src := of_str p) in *.
  set (base := out_base src flat) in *.
  set (clean := _sanitize_base base) in *.
  set (ext := lower (PathLib.suffix src)).
  set (S := safe_out_stem src flat suffix) in *.
  assert (ES : S = labelled clean suffix) by apply safe_out_stem_clean.
  assert (Eout : safe_out_name src flat suffix = S ++ ext) by reflexivity.
  rewrite Eout in *.
  pose proof (sanitize_base_ends_in_letter base) as Hletter. fold clean in Hletter.
  assert (HS : S <> []).
  { rewrite ES. now apply ends_in_letter_nonempty, labelled_ends_in_letter. }
  (* sanitising the labelled stem gives the cleaned name *)
  assert (Hclean : _sanitize_base S = clean).
  { destruct Hlabel as [[Hascii Hnone]|H]; [|exact H].
    rewrite ES, labelled_letterless; [|exact Hletter| |exact Hnone].
    - now apply sanitize_base_idempotent.
    - apply sanitize_base_free. }
  (* the output name splits back into the stem and the extension *)
  assert (Hsplit : stem (of_str (S ++ ext)) = S /\
                   lower (PathLib.suffix (of_str (S ++ ext))) = ext).
  { rewrite (of_str_bare _ Hout_slash Hout_ne Hout_dot).
    unfold stem, PathLib.suffix, name. simpl parts. simpl last.
    destruct (suffix_shape src) as [Es|(e & Es & Hne & He)].
    - assert (Hext : ext = []) by (unfold ext; now rewrite Es).
      rewrite Hext, app_nil_r.
      destruct Hdots as [Hd|Hd]; [congruence|].
      assert (Hcd : no_char "." S).
      { rewrite ES.
        apply (labelled_Forall (fun c => is_char "." c = false));
          [reflexivity|exact label_char_no_dot|].
        apply sanitize_base_no_char; try reflexivity; [|exact Hd]. repeat constructor. }
      rewrite (suffix_index_absent _ Hcd). now split.
    - assert (Hext : ext = "."%char :: lower e) by (unfold ext; now rewrite Es).
      assert (Hle : no_char "." (lower e)).
      { unfold lower. apply (Forall_map_impl (fun c => is_char "." c = false)); [|exact He].
        apply lower_char_dot. }
      assert (Hlne : lower e <> []) by (destruct e; [congruence|discriminate]).
      rewrite Hext, (stem_suffix_of_join S (lower e) HS Hlne Hle).
      rewrite firstn_app, firstn_all, Nat.sub_diag, app_nil_r.
      rewrite skipn_app, skipn_all, Nat.sub_diag. simpl.
      split; [reflexivity|]. now rewrite lower_idempotent. }
  destruct Hsplit as [Hstem Hsuffix].
  unfold safe_out_name at 1. rewrite safe_out_stem_clean, Hsuffix.
  rewrite (out_base_bare _ flat' Hout_slash Hout_ne Hout_dot Hcolon), Hstem.
  now rewrite Hclean, <- ES.
Qed.

Lemma safe_out_name_reapplied_witness :
  safe_out_name
    (of_str (safe_out_name (of_str (py "/in/Kick-Full 120 bpm__x_.WAV")) true (py "_loop")))
    true (py "_loop")
  = safe_out_name (of_str (py "/in/Kick-Full 120 bpm__x_.WAV")) true (py "_loop").
Proof.
  apply (safe_out_name_reapplied (py "/in/Kick-Full 120 bpm__x_.WAV") true true (py "_loop")).
  - right. vm_compute. reflexivity.
  - left. vm_compute. discriminate.
  - left. reflexivity.
Defined.

Example safe_out_name_loop_label :
  safe_out_name (of_str (py "kick.wav")) true (py "_loop") = py "kick_loop.wav" /\
  safe_out_name (of_str (py "kick_loop.wav")) true (py "_loop") = py "kick_loop.wav".
Proof. split; vm_compute; reflexivity. Qed.

End NamingShape.


(** * More about [convert_with_ffmpeg] and [ConvertTask.run] *)

Module WorkerMore.
Import PyStr PathLib Worker Vocabulary.
Local Open Scope Z_scope.

(** A positive ratio always has a chain, and every stage of it is one
    ffmpeg accepts. *)
Lemma atempo_chain_accepted ratio :
  (0 < ratio)%Q ->
  exists fs, Tempo.atempo_chain ratio = Ret fs /\ Forall Tempo.in_stage_range fs.
Proof.
  intros Hr.
  destruct (TempoFacts.atempo_chain_shape ratio Hr)
    as (k1 & k2 & r & Hret & _ & Hlo & Hhi & _).
  eexists. split; [exact Hret|]. now apply TempoFacts.finish_in_range.
Qed.

Lemma ratio_of_guess_pos target name bpm :
  0 < target ->
  Bpm.guess_bpm_from_name name = Some bpm ->
  (0 < Tempo.ratio_of target bpm)%Q.
Proof.
  intros Ht Hg. apply TempoFacts.ratio_of_pos; [|exact Ht].
  pose proof (BpmSound.guess_bpm_bounds name bpm Hg). lia.
Qed.

Section Convert.
Context {World : Type} `{Collaborators World}.

(** X11.  When the converter is there, the destination directory can be made
    and the ratio is positive, [convert_with_ffmpeg] does not raise: it
    starts ffmpeg once, on the source and the destination, with a chain
    of stages that are all within [0.5, 2.0], and returns what the
    process answered; a failure of the process is a [False] result, not
    an exception. *)
Theorem convert_runs_accepted_filter
        (src dst : Path) (ratio : Q) (s : state World) (ff : Path) (w1 : World) :
  (0 < ratio)%Q ->
  which_ffmpeg (world s) = Ret (Some ff) ->
  mkdir_parents (parent dst) (world s) = (Ret tt, w1) ->
  exists fs,
    Tempo.atempo_chain ratio = Ret fs /\
    Forall Tempo.in_stage_range fs /\
    let cmd := {| cmd_ffmpeg := ff; cmd_input := as_posix src; cmd_filter := fs;
                  cmd_out_args := out_args_for dst; cmd_output := as_posix dst |} in
    convert_with_ffmpeg src dst ratio s
    = (Ret (report (fst (check_output cmd w1))),
       {| world := snd (check_output cmd w1); events := events s;
          processed := processed s; skipped := skipped s |}).
Proof.
  intros Hr Hff Hm.
  destruct (atempo_chain_accepted ratio Hr) as (fs & Hfs & Hin).
  exists fs. split; [exact Hfs|]. split; [exact Hin|]. cbv zeta.
  unfold convert_with_ffmpeg, bind, ask, act_res, of_res, act.
  rewrite Hff, Hm. cbn [world events processed skipped]. rewrite Hfs.
  destruct (check_output _ w1) as [[|o|e] w2]; reflexivity.
Qed.

(** X19.  The order of the checks in [convert_with_ffmpeg].  Without a
    converter it returns [(False, not found)] and touches nothing,
    whatever the ratio; with one, the destination directory is made
    first, so that a ratio that is not positive raises [ValueError] after
    the directory was created and before any process is started; and a
    failure to make the directory is raised as it is. *)
Theorem convert_order_of_checks (src dst : Path) (ratio : Q) (s : state World) :
  (which_ffmpeg (world s) = Ret None ->
   convert_with_ffmpeg src dst ratio s = (Ret (false, MsgNotFound), s)) /\
  (forall ff w1,
      which_ffmpeg (world s) = Ret (Some ff) ->
      mkdir_parents (parent dst) (world s) = (Ret tt, w1) ->
      (ratio <= 0)%Q ->
      convert_with_ffmpeg src dst ratio s
      = (Raise (ValueError "ratio debe ser > 0"),
         {| world := w1; events := events s;
            processed := processed s; skipped := skipped s |})) /\
  (forall ff w1 e,
      which_ffmpeg (world s) = Ret (Some ff) ->
      mkdir_parents (parent dst) (world s) = (Raise e, w1) ->
      convert_with_ffmpeg src dst ratio s
      = (Raise e,
         {| world := w1; events := events s;
            processed := processed s; skipped := skipped s |})).
Proof.
  unfold convert_with_ffmpeg, bind, ask, act_res, of_res, act.
  split; [|split].
  - intros ->. reflexivity.
  - intros ff w1 -> Hm Hr. rewrite Hm. cbn [world events processed skipped].
    unfold Tempo.atempo_chain.
    replace (Qle_bool ratio 0) with true; [reflexivity|].
    symmetry. now apply Qle_bool_iff.
  - intros ff w1 e -> Hm. rewrite Hm. reflexivity.
Qed.

(** X12.  With a target tempo above zero and below [2^1024] (so that the
    float division of line 278 neither overflows nor gives zero),
    whatever is raised inside the [try] of [run] was raised by the file
    system or by the search for the converter: by [resolve()], by
    [exists()], by [which_ffmpeg()] or by [mkdir()].  The ratio is
    positive, so [atempo_chain] does not raise. *)
Theorem try_body_raise_origin
        (task : ConvertTask) (f : Path) (s s' : state World) (e : exn) :
  0 < target_bpm task < 2 ^ 1024 ->
  try_body task f s = (Raise e, s') ->
  (exists p, resolve p (world s) = Raise e) \/
  (exists p, path_exists p (world s) = Raise e) \/
  which_ffmpeg (world s) = Raise e \/
  (exists p w', mkdir_parents p (world s) = (Raise e, w')).
Proof.
  intros [Ht _]. unfold try_body.
  destruct (Bpm.guess_bpm_from_name (name f)) as [bpm|] eqn:Eg; [|discriminate].
  destruct (bpm =? 0); [discriminate|].
  pose proof (ratio_of_guess_pos _ _ _ Ht Eg) as Hr.
  destruct (atempo_chain_accepted _ Hr) as (fs & Hfs & _).
  unfold bind, safe_out_path, ask.
  destruct (resolve _ (world s)) as [outpath|e1] eqn:Er.
  2:{ intros [= <- _]. left. eexists. exact Er. }
  destruct (path_exists outpath (world s)) as [there|e1] eqn:Ep.
  2:{ intros [= <- _]. right. left. eexists. exact Ep. }
  destruct (there && negb (overwrite task)); [discriminate|].
  unfold convert_with_ffmpeg, bind, ask, act_res, of_res, act, emit.
  cbn [world events processed skipped].
  destruct (which_ffmpeg (world s)) as [[ff|]|e1] eqn:Ew;
    cbn [world events processed skipped].
  - destruct (mkdir_parents (parent outpath) (world s)) as [[[]|e1] w1] eqn:Em;
      cbn [world events processed skipped].
    + rewrite Hfs. cbn [world events processed skipped].
      destruct (check_output _ w1) as [[|o|e1] w2]; discriminate.
    + intros [= <- _]. right. right. right. eexists. eexists. exact Em.
  - discriminate.
  - intros [= <- _]. right. right. left. reflexivity.
Qed.

End Convert.

Lemma convert_runs_accepted_filter_witness :
  exists fs,
    Tempo.atempo_chain (Tempo.ratio_of 100 120) = Ret fs /\
    Forall Tempo.in_stage_range fs /\
    let cmd := {| cmd_ffmpeg := of_str (py "/usr/bin/ffmpeg");
                  cmd_input := as_posix (of_str (py "/in/a_120.wav"));
                  cmd_filter := fs;
                  cmd_out_args := out_args_for (of_str (py "/out/a.wav"));
                  cmd_output := as_posix (of_str (py "/out/a.wav")) |} in
    convert_with_ffmpeg (of_str (py "/in/a_120.wav")) (of_str (py "/out/a.wav"))
                        (Tempo.ratio_of 100 120) (initial world_ready)
    = (Ret (report (fst (check_output cmd world_ready))),
       {| world := snd (check_output cmd world_ready);
          events := events (initial world_ready);
          processed := processed (initial world_ready);
          skipped := skipped (initial world_ready) |}).
Proof.
  apply (convert_runs_accepted_filter
           (of_str (py "/in/a_120.wav")) (of_str (py "/out/a.wav"))
           (Tempo.ratio_of 100 120) (initial world_ready)
           (of_str (py "/usr/bin/ffmpeg")) world_ready); reflexivity.
Defined.

Lemma try_body_raise_origin_witness :
  (exists p, resolve p (world (initial world_readonly))
             = Raise (OSError "cannot create directory")) \/
  (exists p, path_exists p (world (initial world_readonly))
             = Raise (OSError "cannot create directory")) \/
  which_ffmpeg (world (initial world_readonly))
  = Raise (OSError "cannot create directory") \/
  (exists p w', mkdir_parents p (world (initial world_readonly))
                = (Raise (OSError "cannot create directory"), w')).
Proof.
  apply (try_body_raise_origin example_task (of_str (py "/in/a_120.wav"))
           (initial world_readonly)
           {| world := world_readonly;
              events := [Message (Converting (py "a_120.wav") 120 100 (Tempo.ratio_of 100 120))];
              processed := 0; skipped := 0 |}).
  - split; reflexivity.
  - vm_compute. reflexivity.
Defined.

(** *** One outcome line per file *)

Lemma outcomes_app a b : outcomes (a ++ b) = outcomes a ++ outcomes b.
Proof. unfold outcomes. apply flat_map_app. Qed.

Lemma no_bpm_names_app a b : no_bpm_names (a ++ b) = no_bpm_names a ++ no_bpm_names b.
Proof. unfold no_bpm_names. apply flat_map_app. Qed.

Ltac tidy := cbn [world events processed skipped fst snd].

Ltac leaf :=
  eexists; eexists; split; [reflexivity|]; tidy;
  rewrite !outcomes_app, !no_bpm_names_app; simpl;
  rewrite <- ?app_assoc, ?app_nil_r; simpl;
  split; [reflexivity|]; split; [simpl; split; reflexivity|reflexivity].

Section RunMore.
Context {World : Type} `{Collaborators World}.
Variable task : ConvertTask.

(** One turn of the loop logs exactly one outcome line; the line is
    [Saved] exactly when the turn counted the file as processed, and it
    is the line of a name without tempo exactly for such a name. *)
Lemma run_file_outcome total i f s :
  exists s' l,
    run_file task total i f s = (Ret tt, s') /\
    outcomes (events s') = outcomes (events s) ++ [l] /\
    (if is_saved l
     then processed s' = processed s + 1 /\ skipped s' = skipped s
     else processed s' = processed s /\ skipped s' = skipped s + 1) /\
    no_bpm_names (events s')
    = no_bpm_names (events s) ++ (if no_tempo f then [name f] else []).
Proof.
  unfold run_file, try_except, try_body, no_tempo.
  destruct (Bpm.guess_bpm_from_name (name f)) as [bpm|] eqn:Eg; [|leaf].
  destruct (bpm =? 0) eqn:Ez.
  { exfalso. apply Z.eqb_eq in Ez. pose proof (BpmSound.guess_bpm_bounds _ _ Eg). lia. }
  unfold bind, safe_out_path, ask, except_handler.
  destruct (resolve _ (world s)) as [outpath|e] eqn:Er; [|leaf].
  destruct (path_exists outpath (world s)) as [there|e] eqn:Ep; [|leaf].
  destruct (there && negb (overwrite task)); [leaf|].
  unfold convert_with_ffmpeg, bind, ask, act_res, of_res, act, emit. tidy.
  destruct (which_ffmpeg (world s)) as [[ff|]|e] eqn:Ew; tidy; [|leaf|leaf].
  destruct (mkdir_parents (parent outpath) (world s)) as [[[]|e] w1] eqn:Em; tidy; [|leaf].
  destruct (Tempo.atempo_chain _) as [fs|e] eqn:Ea; tidy; [|leaf].
  destruct (check_output _ w1) as [[|o|e] w2]; tidy; leaf.
Qed.

Lemma run_loop_outcomes fs : forall total i s,
  exists s' ls,
    run_loop task total i fs s = (Ret tt, s') /\
    outcomes (events s') = outcomes (events s) ++ ls /\
    length ls = length fs /\
    processed s' = processed s + Z.of_nat (length (filter is_saved ls)) /\
    skipped s' = skipped s + Z.of_nat (length (filter (fun l => negb (is_saved l)) ls)) /\
    no_bpm_names (events s') = no_bpm_names (events s) ++ map name (filter no_tempo fs).
Proof.
  induction fs as [|f fs IH]; intros total i s.
  - exists s, []. simpl. rewrite !app_nil_r. repeat split; lia.
  - destruct (run_file_outcome total i f s) as (s1 & l & Hr & Ho & Hc & Hn).
    destruct (IH total (i + 1) s1) as (s2 & ls & Hl & Ho2 & Hlen & Hp & Hk & Hn2).
    exists s2, (l :: ls). cbn [run_loop]. unfold bind at 1. rewrite Hr.
    split; [exact Hl|]. split; [rewrite Ho2, Ho, <- app_assoc; reflexivity|].
    split; [simpl; congruence|].
    split; [|split].
    + cbn [filter]. destruct (is_saved l); cbn [length]; lia.
    + cbn [filter]. destruct (is_saved l); cbn [negb length]; lia.
    + rewrite Hn2, Hn. cbn [filter]. destruct (no_tempo f); cbn [map];
        rewrite <- app_assoc; reflexivity.
Qed.

Lemma no_bpm_names_skipped evs :
  (length (no_bpm_names evs)
   <= length (filter (fun l => negb (is_saved l)) (outcomes evs)))%nat.
Proof.
  induction evs as [|e evs IH]; [simpl; lia|].
  change (e :: evs) with ([e] ++ evs).
  rewrite outcomes_app, no_bpm_names_app, filter_app, !length_app.
  apply Nat.add_le_mono; [|exact IH].
  destruct e as [[]| |]; simpl; lia.
Qed.

(** X13.  Every file leaves exactly one outcome line in the log.  Once the
    output directory is there, [run] returns with as many outcome lines
    (saved, no tempo, output exists, error) as there are files; the
    processed count is the number of [Saved] lines and the skipped count
    the number of the others; the names without a tempo are reported in
    the order of the files, and each of them counts as skipped. *)
Theorem run_outcome_lines (w w1 : World) :
  mkdir_parents (out_dir task) w = (Ret tt, w1) ->
  exists s,
    run task w = (Ret tt, s) /\
    length (outcomes (events s)) = length (files task) /\
    processed s = Z.of_nat (length (filter is_saved (outcomes (events s)))) /\
    skipped s
    = Z.of_nat (length (filter (fun l => negb (is_saved l)) (outcomes (events s)))) /\
    no_bpm_names (events s) = map name (filter no_tempo (files task)) /\
    Z.of_nat (length (filter no_tempo (files task))) <= skipped s.
Proof.
  intros Hm. rewrite (WorkerFacts.run_after_mkdir task w w1 Hm).
  set (s0 := {| world := w1; events := []; processed := 0; skipped := 0 |}).
  destruct (run_loop_outcomes (files task) (Z.of_nat (length (files task))) 1 s0)
    as (s1 & ls & Hl & Ho & Hlen & Hp & Hk & Hn).
  unfold bind. rewrite Hl. unfold emit_finished, emit.
  eexists. split; [reflexivity|]. tidy.
  simpl in Ho, Hp, Hk, Hn.
  assert (Eo : outcomes (events s1 ++ [FinishedOk (processed s1) (skipped s1)]) = ls).
  { rewrite outcomes_app, Ho. simpl. apply app_nil_r. }
  assert (En : no_bpm_names (events s1 ++ [FinishedOk (processed s1) (skipped s1)])
               = map name (filter no_tempo (files task))).
  { rewrite no_bpm_names_app, Hn. simpl. apply app_nil_r. }
  rewrite Eo, En. repeat split; try assumption.
  rewrite Hk, <- (length_map name), <- Hn, <- Ho.
  apply inj_le. apply no_bpm_names_skipped.
Qed.

(** *** Outputs that are already there *)

Lemma run_file_existing total i f s :
  overwrite task = false ->
  (forall out,
      resolve (Naming.safe_out_join f (out_dir task) (target_bpm task)
                                    (flat_names task) (suffix_label task)) (world s)
      = Ret out ->
      path_exists out (world s) <> Ret false) ->
  exists s',
    run_file task total i f s = (Ret tt, s') /\
    world s' = world s /\
    processed s' = processed s /\
    skipped s' = skipped s + 1.
Proof.
  intros Ho Hex.
  unfold run_file, try_except, try_body.
  destruct (Bpm.guess_bpm_from_name (name f)) as [bpm|].
  2:{ eexists. split; [reflexivity|]. tidy. auto. }
  destruct (bpm =? 0).
  { eexists. split; [reflexivity|]. tidy. auto. }
  unfold bind, safe_out_path, ask, except_handler.
  destruct (resolve _ (world s)) as [outpath|e] eqn:Er.
  2:{ eexists. split; [reflexivity|]. tidy. auto. }
  specialize (Hex outpath eq_refl).
  destruct (path_exists outpath (world s)) as [[|]|e].
  - rewrite Ho. eexists. split; [reflexivity|]. tidy. auto.
  - congruence.
  - eexists. split; [reflexivity|]. tidy. auto.
Qed.

Lemma run_loop_existing fs : forall total i s,
  overwrite task = false ->
  (forall f out,
      In f fs ->
      resolve (Naming.safe_out_join f (out_dir task) (target_bpm task)
                                    (flat_names task) (suffix_label task)) (world s)
      = Ret out ->
      path_exists out (world s) = Ret true) ->
  exists s',
    run_loop task total i fs s = (Ret tt, s') /\
    world s' = world s /\
    processed s' = processed s /\
    skipped s' = skipped s + Z.of_nat (length fs).
Proof.
  induction fs as [|f fs IH]; intros total i s Ho Hex.
  - exists s. simpl. repeat split; lia.
  - destruct (run_file_existing total i f s Ho) as (s1 & Hr & Hw & Hp & Hk).
    { intros out Hout. rewrite (Hex f out (or_introl eq_refl) Hout). discriminate. }
    destruct (IH total (i + 1) s1 Ho) as (s2 & Hl & Hw2 & Hp2 & Hk2).
    { intros f' out Hin. rewrite Hw. apply Hex. now right. }
    exists s2. cbn [run_loop]. unfold bind at 1. rewrite Hr.
    split; [exact Hl|]. split; [congruence|]. split; [congruence|].
    cbn [length]. lia.
Qed.

(** X14.  Running a batch again converts nothing.  When overwriting is off and
    the output of every file is already there, [run] starts no process
    and creates nothing beyond the output directory: the world stays as
    line 269 left it, no file is processed and every file is skipped. *)
Theorem run_again_converts_nothing (w w1 : World) :
  mkdir_parents (out_dir task) w = (Ret tt, w1) ->
  overwrite task = false ->
  (forall f out,
      In f (files task) ->
      resolve (Naming.safe_out_join f (out_dir task) (target_bpm task)
                                    (flat_names task) (suffix_label task)) w1
      = Ret out ->
      path_exists out w1 = Ret true) ->
  exists s,
    run task w = (Ret tt, s) /\
    world s = w1 /\
    processed s = 0 /\
    skipped s = Z.of_nat (length (files task)).
Proof.
  intros Hm Ho Hex. rewrite (WorkerFacts.run_after_mkdir task w w1 Hm).
  set (s0 := {| world := w1; events := []; processed := 0; skipped := 0 |}).
  destruct (run_loop_existing (files task) (Z.of_nat (length (files task))) 1 s0 Ho Hex)
    as (s1 & Hl & Hw & Hp & Hk).
  unfold bind. rewrite Hl. unfold emit_finished, emit.
  eexists. split; [reflexivity|]. tidy. simpl in Hw, Hp, Hk.
  repeat split; assumption.
Qed.

End RunMore.

Lemma run_outcome_lines_witness :
  exists s,
    run example_task world_ready = (Ret tt, s) /\
    length (outcomes (events s)) = length (files example_task) /\
    processed s = Z.of_nat (length (filter is_saved (outcomes (events s)))) /\
    skipped s
    = Z.of_nat (length (filter (fun l => negb (is_saved l)) (outcomes (events s)))) /\
    no_bpm_names (events s) = map name (filter no_tempo (files example_task)) /\
    Z.of_nat (length (filter no_tempo (files example_task))) <= skipped s.
Proof.
  apply (run_outcome_lines example_task world_ready world_ready). reflexivity.
Defined.

Lemma run_again_converts_nothing_witness :
  exists s,
    run two_file_task
        {| can_mkdir := true; ffmpeg := Some (of_str (py "/usr/bin/ffmpeg"));
           existing := [py "/out/b.wav"; py "/out/a.wav"] |}
    = (Ret tt, s) /\
    world s = {| can_mkdir := true; ffmpeg := Some (of_str (py "/usr/bin/ffmpeg"));
                 existing := [py "/out/b.wav"; py "/out/a.wav"] |} /\
    processed s = 0 /\
    skipped s = Z.of_nat (length (files two_file_task)).
Proof.
  apply (run_again_converts_nothing two_file_task).
  - reflexivity.
  - reflexivity.
  - intros f out [<-|[<-|[]]] [= <-]; vm_compute; reflexivity.
Defined.


End WorkerMore.


(** * Facts about [list_audio_files] and [which_ffmpeg] *)

Module DiscoveryFacts.
Import PyStr PathLib Discovery Vocabulary NamingFacts.

(** *** Dropping repetitions (lines 58-64) *)

Lemma uniq_from_inv out : forall seen uniq,
  (forall x, In x seen <-> In x uniq) ->
  NoDup uniq ->
  NoDup (uniq_from seen uniq out) /\
  (forall x, In x (uniq_from seen uniq out) <-> In x uniq \/ In x out).
Proof.
  induction out as [|f out IH]; intros seen uniq Hs Hu.
  - simpl. split; [exact Hu|]. intros x. tauto.
  - cbn [uniq_from]. destruct (in_dec Path_eq_dec f seen) as [Hin|Hout].
    + destruct (IH seen uniq Hs Hu) as [Hn Hm]. split; [exact Hn|].
      intros x. rewrite Hm. simpl. apply Hs in Hin.
      split; [tauto|]. intros [Hx|[<-|Hx]]; tauto.
    + assert (Hs' : forall x, In x (f :: seen) <-> In x (uniq ++ [f])).
      { intros x. rewrite in_app_iff. simpl. rewrite Hs. tauto. }
      assert (Hu' : NoDup (uniq ++ [f])).
      { apply NoDup_app; [exact Hu|repeat constructor; auto|].
        intros x Hx [<-|[]]. apply Hout. now apply Hs. }
      destruct (IH (f :: seen) (uniq ++ [f]) Hs' Hu') as [Hn Hm]. split; [exact Hn|].
      intros x. rewrite Hm, in_app_iff. simpl. tauto.
Qed.

Lemma uniq_from_snoc out f : forall seen uniq,
  (forall x, In x seen <-> In x uniq) ->
  uniq_from seen uniq (out ++ [f])
  = if in_dec Path_eq_dec f (uniq ++ out)
    then uniq_from seen uniq out
    else uniq_from seen uniq out ++ [f].
Proof.
  induction out as [|g out IH]; intros seen uniq Hs.
  - simpl. rewrite app_nil_r.
    destruct (in_dec Path_eq_dec f seen) as [H1|H1],
             (in_dec Path_eq_dec f uniq) as [H2|H2]; try reflexivity;
      exfalso; apply Hs in H1 || apply Hs in H2; contradiction.
  - cbn [app uniq_from]. destruct (in_dec Path_eq_dec g seen) as [Hin|Hout].
    + rewrite (IH seen uniq Hs).
      destruct (in_dec Path_eq_dec f (uniq ++ out)) as [H1|H1],
               (in_dec Path_eq_dec f (uniq ++ g :: out)) as [H2|H2]; try reflexivity;
        exfalso; rewrite in_app_iff in H1, H2; simpl in H2.
      * tauto.
      * apply Hs in Hin. destruct H2 as [H2|[<-|H2]]; tauto.
    + assert (Hs' : forall x, In x (g :: seen) <-> In x (uniq ++ [g])).
      { intros x. rewrite in_app_iff. simpl. rewrite Hs. tauto. }
      rewrite (IH (g :: seen) (uniq ++ [g]) Hs'). rewrite <- app_assoc. reflexivity.
Qed.

Lemma uniq_from_fixed out : forall seen uniq,
  (forall x, In x seen <-> In x uniq) ->
  NoDup (uniq ++ out) ->
  uniq_from seen uniq out = uniq ++ out.
Proof.
  induction out as [|f out IH]; intros seen uniq Hs Hn.
  - simpl. now rewrite app_nil_r.
  - cbn [uniq_from]. destruct (in_dec Path_eq_dec f seen) as [Hin|Hout].
    + exfalso. apply Hs in Hin. apply NoDup_remove_2 in Hn. apply Hn.
      apply in_or_app. now left.
    + assert (Hs' : forall x, In x (f :: seen) <-> In x (uniq ++ [f])).
      { intros x. rewrite in_app_iff. simpl. rewrite Hs. tauto. }
      rewrite (IH (f :: seen) (uniq ++ [f]) Hs'); rewrite <- app_assoc; [reflexivity|exact Hn].
Qed.

(** X15.  The loop of lines 58-64 keeps the first occurrence of every path, in
    order: its result has no repetition and the same members as its
    input; a path added at the end of the input is added at the end of
    the result unless it occurred before; and an input without
    repetition is returned as it is. *)
Theorem uniq_keeps_first_occurrences (out : list Path) (f : Path) :
  NoDup (uniq_from [] [] out) /\
  (forall x, In x (uniq_from [] [] out) <-> In x out) /\
  uniq_from [] [] (out ++ [f])
  = (if in_dec Path_eq_dec f out then uniq_from [] [] out else uniq_from [] [] out ++ [f]) /\
  (NoDup out -> uniq_from [] [] out = out).
Proof.
  assert (H0 : forall x : Path, In x [] <-> In x []) by tauto.
  destruct (uniq_from_inv out [] [] H0 (NoDup_nil _)) as [Hn Hm].
  split; [exact Hn|]. split; [|split].
  - intros x. rewrite Hm. simpl. tauto.
  - exact (uniq_from_snoc out f [] [] H0).
  - intros Hd. exact (uniq_from_fixed out [] [] H0 Hd).
Qed.

(** *** What is listed (lines 50-57) *)

Section ListingFacts.
Context {World : Type} `{FileSystem World}.
Variable w : World.

Lemma accepted_unique f q q' : accepted w f q -> accepted w f q' -> q = q'.
Proof. intros (_ & _ & H1) (_ & _ & H2). congruence. Qed.

Lemma keep_audio_ret f out other out' :
  keep_audio w f out other = Ret out' ->
  (exists q, accepted w f q /\ out' = out ++ [q]) \/
  (~ (is_file f w = Ret true /\ valid_ext f = true) /\ other = Ret out').
Proof.
  unfold keep_audio, rbind, accepted.
  destruct (is_file f w) as [[|]|e] eqn:Ef; [| |discriminate].
  - destruct (valid_ext f) eqn:Ev; cbn [andb].
    + destruct (resolve f w) as [q|e] eqn:Er; [|discriminate].
      intros [= <-]. left. exists q. auto.
    + intros ->. right. split; [|reflexivity]. intros [_ E]. discriminate.
  - cbn [andb]. intros ->. right. split; [|reflexivity]. intros [E _]. discriminate.
Qed.

Lemma walk_spec fs : forall pending out out',
  walk w fs pending out = Ret out' ->
  exists added,
    out' = out ++ added /\
    forall q, In q added <-> exists f, In f fs /\ accepted w f q.
Proof.
  induction fs as [|f fs IH]; intros pending out out' Hw.
  - simpl in Hw. destruct pending; [discriminate|]. injection Hw as <-.
    exists []. split; [now rewrite app_nil_r|].
    intros q. split; [intros []|intros (f & [] & _)].
  - cbn [walk] in Hw. unfold rbind at 1 in Hw.
    destruct (keep_audio w f out (Ret out)) as [out1|e] eqn:Ek; [|discriminate].
    destruct (IH pending out1 out' Hw) as (added & -> & Hadd).
    destruct (keep_audio_ret f out (Ret out) out1 Ek) as [(q0 & Ha & ->)|(Hn & [= <-])].
    + exists (q0 :: added). split; [now rewrite <- app_assoc|].
      intros q. simpl. rewrite Hadd. split.
      * intros [<-|(g & Hg & Hq)]; [exists f; auto|exists g; auto].
      * intros (g & [<-|Hg] & Hq); [left; exact (accepted_unique _ _ _ Ha Hq)|].
        right. exists g. auto.
    + exists added. split; [reflexivity|].
      intros q. rewrite Hadd. split.
      * intros (g & Hg & Hq). exists g. simpl. auto.
      * intros (g & [<-|Hg] & Hq); [|exists g; auto].
        exfalso. apply Hn. destruct Hq as (H1 & H2 & _). auto.
Qed.

Lemma visit_spec p out out' :
  visit w p out = Ret out' ->
  exists added,
    out' = out ++ added /\
    forall q, In q added <-> exists f, found_under w p f /\ accepted w f q.
Proof.
  unfold visit. cbv zeta. intros Hv.
  destruct (keep_audio_ret _ _ _ _ Hv) as [(q0 & Ha & ->)|(Hn & Hd)].
  - exists [q0]. split; [reflexivity|].
    intros q. simpl. split.
    + intros [<-|[]]. exists (of_str p). split; [now left|exact Ha].
    + intros (f & [->|(Hn & _)] & Hq); [left; exact (accepted_unique _ _ _ Ha Hq)|].
      exfalso. apply Hn. destruct Ha as (H1 & H2 & _). auto.
  - unfold rbind in Hd.
    destruct (is_dir (of_str p) w) as [[|]|e] eqn:Ed; [| |discriminate].
    + destruct (rglob (of_str p) w) as [fs pending] eqn:Eg.
      destruct (walk_spec fs pending out out' Hd) as (added & -> & Hadd).
      exists added. split; [reflexivity|].
      intros q. rewrite Hadd. split.
      * intros (f & Hf & Hq). exists f. split; [|exact Hq].
        right. rewrite Eg. auto.
      * intros (f & [->|(_ & _ & Hf)] & Hq).
        -- exfalso. apply Hn. destruct Hq as (H1 & H2 & _). auto.
        -- rewrite Eg in Hf. exists f. auto.
    + injection Hd as <-. exists []. split; [now rewrite app_nil_r|].
      intros q. split; [intros []|].
      intros (f & [->|(_ & Hdir & _)] & Hq); [|congruence].
      apply Hn. destruct Hq as (H1 & H2 & _). auto.
Qed.

Lemma collect_spec paths : forall out out',
  collect w paths out = Ret out' ->
  exists added,
    out' = out ++ added /\
    forall q, In q added <->
              exists p f, In p paths /\ found_under w p f /\ accepted w f q.
Proof.
  induction paths as [|p paths IH]; intros out out' Hc.
  - injection Hc as <-. exists []. split; [now rewrite app_nil_r|].
    intros q. split; [intros []|intros (p & f & [] & _)].
  - cbn [collect] in Hc. unfold rbind at 1 in Hc.
    destruct (visit w p out) as [out1|e] eqn:Ev; [|discriminate].
    destruct (visit_spec p out out1 Ev) as (a1 & -> & H1).
    destruct (IH _ _ Hc) as (a2 & -> & H2).
    exists (a1 ++ a2). split; [now rewrite app_assoc|].
    intros q. rewrite in_app_iff, H1, H2. split.
    + intros [(f & Hf & Hq)|(p' & f & Hp & Hf & Hq)].
      * exists p, f. simpl. auto.
      * exists p', f. simpl. auto.
    + intros (p' & f & [<-|Hp] & Hf & Hq).
      * left. exists f. auto.
      * right. exists p', f. auto.
Qed.

(** X16.  When [list_audio_files] returns, its list has no repetition and
    holds exactly the resolved paths of the regular files with an
    accepted extension (in any case of its letters) that are among the
    arguments or lie below an argument that is a directory and not
    itself such a file. *)
Theorem list_audio_files_exact (paths : list str) (l : list Path) :
  list_audio_files w paths = Ret l ->
  NoDup l /\
  forall q, In q l <->
            exists p f, In p paths /\ found_under w p f /\ accepted w f q.
Proof.
  unfold list_audio_files, rbind. intros Hl.
  destruct (collect w paths []) as [out|e] eqn:Ec; [|discriminate].
  injection Hl as <-.
  destruct (collect_spec paths [] out Ec) as (added & E & Hadd). simpl in E. subst added.
  assert (H0 : forall x : Path, In x [] <-> In x []) by tauto.
  destruct (uniq_from_inv out [] [] H0 (NoDup_nil _)) as [Hn Hm].
  split; [exact Hn|]. intros q. rewrite Hm, <- Hadd. simpl. tauto.
Qed.

End ListingFacts.

Lemma list_audio_files_exact_witness :
  NoDup [of_str (py "/m/a_120.wav"); of_str (py "/m/sub/b_90.MP3")] /\
  forall q, In q [of_str (py "/m/a_120.wav"); of_str (py "/m/sub/b_90.MP3")] <->
            exists p f, In p [py "/m/a_120.wav"; py "/m"; py "/m/sub"] /\
                        found_under example_tree p f /\ accepted example_tree f q.
Proof.
  apply (list_audio_files_exact example_tree [py "/m/a_120.wav"; py "/m"; py "/m/sub"]).
  vm_compute. reflexivity.
Defined.

(** *** The search for the converter (lines 74-126) *)

Lemma linebreak_is_space c : is_linebreak c = true -> is_space c = true.
Proof. by_cases_on c. Qed.

Lemma first_line_of_stripped out :
  strip out <> [] -> first_line (strip out) <> [].
Proof.
  intros Hne.
  assert (Hh : Naming.head_not is_space (strip out)).
  { unfold strip. apply rstrip_by_head, lstrip_by_head. }
  destruct (strip out) as [|c t]; [congruence|].
  simpl in Hh. simpl.
  destruct (is_linebreak c) eqn:E; [|discriminate].
  apply linebreak_is_space in E. congruence.
Qed.

Section WhichFacts.
Context {World : Type} `{Install World}.
Variable w : World.

Lemma which_ffmpeg_places :
  which_ffmpeg w = first_existing w (ffmpeg_places w) (from_path w).
Proof. reflexivity. Qed.

Lemma first_existing_some cands o p :
  first_existing w cands o = Ret (Some p) ->
  (exists before after,
      cands = before ++ p :: after /\
      Forall (fun c => path_exists c w = Ret false) before /\
      path_exists p w = Ret true) \/
  (Forall (fun c => path_exists c w = Ret false) cands /\ o = Ret (Some p)).
Proof.
  induction cands as [|c cands IH]; simpl.
  - intros ->. right. split; [constructor|reflexivity].
  - unfold rbind. destruct (path_exists c w) as [[|]|e] eqn:Ec; [| |discriminate].
    + intros [= <-]. left. exists [], cands. split; [reflexivity|]. split; [constructor|exact Ec].
    + intros Hr. destruct (IH Hr) as [(before & after & -> & Hb & Hp)|[Hall Ho]].
      * left. exists (c :: before), after. split; [reflexivity|].
        split; [now constructor|exact Hp].
      * right. split; [now constructor|exact Ho].
Qed.

Lemma first_existing_none cands o :
  first_existing w cands o = Ret None <->
  Forall (fun c => path_exists c w = Ret false) cands /\ o = Ret None.
Proof.
  induction cands as [|c cands IH]; simpl.
  - split; [intros ->; split; [constructor|reflexivity]|now intros [_ ->]].
  - unfold rbind. destruct (path_exists c w) as [[|]|e] eqn:Ec.
    + split; [discriminate|]. intros [Ha _]. inversion Ha; congruence.
    + rewrite IH. split; intros [Ha Ho]; (split; [|exact Ho]).
      * now constructor.
      * now inversion Ha.
    + split; [discriminate|]. intros [Ha _]. inversion Ha; congruence.
Qed.

Lemma first_existing_raise cands o e :
  first_existing w cands o = Raise e ->
  (exists c, In c cands /\ path_exists c w = Raise e) \/ o = Raise e.
Proof.
  induction cands as [|c cands IH]; simpl.
  - intros ->. now right.
  - unfold rbind. destruct (path_exists c w) as [[|]|e1] eqn:Ec.
    + discriminate.
    + intros Hr. destruct (IH Hr) as [(c' & Hin & Hc)|Ho]; [left|now right].
      exists c'. auto.
    + intros [= <-]. left. exists c. auto.
Qed.

Lemma from_path_some p :
  from_path w = Ret (Some p) ->
  exists out,
    which w = Ret out /\
    first_line (strip out) <> [] /\
    p = of_str (first_line (strip out)).
Proof.
  unfold from_path. destruct (which w) as [out|e]; [|discriminate].
  destruct (strip out) as [|c t] eqn:Es; [discriminate|].
  intros [= <-]. exists out. split; [reflexivity|]. rewrite Es. split; [|reflexivity].
  rewrite <- Es. apply first_line_of_stripped. rewrite Es. discriminate.
Qed.

Lemma from_path_none :
  from_path w = Ret None <->
  match which w with
  | Ret out => strip out = []
  | Raise _ => True
  end.
Proof.
  unfold from_path. destruct (which w) as [out|e]; [|tauto].
  destruct (strip out); split; congruence.
Qed.

Lemma from_path_returns e : from_path w <> Raise e.
Proof.
  unfold from_path. destruct (which w) as [out|e1]; [|discriminate].
  destruct (strip out); discriminate.
Qed.

(** X17.  A path that [which_ffmpeg] returns is the first of the six places
    (next to the program, its [ffmpeg] and [assets] folders, then the
    same three under the bundle directory) that exists, every place
    before it having been found absent; or, when all six are absent, it
    is the first line, not empty, of what [which ffmpeg] printed.  The
    latter path is not checked. *)
Theorem which_ffmpeg_finds (p : Path) :
  which_ffmpeg w = Ret (Some p) ->
  (exists before after,
      ffmpeg_places w = before ++ p :: after /\
      Forall (fun c => path_exists c w = Ret false) before /\
      path_exists p w = Ret true) \/
  (Forall (fun c => path_exists c w = Ret false) (ffmpeg_places w) /\
   exists out,
     which w = Ret out /\
     first_line (strip out) <> [] /\
     p = of_str (first_line (strip out))).
Proof.
  rewrite which_ffmpeg_places. intros Hr.
  destruct (first_existing_some _ _ _ Hr) as [Hl|[Hall Ho]]; [now left|right].
  split; [exact Hall|]. now apply from_path_some.
Qed.

(** X18.  [which_ffmpeg] returns [None] exactly when the six places are all
    absent and the search of the PATH fails, by an exception of any kind
    or by printing nothing but white space; and it raises only what
    [exists()] raised on one of the six places, never what the search of
    the PATH raised. *)
Theorem which_ffmpeg_not_found :
  (which_ffmpeg w = Ret None <->
   Forall (fun c => path_exists c w = Ret false) (ffmpeg_places w) /\
   match which w with
   | Ret out => strip out = []
   | Raise _ => True
   end) /\
  (forall e, which_ffmpeg w = Raise e ->
             exists c, In c (ffmpeg_places w) /\ path_exists c w = Raise e).
Proof.
  rewrite which_ffmpeg_places. split.
  - rewrite first_existing_none, from_path_none. tauto.
  - intros e Hr. destruct (first_existing_raise _ _ _ Hr) as [Hc|Ho]; [exact Hc|].
    now apply from_path_returns in Ho.
Qed.

End WhichFacts.

Lemma which_ffmpeg_finds_witness :
  (exists before after,
      ffmpeg_places install_with_assets
      = before ++ of_str (py "/app/assets/ffmpeg") :: after /\
      Forall (fun c => path_exists c install_with_assets = Ret false) before /\
      path_exists (of_str (py "/app/assets/ffmpeg")) install_with_assets = Ret true) \/
  (Forall (fun c => path_exists c install_with_assets = Ret false)
          (ffmpeg_places install_with_assets) /\
   exists out,
     which install_with_assets = Ret out /\
     first_line (strip out) <> [] /\
     of_str (py "/app/assets/ffmpeg") = of_str (first_line (strip out))).
Proof.
  apply (which_ffmpeg_finds install_with_assets (of_str (py "/app/assets/ffmpeg"))).
  vm_compute. reflexivity.
Defined.

Example which_ffmpeg_on_path :
  which_ffmpeg install_on_path = Ret (Some (of_str (py "/usr/bin/ffmpeg"))).
Proof. vm_compute. reflexivity. Qed.

Example which_ffmpeg_nowhere : which_ffmpeg install_without = Ret None.
Proof. vm_compute. reflexivity. Qed.

End DiscoveryFacts.
